(** * Condition recovery of the decompiler: reaching conditions, edge
    predicates and the boolean simplification passes.

    A shallow embedding of [angr/analyses/decompiler/condition_processor.py].
    claripy terms are a first-order datatype; the claripy, sympy and networkx
    entry points the module calls are interfaces (type classes) whose
    behaviour is only assumed where a statement says so. *)

From Stdlib Require Import ZArith String List Bool Lia.
From stdpp Require Import base option list gmap strings pretty.

#[global] Set Warnings "-register-all".

Open Scope string_scope.
Open Scope list_scope.

(** ** Exceptions and results *)

Inductive Exc : Type :=
| EmptyBlockNotice
| NotImplementedError
| AssertionError
| AngrRuntimeError
| KeyError
| IndexError
| StopIteration
| AttributeError
| ValueError
| RecursionError.

Inductive result (A : Type) : Type :=
| Ok (a : A)
| Raise (e : Exc).
Arguments Ok {A} a.
Arguments Raise {A} e.

#[global] Instance result_ret : MRet result := fun _ a => Ok a.
#[global] Instance result_bind : MBind result := fun _ _ f m =>
  match m with Ok a => f a | Raise e => Raise e end.
#[global] Instance result_fmap : FMap result := fun _ _ f m =>
  match m with Ok a => Ok (f a) | Raise e => Raise e end.

Definition is_Ok {A} (r : result A) : bool :=
  match r with Ok _ => true | Raise _ => false end.

(** ** claripy terms *)

(** A claripy AST: the four leaf operations and an operation applied to
    arguments; [cond.op] is the operation name, [cond.args] the arguments. *)
Inductive AST : Type :=
| BoolV (b : bool)
| BoolS (name : string)
| BVV (value : Z) (bits : N)
| BVS (name : string) (bits : N)
| Node (op : string) (args : list AST).

Section AST_induction.
Variable P : AST -> Prop.
Hypothesis HBoolV : forall b, P (BoolV b).
Hypothesis HBoolS : forall n, P (BoolS n).
Hypothesis HBVV : forall v w, P (BVV v w).
Hypothesis HBVS : forall n w, P (BVS n w).
Hypothesis HNode : forall o l, Forall P l -> P (Node o l).

Fixpoint AST_ind' (a : AST) : P a :=
  match a with
  | BoolV b => HBoolV b
  | BoolS n => HBoolS n
  | BVV v w => HBVV v w
  | BVS n w => HBVS n w
  | Node o l =>
      HNode o l
        ((fix go (l : list AST) : Forall P l :=
            match l with
            | [] => Forall_nil_2 P
            | x :: r => Forall_cons_2 P x r (AST_ind' x) (go r)
            end) l)
  end.
End AST_induction.

Fixpoint AST_eqb (a b : AST) {struct a} : bool :=
  match a, b with
  | BoolV x, BoolV y => Bool.eqb x y
  | BoolS x, BoolS y => String.eqb x y
  | BVV v w, BVV v' w' => Z.eqb v v' && N.eqb w w'
  | BVS n w, BVS n' w' => String.eqb n n' && N.eqb w w'
  | Node o l, Node o' l' =>
      String.eqb o o' &&
      (fix go (l l' : list AST) {struct l} : bool :=
         match l, l' with
         | [], [] => true
         | x :: r, y :: s => AST_eqb x y && go r s
         | _, _ => false
         end) l l'
  | _, _ => false
  end.

Lemma AST_eqb_eq (a b : AST) : AST_eqb a b = true <-> a = b.
Proof.
  revert b. induction a as [x|x|v w|n w|o l IH] using AST_ind';
    intros [y|y|v' w'|n' w'|o' l']; simpl; try (split; discriminate).
  - rewrite Bool.eqb_true_iff. split; congruence.
  - rewrite String.eqb_eq. split; congruence.
  - rewrite andb_true_iff, Z.eqb_eq, N.eqb_eq. split; [intros []|intros [=]]; subst; auto.
  - rewrite andb_true_iff, String.eqb_eq, N.eqb_eq. split; [intros []|intros [=]]; subst; auto.
  - rewrite andb_true_iff, String.eqb_eq.
    match goal with |- context [?g l l'] => set (go := g) end.
    assert (Hl : go l l' = true <-> l = l').
    { clear o o'. revert l'. induction IH as [|x r Hx _ IHr]; intros [|y s]; simpl;
        try (split; (discriminate || reflexivity)).
      rewrite andb_true_iff, Hx, IHr. split; [intros []|intros [=]]; subst; auto. }
    rewrite Hl. split; [intros []|intros [=]]; subst; auto.
Qed.

#[global] Instance AST_eq_dec : EqDecision AST.
Proof.
  intros a b. destruct (AST_eqb a b) eqn:E.
  - left. apply AST_eqb_eq, E.
  - right. intros Hab. apply AST_eqb_eq in Hab. congruence.
Defined.

Definition op (a : AST) : string :=
  match a with
  | BoolV _ => "BoolV"
  | BoolS _ => "BoolS"
  | BVV _ _ => "BVV"
  | BVS _ _ => "BVS"
  | Node o _ => o
  end.

(** [cond.args] restricted to the arguments that are terms themselves. *)
Definition args (a : AST) : list AST :=
  match a with Node _ l => l | _ => [] end.


Definition max_list (l : list nat) : nat := foldr Nat.max 0%nat l.

(** [cond.depth]: a leaf has depth 1. *)
Fixpoint depth (a : AST) : nat :=
  match a with
  | Node _ l => S (max_list (map depth l))
  | _ => 1%nat
  end.

(** [cond.variables]: the frozenset of the names of the symbols below. *)
Fixpoint variables (a : AST) : gset string :=
  match a with
  | BoolS n | BVS n _ => {[ n ]}
  | BoolV _ | BVV _ _ => ∅
  | Node _ l => ⋃ (map variables l)
  end.

Definition claripy_true : AST := BoolV true.
Definition claripy_false : AST := BoolV false.

(** [claripy.BVV(value, bits)] stores the value reduced to its width. *)
Definition claripy_BVV (value : Z) (bits : N) : AST :=
  BVV (value mod 2 ^ Z.of_N bits) bits.

(** Python's [NotImplemented], which a function of claripy returns for
    operands of a type it does not take ([claripy.Not] of a bit-vector). A
    variable that holds a term may hold it instead; it is kept among the
    terms as a value of its own: no operation of claripy has this name. *)
Definition NotImplemented : AST := Node "NotImplemented" [].

(** ** Interfaces of the libraries *)

(** claripy builds every operation through one constructor, which may
    simplify on the way (it is not assumed to return [Node o l]) and may
    return [NotImplemented]; the solver answers whether a list of
    constraints is satisfiable. *)
Class Claripy : Type := {
  claripy_op : string -> list AST -> AST;
  solver_satisfiable : list AST -> bool;
  ast_size : AST -> N;
  ast_hash : AST -> Z;
  ast_repr : AST -> string
}.

Section WithClaripy.
Context `{Claripy}.
Definition claripy_Not (a : AST) : AST := claripy_op "Not" [a].
Definition claripy_And (l : list AST) : AST := claripy_op "And" l.
Definition claripy_Or (l : list AST) : AST := claripy_op "Or" l.
Definition claripy_eq (a b : AST) : AST := claripy_op "__eq__" [a; b].
End WithClaripy.

(** sympy's boolean expressions, as far as the module looks at them. *)
Inductive SympyExpr : Type :=
| SSymbol (name : string)
| SAnd (sargs : list SympyExpr)
| SOr (sargs : list SympyExpr)
| SNot (sarg : SympyExpr)
| STrue
| SFalse
| SOther (tag : string).

Class Sympy : Type := {
  sympy_And : list SympyExpr -> SympyExpr;
  sympy_Or : list SympyExpr -> SympyExpr;
  sympy_Not : SympyExpr -> SympyExpr;
  simplify_logic : SympyExpr -> SympyExpr
}.

(** What the Python runtime contributes: [str] and [format(_, "x")] of an
    integer, and the recursion limit, after which a call raises
    [RecursionError]. *)
Class Python : Type := {
  py_str : Z -> string;
  py_hex : Z -> string;
  recursion_limit : nat
}.


(** ** Expression simplification *)

Definition _UNIFIABLE_COMPARISONS : list string :=
  ["__ne__"; "__gt__"; "__ge__"; "UGT"; "UGE"; "SGT"; "SGE"].

Definition _INVERSE_OPERATIONS : list (string * string) :=
  [("__eq__", "__ne__"); ("__ne__", "__eq__"); ("__gt__", "__le__");
   ("__lt__", "__ge__"); ("__ge__", "__lt__"); ("__le__", "__gt__");
   ("ULT", "UGE"); ("UGE", "ULT"); ("UGT", "ULE"); ("ULE", "UGT");
   ("SLT", "SGE"); ("SGE", "SLT"); ("SLE", "SGT"); ("SGT", "SLE")].

Definition str_in (s : string) (l : list string) : bool :=
  existsb (String.eqb s) l.

Fixpoint assoc_get {V} (k : string) (l : list (string * V)) : option V :=
  match l with
  | [] => None
  | (k', v) :: r => if String.eqb k k' then Some v else assoc_get k r
  end.

Section Simplification.
Context `{Claripy} `{Sympy} `{Python}.

(** [memo] is keyed by the sympy symbol (its name); the lookup
    [ast in memo] of the source asks for a claripy term among these keys
    and finds none, so every leaf makes its symbol again. *)
Fixpoint claripy_ast_to_sympy_expr (fuel : nat) (ast : AST)
    (memo : gmap string AST) : result (SympyExpr * gmap string AST) :=
  match fuel with
  | O => Raise RecursionError
  | S fuel =>
      let each :=
        fix each (l : list AST) (memo : gmap string AST)
            : result (list SympyExpr * gmap string AST) :=
          match l with
          | [] => Ok ([], memo)
          | a :: r =>
              match claripy_ast_to_sympy_expr fuel a memo with
              | Raise e => Raise e
              | Ok (e, memo) =>
                  match each r memo with
                  | Raise e' => Raise e'
                  | Ok (es, memo) => Ok (e :: es, memo)
                  end
              end
          end in
      if op ast =? "And" then
        '(es, memo) ← each (args ast) memo; Ok (sympy_And es, memo)
      else if op ast =? "Or" then
        '(es, memo) ← each (args ast) memo; Ok (sympy_Or es, memo)
      else if op ast =? "Not" then
        match args ast with
        | [] => Raise IndexError
        | a :: _ =>
            '(e, memo) ← claripy_ast_to_sympy_expr fuel a memo;
            Ok (sympy_Not e, memo)
        end
      else if str_in (op ast) _UNIFIABLE_COMPARISONS then
        match assoc_get (op ast) _INVERSE_OPERATIONS, args ast with
        | None, _ => Raise KeyError
        | Some inverse_op, a0 :: a1 :: _ =>
            '(e, memo) ←
              claripy_ast_to_sympy_expr fuel (claripy_op inverse_op [a0; a1]) memo;
            Ok (sympy_Not e, memo)
        | Some _, _ => Raise IndexError
        end
      else
        let name := py_str (ast_hash ast) in
        Ok (SSymbol name, <[name := ast]> memo)
  end.

Fixpoint sympy_expr_to_claripy_ast (expr : SympyExpr) (memo : gmap string AST)
    : result AST :=
  let each :=
    fix each (l : list SympyExpr) : result (list AST) :=
      match l with
      | [] => Ok []
      | e :: r =>
          match sympy_expr_to_claripy_ast e memo with
          | Raise x => Raise x
          | Ok a => match each r with Raise x => Raise x | Ok l' => Ok (a :: l') end
          end
      end in
  match expr with
  | SSymbol name =>
      match memo !! name with Some a => Ok a | None => Raise KeyError end
  | SOr l => l' ← each l; Ok (claripy_Or l')
  | SAnd l => l' ← each l; Ok (claripy_And l')
  | SNot e => a ← sympy_expr_to_claripy_ast e memo; Ok (claripy_Not a)
  | STrue => Ok claripy_true
  | SFalse => Ok claripy_false
  | SOther _ => Raise AngrRuntimeError
  end.

(** [simplify_condition], returning next to its result the list of the
    expressions it hands to [sympy.simplify_logic]. *)
Definition simplify_condition_calls (cond : AST)
    (depth_limit variables_limit : nat) : result AST * list SympyExpr :=
  if (depth_limit <? depth cond)%nat
     || (variables_limit <? size (variables cond))%nat
  then (Ok cond, [])
  else
    match claripy_ast_to_sympy_expr recursion_limit cond ∅ with
    | Raise e => (Raise e, [])
    | Ok (sympy_expr, memo) =>
        (sympy_expr_to_claripy_ast (simplify_logic sympy_expr) memo,
         [sympy_expr])
    end.

Definition simplify_condition_with (cond : AST)
    (depth_limit variables_limit : nat) : result AST :=
  fst (simplify_condition_calls cond depth_limit variables_limit).

(** The call with the default limits, [depth_limit=8, variables_limit=8]. *)
Definition simplify_condition (cond : AST) : result AST :=
  simplify_condition_with cond 8 8.

Definition _revert_short_circuit_conditions (cond : AST) : result AST :=
  if negb (op cond =? "Or") then Ok cond
  else
    match args cond with
    | [] => Raise ValueError
    | [a] => Ok a
    | or_arg0 :: or_arg1 :: rest =>
        let found (not_a constraint not_b : AST) : result AST :=
          if negb (solver_satisfiable [constraint]) then
            let b := claripy_Not not_b in
            let a := claripy_Not not_a in
            if (length (args cond) <=? 2)%nat
            then Ok (claripy_Not (claripy_And [a; b]))
            else Ok (claripy_Or (claripy_Not (claripy_And [a; b]) :: rest))
          else Ok cond in
        let look (not_a or_arg1 : AST) : result AST :=
          match args or_arg1 !! 0%nat with
          | None => Raise IndexError
          | Some x0 =>
              if decide (variables not_a = variables x0) then
                match args or_arg1 !! 1%nat with
                | None => Raise IndexError
                | Some not_b => found not_a (claripy_eq not_a x0) not_b
                end
              else
                match args or_arg1 !! 1%nat with
                | None => Raise IndexError
                | Some x1 =>
                    if decide (variables not_a = variables x1)
                    then found not_a (claripy_eq not_a x1) x0
                    else Ok cond
                end
          end in
        if op or_arg1 =? "And" then look or_arg0 or_arg1
        else if op or_arg0 =? "And" then look or_arg1 or_arg0
        else Ok cond
    end.

Definition _fold_double_negations (cond : AST) : result (option AST) :=
  if negb (op cond =? "Not") then Ok None
  else
    match args cond with
    | [] => Raise IndexError
    | c0 :: _ =>
        if op c0 =? "Not" then Ok (Some c0)
        else if (op c0 =? "And") && (length (args c0) =? 2)%nat then
          match args c0 with
          | [and_0; and_1] =>
              if (op and_0 =? "Not") && (op and_1 =? "Not") then
                match args and_0, args and_1 with
                | a :: _, b :: _ => Ok (Some (claripy_Or [a; b]))
                | _, _ => Raise IndexError
                end
              else if op and_0 =? "Not" then
                match args and_0 with
                | a :: _ =>
                    s ← simplify_condition (claripy_Not and_1);
                    Ok (Some (claripy_Or [a; s]))
                | [] => Raise IndexError
                end
              else Ok None
          | _ => Ok None
          end
        else if (op c0 =? "Or") && (length (args c0) =? 2)%nat then
          match args c0 with
          | [or_0; or_1] =>
              s0 ← simplify_condition (claripy_Not or_0);
              s1 ← simplify_condition (claripy_Not or_1);
              Ok (Some (claripy_And [s0; s1]))
          | _ => Ok None
          end
        else Ok None
    end.

Fixpoint _extract_terms (ast : AST) : list AST :=
  match ast with
  | Node o l =>
      if (o =? "And") || (o =? "Or") then flat_map _extract_terms l
      else if o =? "Not" then
        match l with a :: _ => _extract_terms a | [] => [] end
      else [ast]
  | _ => [ast]
  end.

(** [ast is r0]: terms are interned, identity is structural equality;
    [r1] is [None] when the term has no recorded negation. *)
Fixpoint _replace_term_in_ast (ast r0 r0_with : AST) (r1 : option AST)
    (r1_with : AST) : AST :=
  let leaf :=
    if decide (ast = r0) then r0_with
    else if decide (Some ast = r1) then r1_with
    else ast in
  match ast with
  | Node o l =>
      let l' := map (fun a => _replace_term_in_ast a r0 r0_with r1 r1_with) l in
      if o =? "And" then claripy_And l'
      else if o =? "Or" then claripy_Or l'
      else if o =? "Not" then
        match l' with a :: _ => claripy_Not a | [] => leaf end
      else leaf
  | _ => leaf
  end.

Definition set_add (x : AST) (s : list AST) : list AST :=
  if decide (x ∈ s) then s else s ++ [x].

Definition negation_of (negations : list (AST * AST)) (term : AST) : option AST :=
  snd <$> find (fun p => bool_decide (fst p = term)) negations.

(** Is [term] redundant in [cond]: the four solver queries of the loop. *)
Definition term_is_redundant (cond term : AST) (neg : option AST) : bool :=
  let replaced_with_true :=
    _replace_term_in_ast cond term claripy_true neg claripy_false in
  let sat0 := solver_satisfiable [cond; claripy_Not replaced_with_true] in
  let sat1 := solver_satisfiable [claripy_Not cond; replaced_with_true] in
  if sat0 || sat1 then false
  else
    let replaced_with_false :=
      _replace_term_in_ast cond term claripy_false neg claripy_true in
    let sat0 := solver_satisfiable [cond; claripy_Not replaced_with_false] in
    let sat1 := solver_satisfiable [claripy_Not cond; replaced_with_false] in
    negb (sat0 || sat1).

(** The function has no [return]: it yields Python's [None]; the second
    component is what it prints, one term per line. The sets are kept in
    insertion order. *)
Definition _remove_redundant_terms (cond : AST) : option AST * list AST :=
  let all_terms := foldl (fun s t => set_add t s) [] (_extract_terms cond) in
  let '(negations, to_skip, all_terms_without_negs) :=
    foldl (fun '(negations, to_skip, without) term =>
             if decide (term ∈ to_skip) then (negations, to_skip, without)
             else
               let neg := claripy_Not term in
               if decide (neg ∈ all_terms)
               then (negations ++ [(term, neg)], set_add neg to_skip,
                     set_add term without)
               else (negations, to_skip, set_add term without))
          (([] : list (AST * AST)), ([] : list AST), ([] : list AST))
          all_terms in
  let printed :=
    filter (fun term =>
              term_is_redundant cond term (negation_of negations term) = true)
           all_terms_without_negs in
  (None, printed).
End Simplification.

(** ** Meaning of terms *)

(** An environment gives the symbols their values and decides the
    operations the algebra leaves uninterpreted. *)
Record Env : Type := {
  env_bool : string -> bool;
  env_bv : string -> Z;
  env_atom : AST -> bool;
  env_term : AST -> Z
}.

Definition eval_bv (ρ : Env) (a : AST) : Z :=
  match a with
  | BVV v w => v mod 2 ^ Z.of_N w
  | BVS n w => env_bv ρ n mod 2 ^ Z.of_N w
  | _ => env_term ρ a
  end.

Definition is_bits (a : AST) : bool :=
  match a with BVV _ _ | BVS _ _ => true | _ => false end.

Fixpoint eval (ρ : Env) (a : AST) : bool :=
  match a with
  | BoolV b => b
  | BoolS n => env_bool ρ n
  | Node o l =>
      if o =? "And" then forallb (eval ρ) l
      else if o =? "Or" then existsb (eval ρ) l
      else if o =? "Not" then
        match l with [x] => negb (eval ρ x) | _ => env_atom ρ a end
      else if o =? "__eq__" then
        match l with
        | [x; y] =>
            if is_bits x || is_bits y then (eval_bv ρ x =? eval_bv ρ y)%Z
            else Bool.eqb (eval ρ x) (eval ρ y)
        | _ => env_atom ρ a
        end
      else env_atom ρ a
  | _ => env_atom ρ a
  end.

(** What a statement may assume of claripy's constructors: each builds a
    term with the meaning of its operation. *)
Class ClaripySound `{Claripy} : Prop := {
  eval_claripy_Not : forall ρ a, eval ρ (claripy_Not a) = negb (eval ρ a);
  eval_claripy_And : forall ρ l, eval ρ (claripy_And l) = forallb (eval ρ) l;
  eval_claripy_Or : forall ρ l, eval ρ (claripy_Or l) = existsb (eval ρ) l;
  eval_claripy_eq_bits : forall ρ n w v w',
    eval ρ (claripy_eq (BVS n w) (BVV v w')) =
    (eval_bv ρ (BVS n w) =? eval_bv ρ (BVV v w'))%Z
}.


(** ** AIL expressions, statements and structured nodes *)

Definition Tags : Type := list (string * Z).

Inductive ConstValue : Type :=
| VBool (b : bool)
| VInt (z : Z).

(** [ClaripyTerm a] is a condition that is a claripy term already; [Op] is any
    operation ([UnaryOp], [BinaryOp], ...) with its [op] and [verbose_op];
    [variable] is the [ident] of the variable attached to an expression. *)
Inductive Expr : Type :=
| ClaripyTerm (a : AST)
| VEXCCallExpression (idx : option Z) (callee : string) (operands : list Expr) (bits : N)
| BasePointerOffset (idx : option Z) (bits : N) (base : string) (offset : Z)
| ITE (idx : option Z) (cond iffalse iftrue : Expr) (bits : N)
| Call (idx : option Z) (target : string) (bits : N) (tags : Tags)
| Load (idx : option Z) (variable : option string) (addr : Expr) (bits : N)
| Register (idx : option Z) (variable : option string) (reg_offset : Z) (bits : N)
| VirtualVariable (idx : option Z) (variable : option string) (varid : Z) (bits : N)
| Convert (idx : option Z) (from_bits to_bits : N) (is_signed : bool) (operand : Expr)
| Const (idx : option Z) (value : ConstValue) (bits : N)
| Tmp (idx : option Z) (tmp_idx : Z) (bits : N)
| MultiStatementExpression (idx : option Z) (expr : Expr) (bits : N)
| Op (idx : option Z) (opname verbose_op : string) (operands : list Expr)
     (bits : N) (tags : Tags).

Definition expr_bits (e : Expr) : N :=
  match e with
  | ClaripyTerm _ => 0
  | VEXCCallExpression _ _ _ b | BasePointerOffset _ b _ _ | ITE _ _ _ _ b
  | Call _ _ b _ | Load _ _ _ b | Register _ _ _ b | VirtualVariable _ _ _ b
  | Const _ _ b | Tmp _ _ b | MultiStatementExpression _ _ b
  | Op _ _ _ _ b _ => b
  | Convert _ _ to_bits _ _ => to_bits
  end.

Definition expr_idx (e : Expr) : option Z :=
  match e with
  | ClaripyTerm _ => None
  | VEXCCallExpression i _ _ _ | BasePointerOffset i _ _ _ | ITE i _ _ _ _
  | Call i _ _ _ | Load i _ _ _ | Register i _ _ _ | VirtualVariable i _ _ _
  | Const i _ _ | Tmp i _ _ | MultiStatementExpression i _ _
  | Op i _ _ _ _ _ | Convert i _ _ _ _ => i
  end.

Definition const_value_Z (v : ConstValue) : Z :=
  match v with VInt z => z | VBool true => 1 | VBool false => 0 end.

Inductive Stmt : Type :=
| Jump (target : Expr) (ins_addr : Z)
| ConditionalJump (condition : Expr) (true_target false_target : option Expr)
                  (ins_addr : Z)
| OtherStmt (kind : string).

(** The nodes of a region graph; every node carries its [addr]. *)
Inductive SNode : Type :=
| AilBlock (addr : Z) (statements : list Stmt)
| AngrBlock (addr : Z)
| BlockNode (addr : Z)
| SequenceNode (addr : Z) (nodes : list SNode)
| CodeNode (addr : Z) (node : SNode)
| MultiNode (addr : Z) (nodes : list SNode)
| LoopNode (addr : Z) (sequence_node : option SNode)
| ConditionalBreakNode (addr : Z) (condition : AST) (target : Z)
| ConditionNode (addr : Z) (true_node false_node : option SNode)
| CascadingConditionNode (addr : Z) (condition_and_nodes : list (AST * SNode))
                         (else_node : option SNode)
| BreakNode (addr : Z)
| ContinueNode (addr : Z)
| SwitchCaseNode (addr : Z)
| IncompleteSwitchCaseNode (addr : Z)
| GraphRegion (addr : Z).

Definition node_addr (n : SNode) : Z :=
  match n with
  | AilBlock a _ | AngrBlock a | BlockNode a | SequenceNode a _ | CodeNode a _
  | MultiNode a _ | LoopNode a _ | ConditionalBreakNode a _ _
  | ConditionNode a _ _ | CascadingConditionNode a _ _ | BreakNode a
  | ContinueNode a | SwitchCaseNode a | IncompleteSwitchCaseNode a
  | GraphRegion a => a
  end.

(** What the rest of the platform contributes: the printed form and the
    hash of an expression, and the test for a block whose conditional jump
    is not its last statement. *)
Class Ailment : Type := {
  expr_repr : Expr -> string;
  expr_hash : Expr -> Z;
  is_head_controlled_loop_block : list Stmt -> bool
}.

(** ** The state of a ConditionProcessor *)

Definition node : Type := nat.

Record ProcState : Type := {
  _condition_mapping : gmap string Expr;
  _ast2annotations : list (AST * Tags);
  EXC_COUNTER : Z;
  jump_table_conds : gmap Z (list AST);
  reaching_conditions : gmap node AST;
  guarding_conditions : gmap node AST
}.

(** The state after [__init__]. *)
Definition initial_state : ProcState :=
  {| _condition_mapping := ∅; _ast2annotations := [];
     EXC_COUNTER := 1000; jump_table_conds := ∅;
     reaching_conditions := ∅; guarding_conditions := ∅ |}.

(** [clear()] empties the tables and leaves the exception counter. *)
Definition clear (s : ProcState) : ProcState :=
  {| _condition_mapping := ∅; _ast2annotations := [];
     EXC_COUNTER := EXC_COUNTER s; jump_table_conds := ∅;
     reaching_conditions := ∅; guarding_conditions := ∅ |}.

(** A method: it reads and writes the state and returns or raises. *)
Definition M (A : Type) : Type := ProcState -> result A * ProcState.

Definition retM {A} (a : A) : M A := fun s => (Ok a, s).
Definition raiseM {A} (e : Exc) : M A := fun s => (Raise e, s).
Definition bindM {A B} (m : M A) (f : A -> M B) : M B := fun s =>
  match m s with
  | (Ok a, s') => f a s'
  | (Raise e, s') => (Raise e, s')
  end.
Definition liftM {A} (r : result A) : M A := fun s => (r, s).

Declare Scope M_scope.
Delimit Scope M_scope with M.
Notation "x <- m ;; k" := (bindM m (fun x => k))
  (at level 100, m at next level, right associativity) : M_scope.
Notation "m ;;; k" := (bindM m (fun _ => k))
  (at level 100, right associativity) : M_scope.

Definition set_mapping (name : string) (condition : Expr) : M unit := fun s =>
  (Ok tt,
   {| _condition_mapping := <[name := condition]> (_condition_mapping s);
      _ast2annotations := _ast2annotations s;
      EXC_COUNTER := EXC_COUNTER s;
      jump_table_conds := jump_table_conds s;
      reaching_conditions := reaching_conditions s;
      guarding_conditions := guarding_conditions s |}).

Definition set_annotation (r : AST) (tags : Tags) : M unit := fun s =>
  (Ok tt,
   {| _condition_mapping := _condition_mapping s;
      _ast2annotations := (r, tags) :: _ast2annotations s;
      EXC_COUNTER := EXC_COUNTER s;
      jump_table_conds := jump_table_conds s;
      reaching_conditions := reaching_conditions s;
      guarding_conditions := guarding_conditions s |}).

(** [self.EXC_COUNTER += 1], returning the new value. *)
Definition next_exc_counter : M Z := fun s =>
  (Ok (EXC_COUNTER s + 1)%Z,
   {| _condition_mapping := _condition_mapping s;
      _ast2annotations := _ast2annotations s;
      EXC_COUNTER := (EXC_COUNTER s + 1)%Z;
      jump_table_conds := jump_table_conds s;
      reaching_conditions := reaching_conditions s;
      guarding_conditions := guarding_conditions s |}).

(** ** The table from AIL operations to claripy *)

(** The shapes of the lambdas of [_ail2claripy_op_mapping]: both operands
    converted as they are ([Logical]), both with [nobool=True] ([Binary]),
    the single operand ([Unary]), [_op_with_unified_size] ([Shift]), all
    operands ([ConcatAll]) and the two dummies. *)
Inductive TableEntry : Type :=
| Logical (claripy_name : string)
| Binary (claripy_name : string)
| Unary (claripy_name : string)
| Shift (claripy_name : string)
| ConcatAll
| DummyBVS
| DummyBools.

Definition _ail2claripy_op_mapping : list (string * TableEntry) :=
  [("LogicalAnd", Logical "And"); ("LogicalOr", Logical "Or");
   ("CmpEQ", Binary "__eq__"); ("CmpNE", Binary "__ne__");
   ("CmpLE", Binary "__le__"); ("CmpLE (signed)", Binary "SLE");
   ("CmpLT", Binary "__lt__"); ("CmpLT (signed)", Binary "SLT");
   ("CmpGE", Binary "__ge__"); ("CmpGE (signed)", Binary "SGE");
   ("CmpGT", Binary "__gt__"); ("CmpGT (signed)", Binary "SGT");
   ("CasCmpEQ", Binary "__eq__"); ("CasCmpNE", Binary "__ne__");
   ("CasCmpLE", Binary "__le__"); ("CasCmpLE (signed)", Binary "SLE");
   ("CasCmpLT", Binary "__lt__"); ("CasCmpLT (signed)", Binary "SLT");
   ("CasCmpGE", Binary "__ge__"); ("CasCmpGE (signed)", Binary "SGE");
   ("CasCmpGT", Binary "__gt__"); ("CasCmpGT (signed)", Binary "SGT");
   ("Add", Binary "__add__"); ("Sub", Binary "__sub__");
   ("Mul", Binary "__mul__"); ("Div", Binary "__floordiv__");
   ("Mod", Binary "__mod__");
   ("Not", Unary "Not"); ("Neg", Unary "__neg__");
   ("BitwiseNeg", Unary "__invert__");
   ("Xor", Binary "__xor__"); ("And", Binary "__and__");
   ("Or", Binary "__or__");
   ("Shr", Shift "LShR"); ("Shl", Shift "__lshift__");
   ("Sar", Shift "__rshift__");
   ("Concat", ConcatAll);
   ("CmpF", DummyBVS); ("Mull", DummyBVS); ("Mull (signed)", DummyBVS);
   ("Reinterpret", DummyBVS); ("Rol", DummyBVS); ("Ror", DummyBVS);
   ("LogicalXor", DummyBVS); ("Carry", DummyBVS); ("SCarry", DummyBVS);
   ("SBorrow", DummyBVS); ("ExpCmpNE", DummyBools); ("CmpORD", DummyBVS);
   ("CmpEQV", DummyBVS); ("GetMSBs", DummyBVS); ("ShlNV", DummyBVS);
   ("ShrNV", DummyBVS); ("InterleaveLOV", DummyBVS);
   ("InterleaveHIV", DummyBVS);
   ("_DUMMY_", DummyBVS)].

(** The operations of claripy whose result is a [Bool]. *)
Definition bool_ops : list string :=
  ["Not"; "And"; "Or"; "__eq__"; "__ne__"; "__le__"; "__lt__"; "__ge__";
   "__gt__"; "ULT"; "ULE"; "UGT"; "UGE"; "SLT"; "SLE"; "SGT"; "SGE"].

(** [isinstance(r, claripy.ast.Bool)]. *)
Definition is_Bool (a : AST) : bool :=
  match a with
  | BoolV _ | BoolS _ => true
  | BVV _ _ | BVS _ _ => false
  | Node o _ => str_in o bool_ops
  end.

Definition str_opt `{Python} (i : option Z) : string :=
  match i with Some z => py_str z | None => "None" end.

Definition tags_get (tags : Tags) (k : string) (default : Z) : Z :=
  match assoc_get k tags with Some v => v | None => default end.

(** ** From AIL expressions to claripy terms *)

Section Translation.
Context `{Claripy} `{Python} `{Ailment}.
Local Open Scope M_scope.

(** [hex(x)]. *)
Definition py_hex0x (z : Z) : string :=
  if (z <? 0)%Z then "-0x" +:+ py_hex (- z) else "0x" +:+ py_hex z.

(** [r.size()]: the width of a leaf is its own; claripy computes the
    width of an operation. *)
Definition size_of (r : AST) : N :=
  match r with BVV _ w | BVS _ w => w | _ => ast_size r end.

Definition _dummy_bvs (condition : Expr) (name_suffix : string) : M AST :=
  let name := "ailexpr_" +:+ expr_repr condition +:+ name_suffix in
  set_mapping name condition ;;;
  retM (BVS name (expr_bits condition)).

Definition _dummy_bools (condition : Expr) (name_suffix : string) : M AST :=
  let name := "ailexpr_" +:+ expr_repr condition +:+ name_suffix in
  set_mapping name condition ;;;
  retM (BoolS name).

(** The [Convert] case once the operand is converted to [var_]. *)
Definition convert_var (condition : Expr) (from_bits to_bits : N)
    (nobool : bool) (var_ : AST) : M AST :=
  let conv_name (prefix : string) :=
    prefix +:+ "_Conv(" +:+ py_str (Z.of_N from_bits) +:+ "->"
    +:+ py_str (Z.of_N to_bits) +:+ ", " +:+ py_str (ast_hash var_) +:+ ")" in
  if (to_bits =? 1)%N && negb nobool then
    set_mapping (conv_name "ailcond") condition ;;;
    retM (BoolS (conv_name "ailcond"))
  else
    set_mapping (conv_name "ailexpr") condition ;;;
    retM (BVS (conv_name "ailexpr") to_bits).

Definition lookup_lambda (opname verbose_op : string) : TableEntry :=
  match assoc_get verbose_op _ail2claripy_op_mapping with
  | Some e => e
  | None =>
      match assoc_get opname _ail2claripy_op_mapping with
      | Some e => e
      | None => DummyBVS
      end
  end.

(** Whether a lambda of the table applies a binary operator of Python
    ([==], [+], [<<], ...) to its operands, rather than calls a function of
    claripy: the names of the operators are those of their methods. *)
Definition is_operator (claripy_name : string) : bool :=
  String.prefix "__" claripy_name.

(** [r], the value of the lambda, as the test [r is NotImplemented] sees
    it ([None] when it holds). A binary operator expression never
    evaluates to [NotImplemented]: Python turns to the other operand and
    then falls back or raises. A call of a function of claripy, and a unary
    operator, can. *)
Definition lambda_result (entry : TableEntry) (r : AST) : option AST :=
  let returned := if decide (r = NotImplemented) then None else Some r in
  match entry with
  | Binary name | Shift name => if is_operator name then Some r else returned
  | _ => returned
  end.

(** What follows the call of the table's lambda: the coercion of a [Bool]
    under [nobool], the symbol that stands in for [NotImplemented], the
    annotation, and the coercion of a one-bit vector under [must_bool]. *)
Definition finish_op (condition : Expr) (tags : Tags)
    (nobool must_bool : bool) (r : option AST) : M AST :=
  r <- match r with
       | Some r =>
           if is_Bool r && nobool then
             let name := "ailexpr_from_bool_" +:+ ast_repr r in
             set_mapping name condition ;;; retM (BVS name 1)
           else retM r
       | None =>
           let name := "ailexpr_" +:+ expr_repr condition in
           set_mapping name condition ;;;
           retM (if (expr_bits condition =? 1)%N && negb nobool
                 then BoolS name
                 else BVS name (expr_bits condition))
       end ;;
  set_annotation r tags ;;;
  if negb (is_Bool r) && (size_of r =? 1)%N && must_bool then
    match r with
    | BVV v _ => retM (if (v =? 0)%Z then claripy_false else claripy_true)
    | BVS n _ =>
        let name := "bool_from_bv1_" +:+ n in
        set_mapping name condition ;;; retM (BoolS name)
    | Node _ (x :: _) =>
        let name := "bool_from_bv1_" +:+ ast_repr x in
        set_mapping name condition ;;; retM (BoolS name)
    | _ => raiseM IndexError
    end
  else retM r.

(** The call [conv(Convert(None, b1, b0, False, operand1), nobool=True)]
    of [_op_with_unified_size] is written with [convert_var], its operand
    being converted by the recursive call. *)
Fixpoint claripy_ast_from_ail_condition (condition : Expr)
    (nobool must_bool : bool) (ins_addr : Z) {struct condition} : M AST :=
  match condition with
  | ClaripyTerm a => retM a
  | VEXCCallExpression _ _ _ _ | BasePointerOffset _ _ _ _ | ITE _ _ _ _ _ =>
      _dummy_bvs condition ""
  | Call _ _ _ tags =>
      _dummy_bvs condition (py_hex0x (tags_get tags "ins_addr" 0))
  | Load _ variable _ bits | Register _ variable _ bits
  | VirtualVariable _ variable _ bits =>
      let name :=
        match variable with
        | Some ident =>
            "ailexpr_" +:+ expr_repr condition +:+ "-" +:+ ident +:+ "-"
            +:+ py_hex ins_addr
        | None =>
            "ailexpr_" +:+ expr_repr condition +:+ "-"
            +:+ str_opt (expr_idx condition) +:+ "-" +:+ py_hex ins_addr
        end in
      set_mapping name condition ;;; retM (BVS name bits)
  | Convert _ from_bits to_bits _ operand =>
      var_ <- claripy_ast_from_ail_condition operand false false ins_addr ;;
      convert_var condition from_bits to_bits nobool var_
  | Const _ value bits =>
      let var :=
        match value with
        | VBool b => BoolV b
        | VInt z => claripy_BVV z bits
        end in
      retM (match var with
            | BVV v 1 => if (v =? 1)%Z then claripy_true else claripy_false
            | _ => var
            end)
  | Tmp _ tmp_idx bits =>
      let name := "ailtmp_" +:+ py_str tmp_idx in
      set_mapping name condition ;;;
      retM (if (bits =? 1)%N then BoolS name else BVS name bits)
  | MultiStatementExpression _ _ bits =>
      let name := "mstmtexpr_" +:+ py_str (expr_hash condition) in
      set_mapping name condition ;;;
      retM (if (bits =? 1)%N then BoolS name else BVS name bits)
  | Op _ opname verbose_op operands _ tags =>
      r <- match lookup_lambda opname verbose_op with
           | Logical name =>
               match operands with
               | [] => raiseM IndexError
               | o0 :: rest =>
                   a <- claripy_ast_from_ail_condition o0 false false ins_addr ;;
                   match rest with
                   | [] => raiseM IndexError
                   | o1 :: _ =>
                       b <- claripy_ast_from_ail_condition o1 false false ins_addr ;;
                       retM (claripy_op name [a; b])
                   end
               end
           | Binary name =>
               match operands with
               | [] => raiseM IndexError
               | o0 :: rest =>
                   a <- claripy_ast_from_ail_condition o0 true false ins_addr ;;
                   match rest with
                   | [] => raiseM IndexError
                   | o1 :: _ =>
                       b <- claripy_ast_from_ail_condition o1 true false ins_addr ;;
                       retM (claripy_op name [a; b])
                   end
               end
           | Unary name =>
               match operands with
               | [o] =>
                   a <- claripy_ast_from_ail_condition o false false ins_addr ;;
                   retM (claripy_op name [a])
               | _ => raiseM AttributeError
               end
           | Shift name =>
               match operands with
               | operand0 :: operand1 :: _ =>
                   match operand1 with
                   | Const _ value _ =>
                       a <- claripy_ast_from_ail_condition operand0 true false ins_addr ;;
                       retM (claripy_op name
                               [a; claripy_BVV (const_value_Z value) (size_of a)])
                   | _ =>
                       if (expr_bits operand1 =? expr_bits operand0)%N then
                         a <- claripy_ast_from_ail_condition operand0 true false ins_addr ;;
                         b <- claripy_ast_from_ail_condition operand1 false false ins_addr ;;
                         retM (claripy_op name [a; b])
                       else if negb (expr_bits operand1 <? expr_bits operand0)%N then
                         raiseM AssertionError
                       else
                         a <- claripy_ast_from_ail_condition operand0 true false ins_addr ;;
                         var_ <- claripy_ast_from_ail_condition operand1 false false ins_addr ;;
                         b <- convert_var
                                (Convert None (expr_bits operand1)
                                   (expr_bits operand0) false operand1)
                                (expr_bits operand1) (expr_bits operand0) true var_ ;;
                         retM (claripy_op name [a; b])
                   end
               | _ => raiseM IndexError
               end
           | ConcatAll =>
               l <- (fix each (l : list Expr) : M (list AST) :=
                       match l with
                       | [] => retM []
                       | o :: r =>
                           a <- claripy_ast_from_ail_condition o false false ins_addr ;;
                           l' <- each r ;;
                           retM (a :: l')
                       end) operands ;;
               retM (claripy_op "Concat" l)
           | DummyBVS => _dummy_bvs condition ""
           | DummyBools => _dummy_bools condition ""
           end ;;
      finish_op condition tags nobool must_bool
        (lambda_result (lookup_lambda opname verbose_op) r)
  end.
End Translation.

(** ** Last statements and edge predicates *)

Fixpoint get_last_statement (block : SNode) : result (option Stmt) :=
  match block with
  | SequenceNode _ nodes =>
      (fix last (l : list SNode) : result (option Stmt) :=
         match l with
         | [] => Raise EmptyBlockNotice
         | [x] => get_last_statement x
         | _ :: r => last r
         end) nodes
  | CodeNode _ n => get_last_statement n
  | AilBlock _ statements =>
      match List.last (map Some statements) None with
      | None => Raise EmptyBlockNotice
      | Some stmt => Ok (Some stmt)
      end
  | AngrBlock _ => Raise NotImplementedError
  | BlockNode _ => Raise NotImplementedError
  | MultiNode _ nodes =>
      (* the nodes are tried from the last one; an empty one is skipped *)
      (fix from_end (l : list SNode) : result (option Stmt) :=
         match l with
         | [] => Raise EmptyBlockNotice
         | x :: r =>
             match from_end r with
             | Raise EmptyBlockNotice => get_last_statement x
             | other => other
             end
         end) nodes
  | LoopNode _ (Some sequence_node) => get_last_statement sequence_node
  | LoopNode _ None => Raise NotImplementedError
  | ConditionalBreakNode _ _ _ => Ok None
  | ConditionNode _ true_node false_node =>
      let s :=
        match true_node with
        | Some t =>
            match get_last_statement t with
            | Raise EmptyBlockNotice => Ok None
            | other => other
            end
        | None => Ok None
        end in
      match s, false_node with
      | Ok None, Some f => get_last_statement f
      | _, _ => s
      end
  | CascadingConditionNode _ condition_and_nodes else_node =>
      match else_node with
      | Some e => get_last_statement e
      | None =>
          (fix from_end (l : list (AST * SNode)) : result (option Stmt) :=
             match l with
             | [] => Ok None
             | (_, n) :: r =>
                 match from_end r with
                 | Ok None => get_last_statement n
                 | other => other
                 end
             end) condition_and_nodes
      end
  | BreakNode _ => Ok None
  | ContinueNode _ => Ok None
  | SwitchCaseNode _ => Ok None
  | IncompleteSwitchCaseNode _ => Ok None
  | GraphRegion _ => Ok None
  end.

(** [src_block.statements[:-1]]. *)
Definition all_but_last {A} (l : list A) : list A := removelast l.

Definition is_ConditionalJump (s : Stmt) : bool :=
  match s with ConditionalJump _ _ _ _ => true | _ => false end.

Section EdgePredicates.
Context `{Claripy} `{Python} `{Ailment}.
Local Open Scope M_scope.

(** The statement that ends [src_block]: the conditional jump among the
    statements but the last of a head-controlled loop block, the last
    statement otherwise. *)
Definition locate_terminator (src_block : SNode) : result (option Stmt) :=
  match src_block with
  | AilBlock _ ((_ :: _) as statements) =>
      if is_head_controlled_loop_block statements then
        match find is_ConditionalJump (all_but_last statements) with
        | Some stmt => Ok (Some stmt)
        | None => Raise AssertionError
        end
      else get_last_statement src_block
  | _ => get_last_statement src_block
  end.

(** The predicate of the edge from [src_block] to the block at [dst_addr].
    For the arm that is not the true target the code returns
    [claripy.Not(bool_var)] as it is: where claripy does not negate
    [bool_var] (a bit-vector, which the translation returns for a register,
    a load or a variable whatever [must_bool] says) the value is
    [NotImplemented]. *)
Definition _extract_predicate (src_block : SNode) (dst_addr : Z)
    (edge_type : string) : M AST :=
  if edge_type =? "exception" then
    c <- next_exc_counter ;;
    claripy_ast_from_ail_condition
      (Op None "CmpEQ" "CmpEQ"
          [Register (Some (0x400000 + c)%Z) None c 64;
           Const None (VInt c) 64] 1 [])
      false false dst_addr
  else
    match src_block with
    | ConditionalBreakNode _ bool_var target =>
        if (target =? dst_addr)%Z then retM bool_var
        else retM (claripy_Not bool_var)
    | GraphRegion _ => retM claripy_true
    | _ =>
        last_stmt <- liftM (locate_terminator src_block) ;;
        match last_stmt with
        | None => retM claripy_true
        | Some (Jump target ins_addr) =>
            match target with
            | Const _ _ _ => retM claripy_true
            | _ =>
                target_ast <-
                  claripy_ast_from_ail_condition target false false ins_addr ;;
                retM (claripy_eq target_ast
                        (claripy_BVV dst_addr (size_of target_ast)))
            end
        | Some (ConditionalJump condition true_target _ ins_addr) =>
            bool_var <-
              claripy_ast_from_ail_condition condition false true ins_addr ;;
            match true_target with
            | Some (Const _ value _) =>
                if (const_value_Z value =? dst_addr)%Z then retM bool_var
                else retM (claripy_Not bool_var)
            | _ => retM (claripy_Not bool_var)
            end
        | Some (OtherStmt _) => retM claripy_true
        end
    end.
End EdgePredicates.

(** ** Graphs *)

(** A [networkx.DiGraph] over node objects: the nodes and the edges in the
    order they were added, each edge with its ["type"] attribute when it has
    one. A node is the identity of an object; [block_of] reads the object. *)
Record DiGraph : Type := {
  g_nodes : list node;
  g_edges : list (node * node * option string)
}.

Definition successors (g : DiGraph) (n : node) : list node :=
  omap (fun '(s, d, _) => if decide (s = n) then Some d else None) (g_edges g).

Definition predecessors (g : DiGraph) (n : node) : list node :=
  omap (fun '(s, d, _) => if decide (d = n) then Some s else None) (g_edges g).

Definition out_degree (g : DiGraph) (n : node) : nat := length (successors g n).
Definition in_degree (g : DiGraph) (n : node) : nat := length (predecessors g n).

(** [edge_data.get("type", "transition")], ["transition"] also when the
    edge has no data. *)
Definition edge_type_of (g : DiGraph) (src dst : node) : string :=
  match find (fun '(s, d, _) => bool_decide (s = src) && bool_decide (d = dst))
             (g_edges g) with
  | Some (_, _, Some t) => t
  | _ => "transition"
  end.

(** [networkx.DiGraph(graph)]: the copy takes the nodes in their order and
    then the edges source by source, each source's in their order, so the
    predecessors of a node come in the order of the nodes. (networkx keeps
    every node once and the ends of every edge among the nodes; the copy
    is that of such a graph.) *)
Definition copy_graph (g : DiGraph) : DiGraph :=
  {| g_nodes := g_nodes g;
     g_edges :=
       flat_map (fun u => filter (fun e => e.1.1 = u) (g_edges g))
                (g_nodes g) |}.

Definition remove_edges_from (g : DiGraph) (es : list (node * node)) : DiGraph :=
  {| g_nodes := g_nodes g;
     g_edges := filter (fun '(s, d, _) => (s, d) ∉ es) (g_edges g) |}.

Record Region : Type := {
  head : node;
  graph : DiGraph;
  graph_with_successors : option DiGraph
}.

(** [graph or region.graph]: a graph without nodes counts as absent. *)
Definition graph_or (g : option DiGraph) (r : Region) : DiGraph :=
  match g with
  | Some g' => match g_nodes g' with [] => graph r | _ => g' end
  | None => graph r
  end.

Definition graph_given (g : option DiGraph) : option DiGraph :=
  match g with
  | Some g' => match g_nodes g' with [] => None | _ => Some g' end
  | None => None
  end.

Section EdgeConditions.
Context `{Claripy} `{Python} `{Ailment}.
Variable block_of : node -> SNode.
Local Open Scope M_scope.

Definition recover_edge_condition (g : DiGraph) (src dst : node) : M AST :=
  fun s =>
    match _extract_predicate (block_of src) (node_addr (block_of dst))
            (edge_type_of g src dst) s with
    | (Raise EmptyBlockNotice, s') => (Ok claripy_true, s')
    | other => other
    end.

(** The dictionary [edge_conditions] is threaded through the loops. *)
Fixpoint edges_from (g : DiGraph) (src : node) (dsts : list node)
    (edge_conditions : gmap (node * node) AST) : M (gmap (node * node) AST) :=
  match dsts with
  | [] => retM edge_conditions
  | dst :: r =>
      predicate <- recover_edge_condition g src dst ;;
      edges_from g src r (<[(src, dst) := predicate]> edge_conditions)
  end.

Fixpoint edges_of (g : DiGraph) (srcs : list node)
    (edge_conditions : gmap (node * node) AST) : M (gmap (node * node) AST) :=
  match srcs with
  | [] => retM edge_conditions
  | src :: r =>
      ec <- edges_from g src (successors g src) edge_conditions ;;
      edges_of g r ec
  end.

Definition recover_edge_conditions (region : Region) (g : option DiGraph)
    : M (gmap (node * node) AST) :=
  let g := graph_or g region in
  edges_of g (g_nodes g) ∅.
End EdgeConditions.

(** ** Reaching and guarding conditions *)

(** The graph utilities the solver consumes: the post-dominator tree, the
    dominance test on it, the topological order, networkx's depth-first
    tree and path test, and the order in which a Python set of nodes is
    iterated, given the order in which the nodes were added. *)
Class GraphUtils : Type := {
  Idoms : Type;
  inverted_idoms : DiGraph -> DiGraph * option Idoms;
  dominates : Idoms -> node -> node -> bool;
  quasi_topological_sort_nodes : DiGraph -> list node;
  dfs_tree : DiGraph -> node -> list node;
  has_path : DiGraph -> node -> node -> bool;
  set_order : list node -> list node
}.

Section CrossingEdges.
Variable g : DiGraph.
Variable starting_nodes : list node.

(** The successors of [src], one pass of the [for] loop. *)
Definition visit_successors (src : node) (traversed : gset node)
    (queue : list node) (edges_to_remove : gset (node * node))
    : list node * gset (node * node) :=
  foldl (fun '(queue, edges_to_remove) succ =>
           if decide (succ ∈ traversed) then
             (queue,
              if (0 <? out_degree g succ)%nat
              then {[ (src, succ) ]} ∪ edges_to_remove
              else edges_to_remove)
           else if decide (succ ∈ starting_nodes) then
             (queue, {[ (src, succ) ]} ∪ edges_to_remove)
           else (queue ++ [succ], edges_to_remove))
        (queue, edges_to_remove) (successors g src).

(** The [while queue] loop; [None] when the steps run out. *)
Fixpoint traverse (steps : nat) (queue : list node) (traversed : gset node)
    (edges_to_remove : gset (node * node))
    : option (gset node * gset (node * node)) :=
  match queue with
  | [] => Some (traversed, edges_to_remove)
  | src :: queue =>
      match steps with
      | O => None
      | S steps =>
          let traversed := {[ src ]} ∪ traversed in
          let '(queue, edges_to_remove) :=
            visit_successors src traversed queue edges_to_remove in
          traverse steps queue traversed edges_to_remove
      end
  end.

(** A bound on the steps of one [while] loop: the weight of a node counts
    the entries the queue can receive on its behalf while the nodes of
    [untraversed] are still to be popped for the first time. *)
Fixpoint weight_in (k : nat) (untraversed : gset node) (v : node) : nat :=
  match k with
  | O => 1
  | S k =>
      S (sum_list
           (map (weight_in k (untraversed ∖ {[ v ]}))
                (filter (fun u => u ∈ untraversed ∖ {[ v ]}) (successors g v))))
  end.

Definition weight (untraversed : gset node) (v : node) : nat :=
  if decide (v ∈ untraversed) then weight_in (size untraversed) untraversed v
  else
    S (sum_list
         (map (weight_in (size untraversed) untraversed)
              (filter (fun u => u ∈ untraversed) (successors g v)))).

Definition all_nodes : gset node :=
  list_to_set (g_nodes g) ∪ list_to_set (starting_nodes)
  ∪ list_to_set (map (fun e => e.1.1) (g_edges g))
  ∪ list_to_set (map (fun e => e.1.2) (g_edges g)).

Definition steps_for (queue : list node) (traversed : gset node) : nat :=
  sum_list (map (weight (all_nodes ∖ traversed)) queue).

(** The [for starting_node in starting_nodes] loop. *)
Fixpoint traverse_all (starts : list node) (traversed : gset node)
    (edges_to_remove : gset (node * node))
    : option (gset node * gset (node * node)) :=
  match starts with
  | [] => Some (traversed, edges_to_remove)
  | starting_node :: r =>
      match traverse (steps_for [starting_node] traversed) [starting_node]
              traversed edges_to_remove with
      | Some (traversed, edges_to_remove) =>
          traverse_all r traversed edges_to_remove
      | None => None
      end
  end.
End CrossingEdges.

Section Reaching.
Context `{Claripy} `{Sympy} `{Python} `{Ailment} `{GraphUtils}.
Variable block_of : node -> SNode.
(** [self.arch.bits]. *)
Variable arch_bits : N.
Local Open Scope M_scope.

Definition addr_of (n : node) : Z := node_addr (block_of n).

(** The loop of [traverse_all] ends within its steps (see
    [traverse_all_terminates]); the graph is returned as it is should it
    not. *)
Definition _remove_crossing_edges_between_cases (g : DiGraph)
    (case_entry_to_switch_head : gmap Z Z) : DiGraph :=
  let starting_nodes :=
    set_order
      (filter (fun n => is_Some (case_entry_to_switch_head !! addr_of n))
              (g_nodes g)) in
  match starting_nodes with
  | [] => g
  | _ =>
      match traverse_all g starting_nodes starting_nodes ∅ ∅ with
      | Some (_, edges_to_remove) =>
          if decide (edges_to_remove = ∅) then g
          else remove_edges_from (copy_graph g) (elements edges_to_remove)
      | None => g
      end
  end.

Definition create_jump_target_var (jumptable_head_addr : Z) : AST :=
  BVS ("jump_table_" +:+ py_hex jumptable_head_addr) arch_bits.

(** [self.jump_table_conds[head].add(cond)]. *)
Definition add_jump_table_cond (head_addr : Z) (cond : AST) : M unit := fun s =>
  (Ok tt,
   {| _condition_mapping := _condition_mapping s;
      _ast2annotations := _ast2annotations s;
      EXC_COUNTER := EXC_COUNTER s;
      jump_table_conds :=
        <[head_addr := set_add cond (default [] (jump_table_conds s !! head_addr))]>
          (jump_table_conds s);
      reaching_conditions := reaching_conditions s;
      guarding_conditions := guarding_conditions s |}).

Definition set_conditions (rc gc : gmap node AST) : M unit := fun s =>
  (Ok tt,
   {| _condition_mapping := _condition_mapping s;
      _ast2annotations := _ast2annotations s;
      EXC_COUNTER := EXC_COUNTER s;
      jump_table_conds := jump_table_conds s;
      reaching_conditions := rc;
      guarding_conditions := gc |}).

(** A dictionary that is absent or empty is false. *)
Definition cases_given (case_entry_to_switch_head : option (gmap Z Z))
    : option (gmap Z Z) :=
  match case_entry_to_switch_head with
  | Some m => if decide (m = ∅) then None else Some m
  | None => None
  end.

Definition switch_head_of (cases : option (gmap Z Z)) (n : node) : option Z :=
  m ← cases; m !! addr_of n.

Definition _strictly_postdominates (inv_idoms : Idoms) (node_a node_b : node)
    : bool :=
  dominates inv_idoms node_a node_b.

(** The [for pred in preds] loop. *)
Definition condition_from_predecessors (g : DiGraph)
    (edge_conditions : gmap (node * node) AST)
    (reaching : gmap node AST) (n : node) : option AST :=
  foldl (fun reaching_condition pred =>
           let pred_condition := default claripy_true (reaching !! pred) in
           let edge_condition :=
             default claripy_true (edge_conditions !! (pred, n)) in
           match reaching_condition with
           | None => Some (claripy_And [pred_condition; edge_condition])
           | Some r =>
               Some (claripy_Or
                       [claripy_And [pred_condition; edge_condition]; r])
           end)
        None (predecessors g n).

(** The body of the loop over [sorted_nodes]. *)
Definition reach_node (g : DiGraph) (the_head : node) (idoms : option Idoms)
    (edge_conditions : gmap (node * node) AST) (cases : option (gmap Z Z))
    (simplify_conditions : bool) (reaching : gmap node AST) (n : node)
    : M (gmap node AST) :=
  match switch_head_of cases n with
  | Some switch_head =>
      let jump_target_var := create_jump_target_var switch_head in
      let cond := claripy_eq jump_target_var (claripy_BVV (addr_of n) arch_bits) in
      add_jump_table_cond switch_head cond ;;;
      retM (<[n := cond]> reaching)
  | None =>
      let '(reaching_condition, reaching) :=
        if decide (n = the_head) then (Some claripy_true, reaching)
        else if match idoms with
                | Some i => _strictly_postdominates i n the_head
                | None => false
                end
        then (None, <[n := claripy_true]> reaching)
        else (condition_from_predecessors g edge_conditions reaching n, reaching) in
      match reaching_condition with
      | Some c =>
          v <- (if simplify_conditions then liftM (simplify_condition c)
                else retM c) ;;
          retM (<[n := v]> reaching)
      | None => retM reaching
      end
  end.

Fixpoint reach_nodes (g : DiGraph) (the_head : node) (idoms : option Idoms)
    (edge_conditions : gmap (node * node) AST) (cases : option (gmap Z Z))
    (simplify_conditions : bool) (sorted_nodes : list node)
    (reaching : gmap node AST) : M (gmap node AST) :=
  match sorted_nodes with
  | [] => retM reaching
  | n :: r =>
      reaching <- reach_node g the_head idoms edge_conditions cases
                    simplify_conditions reaching n ;;
      reach_nodes g the_head idoms edge_conditions cases simplify_conditions
        r reaching
  end.

(** The guarding condition of [the_node], when it has two predecessors
    and some path diverges. *)
Definition guarding_condition_of (g inverted_graph : DiGraph)
    (edge_conditions : gmap (node * node) AST) (the_node : node)
    : option AST :=
  if negb (length (predecessors g the_node) =? 2)%nat then None
  else
    let slice_nodes := dfs_tree inverted_graph the_node in
    let subgraph := filter (fun n => n ∈ slice_nodes) (g_nodes g) in
    let added :=
      flat_map (fun node_ =>
                  if decide (node_ = the_node) then []
                  else filter (fun succ => has_path g succ the_node = false)
                              (successors g node_))
               subgraph in
    let nodes_do_not_reach_the_node := set_order (remove_dups added) in
    let diverging_conditions :=
      flat_map (fun node_ =>
                  omap (fun pred_ =>
                          if decide (pred_ ∈ nodes_do_not_reach_the_node)
                          then None
                          else edge_conditions !! (pred_, node_))
                       (predecessors g node_))
               nodes_do_not_reach_the_node in
    match diverging_conditions with
    | [] => None
    | _ => Some (claripy_Or (map claripy_Not diverging_conditions))
    end.

Definition guarding_conditions_of (g inverted_graph : DiGraph)
    (edge_conditions : gmap (node * node) AST) (sorted_nodes : list node)
    : gmap node AST :=
  foldl (fun guarding the_node =>
           match guarding_condition_of g inverted_graph edge_conditions the_node with
           | Some cond => <[the_node := cond]> guarding
           | None => guarding
           end)
        ∅ sorted_nodes.

(** The graph the solver works on and its head, before the edges between
    cases are removed. *)
Definition select_graph (region : Region) (g : option DiGraph)
    (with_successors : bool) : result (DiGraph * node) :=
  match graph_given g with
  | Some g' =>
      match find (fun n => (in_degree g' n =? 0)%nat) (g_nodes g') with
      | Some h => Ok (g', h)
      | None => Raise StopIteration
      end
  | None =>
      Ok (match with_successors, graph_with_successors region with
          | true, Some gs => gs
          | _, _ => graph region
          end, head region)
  end.

Definition working_graph (region : Region) (g : option DiGraph)
    (with_successors : bool) (case_entry_to_switch_head : option (gmap Z Z))
    : result (DiGraph * node) :=
  '(_g, the_head) ← select_graph region g with_successors;
  Ok (match cases_given case_entry_to_switch_head with
      | Some m => _remove_crossing_edges_between_cases _g m
      | None => _g
      end, the_head).

Definition recover_reaching_conditions (region : Region)
    (g : option DiGraph) (with_successors : bool)
    (case_entry_to_switch_head : option (gmap Z Z))
    (simplify_conditions : bool) : M unit :=
  edge_conditions <- recover_edge_conditions block_of region g ;;
  gh <- liftM (working_graph region g with_successors
                 case_entry_to_switch_head) ;;
  let _g := gh.1 in
  let the_head := gh.2 in
  let inverted_graph := (inverted_idoms _g).1 in
  let idoms := (inverted_idoms _g).2 in
  let sorted_nodes := quasi_topological_sort_nodes _g in
  reaching <- reach_nodes _g the_head idoms edge_conditions
                (cases_given case_entry_to_switch_head)
                simplify_conditions sorted_nodes ∅ ;;
  set_conditions reaching
    (guarding_conditions_of _g inverted_graph edge_conditions sorted_nodes).
End Reaching.

(** ** Code locations *)

Module CodeLocations.

(** [type(self)]: the class of the object. *)
Inductive LocationClass : Type :=
| PlainLocation
| ExternalLocation.

#[global] Instance LocationClass_eq_dec : EqDecision LocationClass.
Proof. solve_decision. Defined.

(** A [CodeLocation]; [sim_procedure] is the identity of the SimProcedure
    class, [info] what the keyword arguments left, [call_string] the slot of
    an [ExternalCodeLocation]. *)
Record CodeLocation : Type := {
  location_class : LocationClass;
  block_addr : option Z;
  stmt_idx : option Z;
  sim_procedure : option nat;
  ins_addr : option Z;
  context : option (list Z);
  block_idx : option Z;
  info : option (list (string * string));
  call_string : list Z
}.

(** [_store_kwargs]: a key given again takes the new value. *)
Fixpoint store_kwarg (k v : string) (d : list (string * string))
    : list (string * string) :=
  match d with
  | [] => [(k, v)]
  | (k', v') :: r =>
      if String.eqb k k' then (k, v) :: r else (k', v') :: store_kwarg k v r
  end.

Definition _store_kwargs (i : option (list (string * string)))
    (kwargs : list (string * string)) : option (list (string * string)) :=
  Some (foldl (fun d kv => store_kwarg kv.1 kv.2 d) (default [] i) kwargs).

(** [CodeLocation(block_addr, stmt_idx, sim_procedure, ins_addr, context,
    block_idx, **kwargs)]. *)
Definition new (the_block_addr the_stmt_idx : option Z)
    (the_sim_procedure : option nat) (the_ins_addr : option Z)
    (the_context : option (list Z)) (the_block_idx : option Z)
    (kwargs : list (string * string)) : CodeLocation :=
  {| location_class := PlainLocation;
     block_addr := the_block_addr;
     stmt_idx := the_stmt_idx;
     sim_procedure := the_sim_procedure;
     ins_addr := the_ins_addr;
     context := the_context;
     block_idx := the_block_idx;
     info := match kwargs with [] => None | _ => _store_kwargs None kwargs end;
     call_string := [] |}.

(** [ExternalCodeLocation(call_string)]: the base constructor is called with
    block address 0 and no statement. *)
Definition new_external (the_call_string : option (list Z)) : CodeLocation :=
  {| location_class := ExternalLocation;
     block_addr := Some 0%Z;
     stmt_idx := None;
     sim_procedure := None;
     ins_addr := None;
     context := None;
     block_idx := None;
     info := None;
     call_string := default [] the_call_string |}.

(** [__eq__]. *)
Definition eq (self other : CodeLocation) : bool :=
  bool_decide (location_class self = location_class other)
  && bool_decide (block_addr self = block_addr other)
  && bool_decide (stmt_idx self = stmt_idx other)
  && bool_decide (sim_procedure self = sim_procedure other)
  && bool_decide (context self = context other)
  && bool_decide (block_idx self = block_idx other)
  && bool_decide (ins_addr self = ins_addr other).

(** The comparison of two fields that differ, [None] first. *)
Definition none_first (a b : option Z) : bool :=
  match a, b with
  | None, Some _ => true
  | Some _, None => false
  | Some x, Some y => (x <? y)%Z
  | None, None => false
  end.

(** [__lt__]. *)
Definition lt (self other : CodeLocation) : bool :=
  if negb (bool_decide (block_addr self = block_addr other)) then
    none_first (block_addr self) (block_addr other)
  else if negb (bool_decide (stmt_idx self = stmt_idx other)) then
    none_first (stmt_idx self) (stmt_idx other)
  else
    match ins_addr self, ins_addr other with
    | Some x, Some y => if negb (x =? y)%Z then (x <? y)%Z else false
    | _, _ => false
    end.

End CodeLocations.

(** ** Further passes of the processor *)

(** What the passes below ask of claripy beyond its constructors:
    [claripy.simplify], [claripy.is_true], and the truth value Python takes
    of [a == b] for two terms that are not the same object ([None] when
    taking it raises). *)
Class ClaripyQueries : Type := {
  claripy_simplify : AST -> AST;
  claripy_is_true : AST -> bool;
  ast_eq_truth : AST -> AST -> option bool
}.

(** How a call may end: it returns, raises an exception of angr's, or
    fails inside claripy. *)
Inductive Outcome (A : Type) : Type :=
| Returns (a : A)
| Raises (e : Exc)
| RaisesInClaripy.
Arguments Returns {A} a.
Arguments Raises {A} e.
Arguments RaisesInClaripy {A}.

#[global] Instance Outcome_ret : MRet Outcome := fun _ a => Returns a.
#[global] Instance Outcome_bind : MBind Outcome := fun _ _ f m =>
  match m with
  | Returns a => f a
  | Raises e => Raises e
  | RaisesInClaripy => RaisesInClaripy
  end.

Section TrivialCases.
Context `{Claripy} `{ClaripyQueries}.

End TrivialCases.

Section OppositeEdges.
Context `{Claripy} `{Python} `{Ailment} `{ClaripyQueries}.
Variable block_of : node -> SNode.
Local Open Scope M_scope.

Definition has_edge (g : DiGraph) (u v : node) : bool :=
  bool_decide (v ∈ successors g u).

Definition have_opposite_edge_conditions (g : DiGraph) (src dst0 dst1 : node)
    : M bool :=
  let fallback : M bool :=
    edge_cond_left <- recover_edge_condition block_of g src dst0 ;;
    edge_cond_right <- recover_edge_condition block_of g src dst1 ;;
    retM (claripy_is_true
            (claripy_eq (claripy_Not edge_cond_left) edge_cond_right)) in
  if bool_decide (src ∈ g_nodes g) && (out_degree g src =? 2)%nat
     && has_edge g src dst0 && has_edge g src dst1
  then
    last_stmt <- liftM (locate_terminator (block_of src)) ;;
    match last_stmt with
    | Some (ConditionalJump _ _ _ _) => retM true
    | _ => fallback
    end
  else fallback.
End OppositeEdges.

Section CommonSubexpressions.
Context `{Claripy} `{ClaripyQueries}.

(** [expr_ctrs[k] += 1] on a dictionary kept in insertion order: a key
    that is the same object is found at once; one that only has the same
    hash is compared with [==]. *)
Fixpoint count_expr (k : AST) (expr_ctrs : list (AST * nat))
    : Outcome (list (AST * nat)) :=
  match expr_ctrs with
  | [] => Returns [(k, 1%nat)]
  | (k', c) :: r =>
      if decide (k' = k) then Returns ((k', S c) :: r)
      else
        let next := r' ← count_expr k r; Returns ((k', c) :: r') in
        if (ast_hash k' =? ast_hash k)%Z then
          match ast_eq_truth k' k with
          | Some true => Returns ((k', S c) :: r)
          | Some false => next
          | None => RaisesInClaripy
          end
        else next
  end.

Fixpoint count_exprs (ks : list AST) (expr_ctrs : list (AST * nat))
    : Outcome (list (AST * nat)) :=
  match ks with
  | [] => Returns expr_ctrs
  | k :: r => d ← count_expr k expr_ctrs; count_exprs r d
  end.

(** The loop [for arg in args] that fills [expr_ctrs]. *)
Fixpoint count_args (arguments : list AST) (expr_ctrs : list (AST * nat))
    : Outcome (list (AST * nat)) :=
  match arguments with
  | [] => Returns expr_ctrs
  | arg :: r =>
      d ← (if op arg =? "And" then count_exprs (args arg) expr_ctrs
           else count_expr arg expr_ctrs);
      count_args r d
  end.

(** [any(expr_ is ex_ for ex_ in coll_)]. *)
Definition _expr_inside_collection (expr_ : AST) (coll_ : list AST) : bool :=
  bool_decide (expr_ ∈ coll_).

(** [arg in common_exprs]: each element is tried for identity, then with
    [==]. *)
Fixpoint py_in (x : AST) (l : list AST) : Outcome bool :=
  match l with
  | [] => Returns false
  | el :: r =>
      if decide (el = x) then Returns true
      else
        match ast_eq_truth el x with
        | Some true => Returns true
        | Some false => py_in x r
        | None => RaisesInClaripy
        end
  end.

(** The loop that builds [new_args]. *)
Fixpoint remaining_args (arguments common_exprs : list AST)
    : Outcome (list AST) :=
  match arguments with
  | [] => Returns []
  | arg :: r =>
      if op arg =? "And" then
        let new_subexprs :=
          List.filter
            (fun subexpr => negb (_expr_inside_collection subexpr common_exprs))
            (args arg) in
        new_args ← remaining_args r common_exprs;
        Returns (claripy_And new_subexprs :: new_args)
      else
        found ← py_in arg common_exprs;
        if found : bool then remaining_args r common_exprs
        else Raises AngrRuntimeError
  end.

(** The disjunction case, on the arguments after the recursive calls. *)
Definition common_of_disjunction (arguments : list AST) : Outcome (option AST) :=
  expr_ctrs ← count_args arguments [];
  let common_exprs :=
    map fst (List.filter (fun '(_, ctr) => (ctr =? length arguments)%nat)
                         expr_ctrs) in
  match common_exprs with
  | [] => Returns (Some (claripy_Or arguments))
  | _ =>
      new_args ← remaining_args arguments common_exprs;
      Returns (Some (claripy_And (common_exprs ++ [claripy_Or new_args])))
  end.

Fixpoint _extract_common_subexpressions (cond : AST) : Outcome (option AST) :=
  match cond with
  | Node o l =>
      let each :=
        fix each (l : list AST) : Outcome (list (option AST)) :=
          match l with
          | [] => Returns []
          | a :: r =>
              x ← _extract_common_subexpressions a;
              xs ← each r;
              Returns (x :: xs)
          end in
      if o =? "And" then
        results ← each l;
        if forallb (fun arg => bool_decide (arg = None)) results
        then Returns None
        else Returns (Some (claripy_And
                              (zip_with (fun arg ori_arg => default ori_arg arg)
                                        results l)))
      else if o =? "Or" then
        results ← each l;
        common_of_disjunction
          (zip_with (fun arg ori_arg => default ori_arg arg) results l)
      else Returns None
  | _ => Returns None
  end.
End CommonSubexpressions.
(** ** A reference instance of the interfaces *)

Module Reference.

(** Terms are built as they are, except that a negation folds a negation
    or a constant below it. *)
Definition op_ (o : string) (l : list AST) : AST :=
  if o =? "Not" then
    match l with
    | [Node o' [x]] => if o' =? "Not" then x else Node o l
    | [BoolV b] => BoolV (negb b)
    | _ => Node o l
    end
  else Node o l.

Fixpoint pure_boolean (a : AST) : bool :=
  match a with
  | BoolV _ | BoolS _ => true
  | Node o l =>
      (((o =? "And") || (o =? "Or"))
       || ((o =? "Not") && (length l =? 1)%nat)
       || ((o =? "__eq__") && (length l =? 2)%nat))
      && forallb pure_boolean l
  | _ => false
  end.

Fixpoint assignments (vars : list string) : list (gset string) :=
  match vars with
  | [] => [∅]
  | v :: r => assignments r ++ map (fun t => {[ v ]} ∪ t) (assignments r)
  end.

Definition bool_env (trues : gset string) : Env :=
  {| env_bool := fun n => bool_decide (n ∈ trues);
     env_bv := fun _ => 0%Z;
     env_atom := fun _ => false;
     env_term := fun _ => 0%Z |}.

(** A truth table for constraints that are purely boolean; anything else
    is answered "may be satisfiable". *)
Definition satisfiable (l : list AST) : bool :=
  if forallb pure_boolean l then
    existsb (fun t => forallb (eval (bool_env t)) l)
            (assignments (elements (⋃ (map variables l))))
  else true.

Fixpoint repr (a : AST) : string :=
  match a with
  | BoolV true => "True"
  | BoolV false => "False"
  | BoolS n => String.append "<Bool " (String.append n ">")
  | BVV v w =>
      String.append "<BV" (String.append (pretty w)
        (String.append " " (String.append (pretty v) ">")))
  | BVS n w =>
      String.append "<BV" (String.append (pretty w)
        (String.append " " (String.append n ">")))
  | Node o l =>
      String.append "<" (String.append o (String.append
        (foldr (fun x s => String.append " " (String.append (repr x) s)) "" l)
        ">"))
  end.

Definition size_ (a : AST) : N :=
  match a with
  | BVV _ w | BVS _ w => w
  | Node _ (BVV _ w :: _) | Node _ (BVS _ w :: _) => w
  | _ => 0%N
  end.

#[export] Instance claripy : Claripy :=
  {| claripy_op := op_;
     solver_satisfiable := satisfiable;
     ast_size := size_;
     ast_hash := fun a => Z.pos (encode (repr a));
     ast_repr := repr |}.

(** A sympy that builds expressions as they are and minimizes nothing. *)
#[export] Instance sympy : Sympy :=
  {| sympy_And := SAnd; sympy_Or := SOr; sympy_Not := SNot;
     simplify_logic := fun e => e |}.

Definition hex_digit (d : N) : string :=
  match d with
  | 0 => "0" | 1 => "1" | 2 => "2" | 3 => "3" | 4 => "4" | 5 => "5"
  | 6 => "6" | 7 => "7" | 8 => "8" | 9 => "9" | 10 => "a"
  | 11 => "b" | 12 => "c" | 13 => "d" | 14 => "e" | _ => "f"
  end%N.

Fixpoint hex_go (fuel : nat) (n : N) (acc : string) : string :=
  match fuel with
  | O => acc
  | S fuel =>
      let acc := String.append (hex_digit (n mod 16)) acc in
      if (n / 16 =? 0)%N then acc else hex_go fuel (n / 16) acc
  end.

Definition hex (z : Z) : string :=
  let digits := hex_go (S (N.to_nat (N.log2 (Z.abs_N z)))) (Z.abs_N z) "" in
  if (z <? 0)%Z then String.append "-" digits else digits.

#[export] Instance python : Python :=
  {| py_str := fun z => pretty z; py_hex := hex; recursion_limit := 1000 |}.

(** The printed form of an expression: its constructor and, for an
    operation, the operation and the printed operands. *)
Fixpoint expr_repr_ (e : Expr) : string :=
  match e with
  | ClaripyTerm a => repr a
  | VEXCCallExpression _ callee _ _ => callee +:+ "(...)"
  | BasePointerOffset _ _ base offset => base +:+ pretty offset
  | ITE _ c f t _ =>
      "((" +:+ expr_repr_ c +:+ ") ? (" +:+ expr_repr_ t +:+ ") : ("
      +:+ expr_repr_ f +:+ "))"
  | Call _ target _ _ => target +:+ "()"
  | Load _ _ addr bits => "Load(addr=" +:+ expr_repr_ addr +:+ ", size=" +:+ pretty bits +:+ ")"
  | Register _ _ reg_offset bits => "reg_" +:+ pretty reg_offset +:+ "<" +:+ pretty bits +:+ ">"
  | VirtualVariable _ _ varid _ => "vvar_" +:+ pretty varid
  | Convert _ from_bits to_bits is_signed operand =>
      "Conv(" +:+ pretty from_bits +:+ "->" +:+ (if is_signed then "s" else "")
      +:+ pretty to_bits +:+ ", " +:+ expr_repr_ operand +:+ ")"
  | Const _ (VBool true) _ => "True"
  | Const _ (VBool false) _ => "False"
  | Const _ (VInt z) bits => hex z +:+ "<" +:+ pretty bits +:+ ">"
  | Tmp _ tmp_idx _ => "t" +:+ pretty tmp_idx
  | MultiStatementExpression _ e _ => "MultiStatementExpression(" +:+ expr_repr_ e +:+ ")"
  | Op _ _ verbose_op operands _ _ =>
      "(" +:+ verbose_op
      +:+ foldr (fun x s => " " +:+ expr_repr_ x +:+ s) "" operands +:+ ")"
  end.

#[export] Instance ailment : Ailment :=
  {| expr_repr := expr_repr_;
     expr_hash := fun e => Z.pos (encode (expr_repr_ e));
     is_head_controlled_loop_block := fun statements =>
       match statements with
       | ConditionalJump _ _ _ _ :: _ :: _ => true
       | _ => false
       end |}.

Definition reverse_graph (g : DiGraph) : DiGraph :=
  {| g_nodes := g_nodes g;
     g_edges := map (fun '(s, d, t) => (d, s, t)) (g_edges g) |}.

Definition grow (g : DiGraph) (avoid : node -> bool) (seen : list node)
    : list node :=
  remove_dups
    (seen ++ filter (fun n => avoid n = false) (flat_map (successors g) seen)).

(** The nodes a path from [start] reaches without entering [avoid]. *)
Definition reachable_from (g : DiGraph) (avoid : node -> bool) (start : node)
    : list node :=
  Nat.iter (S (length (g_edges g))) (grow g avoid)
           (if avoid start then [] else [start]).

Definition path_exists (g : DiGraph) (a b : node) : bool :=
  bool_decide (b ∈ reachable_from g (fun _ => false) a).

Fixpoint kahn (fuel : nat) (g : DiGraph) (done : list node) : list node :=
  match fuel with
  | O => done
  | S fuel =>
      match find (fun n => bool_decide (n ∉ done)
                           && forallb (fun p => bool_decide (p ∈ done))
                                      (predecessors g n))
                 (g_nodes g) with
      | Some n => kahn fuel g (done ++ [n])
      | None => done
      end
  end.

Definition post_dominator_root (g : DiGraph) : DiGraph * option (DiGraph * node) :=
  let inverted_graph := reverse_graph g in
  match filter (fun n => out_degree g n = 0%nat) (g_nodes g) with
  | [] => (inverted_graph, None)
  | [end_node] => (inverted_graph, Some (inverted_graph, end_node))
  | end_nodes =>
      let dummy := S (foldr Nat.max 0%nat (g_nodes g)) in
      let inverted_graph :=
        {| g_nodes := g_nodes inverted_graph ++ [dummy];
           g_edges := g_edges inverted_graph
                      ++ map (fun e => (dummy, e, None)) end_nodes |} in
      (inverted_graph, Some (inverted_graph, dummy))
  end.

(** [a] dominates [b] from the root: [b] is [a], or [b] is reached from the
    root but not when [a] is taken away. *)
Definition dominates_ (idoms : DiGraph * node) (a b : node) : bool :=
  bool_decide (a = b)
  || (bool_decide (b ∈ reachable_from idoms.1 (fun _ => false) idoms.2)
      && bool_decide (b ∉ reachable_from idoms.1 (fun n => bool_decide (n = a)) idoms.2)).

#[export] Instance graph_utils : GraphUtils :=
  {| Idoms := DiGraph * node;
     inverted_idoms := post_dominator_root;
     dominates := dominates_;
     quasi_topological_sort_nodes := fun g => kahn (length (g_nodes g)) g [];
     dfs_tree := fun g n => reachable_from g (fun _ => false) n;
     has_path := path_exists;
     set_order := fun l => l |}.

#[export] Instance claripy_sound : ClaripySound.
Proof.
  split.
  - intros ρ a. unfold claripy_Not. simpl. unfold op_. simpl.
    destruct a as [b|n|v w|n w|o l]; try reflexivity.
    destruct l as [|x [|y r]]; try reflexivity.
    destruct (o =? "Not") eqn:E; [|reflexivity].
    apply String.eqb_eq in E. subst o. simpl.
    destruct (eval ρ x); reflexivity.
  - intros ρ l. reflexivity.
  - intros ρ l. reflexivity.
  - intros ρ n w v w'. reflexivity.
Qed.

End Reference.

(** ** Example regions *)

Module Examples.
Import Reference.

(** [if (reg < 5) goto 0x20 else goto 0x30], both arms meeting at 0x40. *)
Definition branch_condition : Expr :=
  Op None "CmpLT" "CmpLT"
     [Register (Some 1%Z) None 16 32; Const None (VInt 5) 32] 1 [].

Definition branch : Stmt :=
  ConditionalJump branch_condition
    (Some (Const None (VInt 0x20) 64)) (Some (Const None (VInt 0x30) 64)) 0x14.

Definition diamond_blocks (n : node) : SNode :=
  match n with
  | 0%nat => AilBlock 0x10 [branch]
  | 1%nat => AilBlock 0x20 [Jump (Const None (VInt 0x40) 64) 0x24]
  | 2%nat => AilBlock 0x30 [Jump (Const None (VInt 0x40) 64) 0x34]
  | _ => AilBlock 0x40 [OtherStmt "Return"]
  end.

(** A block of a head-controlled loop: the conditional jump comes first and
    the body follows it. *)
Definition loop_head_block : SNode :=
  AilBlock 0x10 [branch; OtherStmt "Store"; OtherStmt "Store"].

(** The blocks of the diamond with the loop head for its first block. *)
Definition loop_blocks (n : node) : SNode :=
  match n with
  | 0%nat => loop_head_block
  | _ => diamond_blocks n
  end.

Definition diamond : DiGraph :=
  {| g_nodes := [0; 1; 2; 3]%nat;
     g_edges := [(0, 1, None); (0, 2, None); (1, 3, None); (2, 3, None)]%nat |}.

Definition diamond_region : Region :=
  {| head := 0%nat; graph := diamond; graph_with_successors := None |}.

(** The branch condition as a claripy term. *)
Definition branch_term : AST :=
  Node "__lt__" [BVS "ailexpr_reg_16<32>-1-14" 32; BVV 5 32].

(** A call whose return edge is paired with an exception edge. *)
Definition landing_blocks (n : node) : SNode :=
  match n with
  | 0%nat => AilBlock 0x10 [OtherStmt "Call"]
  | 1%nat => AilBlock 0x20 [OtherStmt "Return"]
  | _ => AilBlock 0x30 [OtherStmt "Return"]
  end.

Definition landing : DiGraph :=
  {| g_nodes := [0; 1; 2]%nat;
     g_edges := [(0, 1, Some "transition"); (0, 2, Some "exception")]%nat |}.

Definition landing_region : Region :=
  {| head := 0%nat; graph := landing; graph_with_successors := None |}.

(** Two branches and two exits: 0x10 branches to 0x20 or 0x30, 0x20
    branches to 0x40 or 0x50, 0x30 jumps to 0x40. *)
Definition second_condition : Expr :=
  Op None "CmpEQ" "CmpEQ"
     [Register (Some 2%Z) None 24 32; Const None (VInt 0) 32] 1 [].

Definition two_exits_blocks (n : node) : SNode :=
  match n with
  | 0%nat => AilBlock 0x10 [branch]
  | 1%nat =>
      AilBlock 0x20
        [ConditionalJump second_condition (Some (Const None (VInt 0x40) 64))
           (Some (Const None (VInt 0x50) 64)) 0x28]
  | 2%nat => AilBlock 0x30 [Jump (Const None (VInt 0x40) 64) 0x34]
  | 3%nat => AilBlock 0x40 [OtherStmt "Return"]
  | _ => AilBlock 0x50 [OtherStmt "Return"]
  end.

Definition two_exits : DiGraph :=
  {| g_nodes := [0; 1; 2; 3; 4]%nat;
     g_edges := [(0, 1, None); (0, 2, None); (1, 3, None); (2, 3, None);
                 (1, 4, None)]%nat |}.

Definition two_exits_region : Region :=
  {| head := 0%nat; graph := two_exits; graph_with_successors := None |}.

Definition second_term : AST :=
  Node "__eq__" [BVS "ailexpr_reg_24<32>-2-28" 32; BVV 0 32].

(** A block at 0x10 that jumps through a table to 0x20 or 0x30. *)
Definition switch_blocks (n : node) : SNode :=
  match n with
  | 0%nat => AilBlock 0x10 [Jump (Register (Some 3%Z) None 16 64) 0x18]
  | 1%nat => AilBlock 0x20 [OtherStmt "Return"]
  | _ => AilBlock 0x30 [OtherStmt "Return"]
  end.

Definition switch : DiGraph :=
  {| g_nodes := [0; 1; 2]%nat; g_edges := [(0, 1, None); (0, 2, None)]%nat |}.

Definition switch_region : Region :=
  {| head := 0%nat; graph := switch; graph_with_successors := None |}.

Definition switch_cases : gmap Z Z := {[ 0x20%Z := 0x10%Z; 0x30%Z := 0x10%Z ]}.

(** [recover_reaching_conditions] with the reference interfaces on a
    64-bit architecture. *)
Definition solve (blocks : node -> SNode) (region : Region)
    (cases : option (gmap Z Z)) (simplify : bool) : M unit :=
  recover_reaching_conditions blocks 64 region None false cases simplify.
End Examples.

(** * Properties *)

(** ** The simplification passes *)

Section SimplificationFacts.
Context `{Claripy} `{Sympy} `{Python}.

Lemma simplify_condition_calls_gate (cond : AST) (dl vl : nat) :
  (dl < depth cond)%nat \/ (vl < size (variables cond))%nat ->
  simplify_condition_calls cond dl vl = (Ok cond, []).
Proof.
  intros Hgate. unfold simplify_condition_calls.
  assert (Hb : (dl <? depth cond)%nat || (vl <? size (variables cond))%nat = true).
  { apply orb_true_iff. destruct Hgate as [Hd|Hv]; [left|right];
      apply Nat.ltb_lt; assumption. }
  rewrite Hb. reflexivity.
Qed.

Lemma simplify_condition_calls_within (cond : AST) (dl vl : nat) :
  snd (simplify_condition_calls cond dl vl) <> [] ->
  (depth cond <= dl)%nat /\ (size (variables cond) <= vl)%nat.
Proof.
  unfold simplify_condition_calls.
  destruct (dl <? depth cond)%nat eqn:Hd; simpl; [congruence|].
  destruct (vl <? size (variables cond))%nat eqn:Hv; simpl; [congruence|].
  intros _. apply Nat.ltb_ge in Hd, Hv. split; assumption.
Qed.

Lemma set_add_elem (x y : AST) (s : list AST) :
  x ∈ set_add y s -> x = y \/ x ∈ s.
Proof.
  unfold set_add. destruct (decide (y ∈ s)); [auto|].
  rewrite elem_of_app, list_elem_of_singleton. tauto.
Qed.

Lemma all_terms_elem (l acc : list AST) (x : AST) :
  x ∈ foldl (fun s t => set_add t s) acc l -> x ∈ acc \/ x ∈ l.
Proof.
  revert acc. induction l as [|t l IH]; simpl; intros acc Hx; [auto|].
  apply IH in Hx as [Hx|Hx].
  - apply set_add_elem in Hx as [->|Hx]; [right; left|left; assumption].
  - right; right; assumption.
Qed.

Lemma without_negs_elem (all_terms l : list AST)
    (acc : list (AST * AST) * list AST * list AST) (x : AST) :
  x ∈ (foldl (fun '(negations, to_skip, without) term =>
                if decide (term ∈ to_skip) then (negations, to_skip, without)
                else
                  let neg := claripy_Not term in
                  if decide (neg ∈ all_terms)
                  then (negations ++ [(term, neg)], set_add neg to_skip,
                        set_add term without)
                  else (negations, to_skip, set_add term without))
             acc l).2 ->
  x ∈ acc.2 \/ x ∈ l.
Proof.
  revert acc. induction l as [|t l IH]; simpl; intros [[ng sk] wo] Hx; [auto|].
  apply IH in Hx as [Hx|Hx]; [|right; right; assumption].
  destruct (decide (t ∈ sk)); simpl in Hx; [left; assumption|].
  destruct (decide (claripy_Not t ∈ all_terms)); simpl in Hx;
    apply set_add_elem in Hx as [->|Hx]; simpl; auto using list_elem_of_here.
Qed.
End SimplificationFacts.

(** C5. [simplify_condition] returns the identical term, and hands nothing
    to the minimization oracle, whenever the depth of the term exceeds the
    depth limit or the number of its symbols exceeds the variable limit;
    with the default limits this is a depth or a symbol count above 8; a
    term that is handed to the oracle is within both limits. *)
Theorem simplify_condition_size_gated `{Claripy} `{Sympy} `{Python}
    (cond : AST) (depth_limit variables_limit : nat) :
  (depth_limit < depth cond)%nat
  \/ (variables_limit < size (variables cond))%nat ->
  simplify_condition_with cond depth_limit variables_limit = Ok cond
  /\ snd (simplify_condition_calls cond depth_limit variables_limit) = []
  /\ (depth_limit = 8%nat -> variables_limit = 8%nat ->
      simplify_condition cond = Ok cond)
  /\ (forall c dl vl, snd (simplify_condition_calls c dl vl) <> [] ->
      (depth c <= dl)%nat /\ (size (variables c) <= vl)%nat).
Proof.
  intros Hgate. unfold simplify_condition, simplify_condition_with.
  pose proof (simplify_condition_calls_gate cond _ _ Hgate) as E.
  rewrite E. repeat split; try reflexivity.
  - intros -> ->. rewrite E. reflexivity.
  - eapply simplify_condition_calls_within; eassumption.
  - eapply simplify_condition_calls_within; eassumption.
Qed.

(** A term of depth 9: nine negations over a symbol. *)
Definition deep_term : AST :=
  Nat.iter 8 (fun a => Node "Not" [a]) (BoolS "a").

Lemma simplify_condition_size_gated_witness :
  (8 < depth deep_term)%nat
  /\ @simplify_condition Reference.claripy Reference.sympy Reference.python
       deep_term = Ok deep_term.
Proof.
  split; [vm_compute; lia|].
  refine (proj1 (proj2 (proj2
    (@simplify_condition_size_gated Reference.claripy Reference.sympy
       Reference.python deep_term 8 8 _))) eq_refl eq_refl).
  left. vm_compute. lia.
Defined.

(** C7 (the code departs from the claim). On a term of the form [¬(¬A)] the
    folding pass returns [cond.args[0]], which is [¬A] and not [A]: the
    result has the opposite truth value of the input. *)
Theorem fold_double_negations_returns_inner_negation `{Claripy} `{Sympy} `{Python}
    (A : AST) :
  _fold_double_negations (Node "Not" [Node "Not" [A]])
  = Ok (Some (Node "Not" [A]))
  /\ Node "Not" [A] <> A
  /\ forall ρ, eval ρ (Node "Not" [A])
               = negb (eval ρ (Node "Not" [Node "Not" [A]])).
Proof.
  split; [reflexivity|]. split.
  - intros E. apply (f_equal depth) in E. simpl in E. unfold max_list in E.
    simpl in E. lia.
  - intros ρ. simpl. destruct (eval ρ A); reflexivity.
Qed.

(** C9. The redundant-term pass returns [None] for every condition: it
    rewrites nothing. What it reports are terms found in the condition,
    each of which passed the four solver queries. *)
Theorem remove_redundant_terms_only_reports `{Claripy} (cond : AST) :
  fst (_remove_redundant_terms cond) = None
  /\ forall term, term ∈ snd (_remove_redundant_terms cond) ->
       term ∈ _extract_terms cond
       /\ exists neg, term_is_redundant cond term neg = true.
Proof.
  unfold _remove_redundant_terms.
  match goal with
  | |- context [foldl ?f ?a ?l] =>
      pose proof (fun x => without_negs_elem l l a x) as Hsub;
      destruct (foldl f a l) as [[negations to_skip] without]
  end.
  simpl in *. split; [reflexivity|].
  intros term Hin. apply list_elem_of_filter in Hin as [Hred Hin]. split.
  - apply Hsub in Hin as [Hin|Hin]; [inversion Hin|].
    apply all_terms_elem in Hin as [Hin|Hin]; [inversion Hin|assumption].
  - eexists. exact Hred.
Qed.

(** ** Short-circuit un-reversion *)






(** ** What a method reads of the state *)

Section Expr_induction.
Variable P : Expr -> Prop.
Hypothesis HConvert : forall i f t sg o, P o -> P (Convert i f t sg o).
Hypothesis HOp : forall i o v l b t, Forall P l -> P (Op i o v l b t).
Hypothesis HOther : forall e,
  match e with Convert _ _ _ _ _ | Op _ _ _ _ _ _ => True | _ => P e end.

Fixpoint Expr_ind' (e : Expr) : P e :=
  match e with
  | Convert i f t sg o => HConvert i f t sg o (Expr_ind' o)
  | Op i o v l b t =>
      HOp i o v l b t
        ((fix go (l : list Expr) : Forall P l :=
            match l with
            | [] => Forall_nil_2 P
            | x :: r => Forall_cons_2 P x r (Expr_ind' x) (go r)
            end) l)
  | e' => HOther e'
  end.
End Expr_induction.

(** A method respects a relation on states when, from related states, it
    returns the same and leaves related states. *)
Definition respects (R : ProcState -> ProcState -> Prop) {A} (m : M A) : Prop :=
  forall s s', R s s' -> fst (m s) = fst (m s') /\ R (snd (m s)) (snd (m s')).

Section Respects.
Variable R : ProcState -> ProcState -> Prop.

Lemma respects_ret {A} (a : A) : respects R (retM a).
Proof. intros s s' HR. split; [reflexivity|exact HR]. Qed.

Lemma respects_raise {A} (e : Exc) : respects R (@raiseM A e).
Proof. intros s s' HR. split; [reflexivity|exact HR]. Qed.

Lemma respects_lift {A} (r : result A) : respects R (liftM r).
Proof. intros s s' HR. split; [reflexivity|exact HR]. Qed.

Lemma respects_bind {A B} (m : M A) (f : A -> M B) :
  respects R m -> (forall a, respects R (f a)) -> respects R (bindM m f).
Proof.
  intros Hm Hf s s' HR. unfold bindM.
  destruct (Hm s s' HR) as [E HR'].
  destruct (m s) as [[a|e] s1], (m s') as [[a'|e'] s1']; simpl in *;
    try discriminate.
  - injection E as ->. apply Hf, HR'.
  - injection E as ->. split; [reflexivity|assumption].
Qed.

Hypothesis R_mapping : forall n c, respects R (set_mapping n c).
Hypothesis R_annotation : forall r t, respects R (set_annotation r t).

Ltac respect :=
  repeat
    match goal with
    | |- respects _ (retM _) => apply respects_ret
    | |- respects _ (raiseM _) => apply respects_raise
    | |- respects _ (liftM _) => apply respects_lift
    | |- respects _ (set_mapping _ _) => apply R_mapping
    | |- respects _ (set_annotation _ _) => apply R_annotation
    | |- respects _ (bindM _ _) => apply respects_bind; [|intros]
    | |- respects _ (match ?x with _ => _ end) => destruct x
    | |- respects _ (if ?b then _ else _) => destruct b
    | |- respects _ (let _ := _ in _) => progress cbv zeta
    | H : respects _ ?m |- respects _ ?m => exact H
    end.

Context `{Claripy} `{Python} `{Ailment}.

Lemma respects_dummy_bvs c sfx : respects R (_dummy_bvs c sfx).
Proof. unfold _dummy_bvs. respect. Qed.

Lemma respects_dummy_bools c sfx : respects R (_dummy_bools c sfx).
Proof. unfold _dummy_bools. respect. Qed.

Lemma respects_convert_var c f t nb v : respects R (convert_var c f t nb v).
Proof. unfold convert_var. respect. Qed.

Lemma respects_finish_op c tags nb mb r : respects R (finish_op c tags nb mb r).
Proof. unfold finish_op. respect. Qed.

Lemma respects_conv (condition : Expr) :
  forall nobool must_bool ins_addr,
    respects R (claripy_ast_from_ail_condition condition nobool must_bool ins_addr).
Proof.
  revert condition.
  apply (Expr_ind' (fun condition => forall nobool must_bool ins_addr,
    respects R (claripy_ast_from_ail_condition condition nobool must_bool ins_addr))).
  - intros i f t sg o IH nb mb ia. cbn [claripy_ast_from_ail_condition].
    apply respects_bind; [apply IH|intros; apply respects_convert_var].
  - intros i o v l b t IH nb mb ia. cbn [claripy_ast_from_ail_condition].
    apply respects_bind; [|intros; apply respects_finish_op].
    destruct (lookup_lambda o v) as [name|name|name|name| | |].
    + destruct IH as [|o0 rest Ho0 Hrest]; [respect|].
      apply respects_bind; [apply Ho0|intros].
      destruct Hrest as [|o1 rest' Ho1 _]; [respect|].
      apply respects_bind; [apply Ho1|intros; respect].
    + destruct IH as [|o0 rest Ho0 Hrest]; [respect|].
      apply respects_bind; [apply Ho0|intros].
      destruct Hrest as [|o1 rest' Ho1 _]; [respect|].
      apply respects_bind; [apply Ho1|intros; respect].
    + destruct IH as [|o0 rest Ho0 Hrest]; [respect|].
      destruct Hrest; [|respect].
      apply respects_bind; [apply Ho0|intros; respect].
    + destruct IH as [|o0 rest Ho0 Hrest]; [respect|].
      destruct Hrest as [|o1 rest' Ho1 _]; [respect|].
      assert (Hgen :
        respects R
          (if (expr_bits o1 =? expr_bits o0)%N then
             bindM (claripy_ast_from_ail_condition o0 true false ia) (fun a =>
             bindM (claripy_ast_from_ail_condition o1 false false ia) (fun b =>
             retM (claripy_op name [a; b])))
           else if negb (expr_bits o1 <? expr_bits o0)%N then raiseM AssertionError
           else
             bindM (claripy_ast_from_ail_condition o0 true false ia) (fun a =>
             bindM (claripy_ast_from_ail_condition o1 false false ia) (fun var_ =>
             bindM (convert_var
                      (Convert None (expr_bits o1) (expr_bits o0) false o1)
                      (expr_bits o1) (expr_bits o0) true var_) (fun b =>
             retM (claripy_op name [a; b])))))).
      { destruct (expr_bits o1 =? expr_bits o0)%N.
        - apply respects_bind; [apply Ho0|intros].
          apply respects_bind; [apply Ho1|intros; respect].
        - destruct (negb _); [respect|].
          apply respects_bind; [apply Ho0|intros].
          apply respects_bind; [apply Ho1|intros].
          apply respects_bind; [apply respects_convert_var|intros; respect]. }
      destruct o1; try exact Hgen.
      apply respects_bind; [apply Ho0|intros; respect].
    + apply respects_bind; [|intros; respect].
      induction IH as [|x r Hx _ IHr]; [respect|].
      apply respects_bind; [apply Hx|intros].
      apply respects_bind; [apply IHr|intros; respect].
    + apply respects_dummy_bvs.
    + apply respects_dummy_bools.
  - intros e. destruct e; try exact I; intros nb mb ia;
      cbn [claripy_ast_from_ail_condition];
      lazymatch goal with
      | |- respects _ (_dummy_bvs _ _) => apply respects_dummy_bvs
      | _ => respect
      end.
Qed.

Hypothesis R_counter : respects R next_exc_counter.

Lemma respects_extract_predicate src dst_addr ty :
  respects R (_extract_predicate src dst_addr ty).
Proof.
  unfold _extract_predicate.
  destruct (ty =? "exception").
  - apply respects_bind; [apply R_counter|intros; apply respects_conv].
  - assert (Hgen :
      respects R
        (bindM (liftM (locate_terminator src)) (fun last_stmt =>
           match last_stmt with
           | None => retM claripy_true
           | Some (Jump target ins_addr) =>
               match target with
               | Const _ _ _ => retM claripy_true
               | _ =>
                   bindM (claripy_ast_from_ail_condition target false false ins_addr)
                     (fun target_ast =>
                        retM (claripy_eq target_ast
                                (claripy_BVV dst_addr (size_of target_ast))))
               end
           | Some (ConditionalJump condition true_target _ ins_addr) =>
               bindM (claripy_ast_from_ail_condition condition false true ins_addr)
                 (fun bool_var =>
                    match true_target with
                    | Some (Const _ value _) =>
                        if (const_value_Z value =? dst_addr)%Z then retM bool_var
                        else retM (claripy_Not bool_var)
                    | _ => retM (claripy_Not bool_var)
                    end)
           | Some (OtherStmt _) => retM claripy_true
           end))).
    { apply respects_bind; [apply respects_lift|intros [[target ia|c tt ft ia|k]|]];
        try apply respects_ret.
      - destruct target; try apply respects_ret;
          (apply respects_bind; [apply respects_conv|intros; apply respects_ret]).
      - apply respects_bind; [apply respects_conv|intros; respect]. }
    destruct src; try exact Hgen; respect.
Qed.

Section WithBlocks.
Variable block_of : node -> SNode.

Lemma respects_recover_edge_condition g src dst :
  respects R (recover_edge_condition block_of g src dst).
Proof.
  intros s s' HR. unfold recover_edge_condition.
  destruct (respects_extract_predicate (block_of src)
              (node_addr (block_of dst)) (edge_type_of g src dst) s s' HR)
    as [E HR'].
  destruct (_extract_predicate _ _ _ s) as [[a|e] s1],
           (_extract_predicate _ _ _ s') as [[a'|e'] s1'];
    simpl in *; try discriminate.
  - injection E as ->. split; [reflexivity|assumption].
  - injection E as ->. destruct e'; simpl; split; auto.
Qed.

Lemma respects_edges_from g src dsts ec :
  respects R (edges_from block_of g src dsts ec).
Proof.
  revert ec. induction dsts as [|d r IH]; intros ec; simpl.
  - apply respects_ret.
  - apply respects_bind; [apply respects_recover_edge_condition|intros; apply IH].
Qed.

Lemma respects_edges_of g srcs ec :
  respects R (edges_of block_of g srcs ec).
Proof.
  revert ec. induction srcs as [|x r IH]; intros ec; simpl.
  - apply respects_ret.
  - apply respects_bind; [apply respects_edges_from|intros; apply IH].
Qed.

Lemma respects_recover_edge_conditions region g :
  respects R (recover_edge_conditions block_of region g).
Proof. apply respects_edges_of. Qed.
End WithBlocks.
End Respects.

(** Any two states. *)
Definition any_state (s s' : ProcState) : Prop := True.

(** Two states with the same exception counter. *)
Definition same_counter (s s' : ProcState) : Prop :=
  EXC_COUNTER s = EXC_COUNTER s'.

Lemma any_state_mapping n c : respects any_state (set_mapping n c).
Proof. intros s s' _. split; [reflexivity|exact I]. Qed.

Lemma any_state_annotation r t : respects any_state (set_annotation r t).
Proof. intros s s' _. split; [reflexivity|exact I]. Qed.

Lemma same_counter_mapping n c : respects same_counter (set_mapping n c).
Proof. intros s s' E. split; [reflexivity|exact E]. Qed.

Lemma same_counter_annotation r t : respects same_counter (set_annotation r t).
Proof. intros s s' E. split; [reflexivity|exact E]. Qed.

Lemma same_counter_next : respects same_counter next_exc_counter.
Proof.
  intros s s' E. unfold same_counter in *. simpl. rewrite E. split; reflexivity.
Qed.

(** The translation reads nothing of the state: its result is the same in
    any two states. *)
Lemma conv_state_independent `{Claripy} `{Python} `{Ailment}
    (condition : Expr) (nobool must_bool : bool) (ins_addr : Z) (s s' : ProcState) :
  fst (claripy_ast_from_ail_condition condition nobool must_bool ins_addr s)
  = fst (claripy_ast_from_ail_condition condition nobool must_bool ins_addr s').
Proof.
  apply (respects_conv any_state any_state_mapping any_state_annotation
           condition nobool must_bool ins_addr s s' I).
Qed.

(** ** Operators without a translation *)








(** ** Edge predicates of a conditional jump *)

(** A claripy whose [Not] takes booleans only: of any other term it
    returns [NotImplemented]. *)
Definition typed_claripy : Claripy :=
  {| claripy_op := fun o l =>
       match l with
       | [a] =>
           if (o =? "Not") && negb (is_Bool a) then NotImplemented
           else Reference.op_ o l
       | _ => Reference.op_ o l
       end;
     solver_satisfiable := Reference.satisfiable;
     ast_size := Reference.size_;
     ast_hash := fun a => Z.pos (encode (Reference.repr a));
     ast_repr := Reference.repr |}.





(** The negation of a register, as a condition of one bit: the lambda of
    the table returns [NotImplemented] with this claripy, and the
    translation makes a boolean symbol named after the printed expression
    and records the expression under its name. *)
Definition negated_register : Expr :=
  Op None "Not" "Not" [Register (Some 1%Z) None 16 32] 1 [].

Lemma not_implemented_gets_symbol :
  let run :=
    @claripy_ast_from_ail_condition typed_claripy Reference.python
      Reference.ailment negated_register false true 0x14 initial_state in
  fst run = Ok (BoolS "ailexpr_(Not reg_16<32>)")
  /\ _condition_mapping (snd run) !! "ailexpr_(Not reg_16<32>)"
     = Some negated_register.
Proof.
  cbv zeta. split; vm_compute; reflexivity.
Qed.

(** ** The loop over the sorted nodes *)

Section ReachFacts.
Context `{Claripy} `{Sympy} `{Python} `{Ailment} `{GraphUtils}.
Variable block_of : node -> SNode.
Variable arch_bits : N.

(** The condition of a jump-table entry at [a] of the table headed at [h]. *)
Definition jump_table_condition (h a : Z) : AST :=
  claripy_eq (create_jump_target_var arch_bits h) (claripy_BVV a arch_bits).

(** A node of the loop only writes its own entry. *)
Lemma reach_node_other g hd idoms ec cases simp rc n s rc1 s1 (k : node) :
  reach_node block_of arch_bits g hd idoms ec cases simp rc n s = (Ok rc1, s1) ->
  k <> n -> rc1 !! k = rc !! k.
Proof.
  unfold reach_node. intros Hrun Hk.
  destruct (switch_head_of block_of cases n) as [sh|].
  - unfold bindM, add_jump_table_cond, retM in Hrun. injection Hrun as <- _.
    apply lookup_insert_ne. congruence.
  - destruct (decide (n = hd)) as [->|Hn].
    + unfold bindM in Hrun.
      destruct simp; simpl in Hrun.
      * unfold liftM in Hrun. destruct (simplify_condition claripy_true);
          simpl in Hrun; [|discriminate].
        injection Hrun as <- _. apply lookup_insert_ne. congruence.
      * injection Hrun as <- _. apply lookup_insert_ne. congruence.
    + destruct (match idoms with
                | Some i => _strictly_postdominates i n hd
                | None => false
                end).
      * injection Hrun as <- _. apply lookup_insert_ne. congruence.
      * destruct (condition_from_predecessors g ec rc n) as [c|].
        -- unfold bindM in Hrun. destruct simp; simpl in Hrun.
           ++ unfold liftM in Hrun. destruct (simplify_condition c);
                simpl in Hrun; [|discriminate].
              injection Hrun as <- _. apply lookup_insert_ne. congruence.
           ++ injection Hrun as <- _. apply lookup_insert_ne. congruence.
        -- injection Hrun as <- _. reflexivity.
Qed.

Lemma reach_nodes_other g hd idoms ec cases simp l rc s rc' s' (k : node) :
  reach_nodes block_of arch_bits g hd idoms ec cases simp l rc s = (Ok rc', s') ->
  k ∉ l -> rc' !! k = rc !! k.
Proof.
  revert rc s. induction l as [|n l IH]; intros rc s Hrun Hk; simpl in Hrun.
  - injection Hrun as <- _. reflexivity.
  - unfold bindM in Hrun.
    destruct (reach_node block_of arch_bits g hd idoms ec cases simp rc n s) as [[rc1|e] s1] eqn:E;
      [|discriminate].
    apply not_elem_of_cons in Hk as [Hkn Hkl].
    rewrite (IH _ _ Hrun Hkl). eapply reach_node_other; eassumption.
Qed.

(** A node whose entry does not depend on the entries before it has that
    entry at the end of the loop. *)
Lemma reach_nodes_fixed g hd idoms ec cases simp (n : node) (v : AST) :
  (forall rc s rc1 s1,
      reach_node block_of arch_bits g hd idoms ec cases simp rc n s = (Ok rc1, s1) ->
      rc1 !! n = Some v) ->
  forall l rc s rc' s',
    reach_nodes block_of arch_bits g hd idoms ec cases simp l rc s = (Ok rc', s') ->
    n ∈ l \/ rc !! n = Some v -> rc' !! n = Some v.
Proof.
  intros Hfix l. induction l as [|m l IH]; intros rc s rc' s' Hrun Hin;
    simpl in Hrun.
  - injection Hrun as <- _. destruct Hin as [Hin|Hin]; [inversion Hin|exact Hin].
  - unfold bindM in Hrun.
    destruct (reach_node block_of arch_bits g hd idoms ec cases simp rc m s) as [[rc1|e] s1] eqn:E;
      [|discriminate].
    apply (IH _ _ _ _ Hrun).
    destruct (decide (n = m)) as [->|Hnm].
    + right. eapply Hfix; eassumption.
    + destruct Hin as [Hin|Hin].
      * apply elem_of_cons in Hin as [Hin|Hin]; [contradiction|left; exact Hin].
      * right. rewrite (reach_node_other _ _ _ _ _ _ _ _ _ _ _ n E Hnm). exact Hin.
Qed.

Lemma reach_nodes_app g hd idoms ec cases simp l1 l2 rc s :
  reach_nodes block_of arch_bits g hd idoms ec cases simp (l1 ++ l2) rc s
  = bindM (reach_nodes block_of arch_bits g hd idoms ec cases simp l1 rc)
      (fun rc1 => reach_nodes block_of arch_bits g hd idoms ec cases simp l2 rc1) s.
Proof.
  revert rc s. induction l1 as [|n l1 IH]; intros rc s; simpl.
  - reflexivity.
  - unfold bindM in *.
    destruct (reach_node block_of arch_bits g hd idoms ec cases simp rc n s)
      as [[rc1|e] s1]; [apply IH|reflexivity].
Qed.

(** The entry of a jump-table entry. *)
Lemma reach_node_entry g hd idoms ec cases simp rc n s rc1 s1 sh :
  switch_head_of block_of cases n = Some sh ->
  reach_node block_of arch_bits g hd idoms ec cases simp rc n s = (Ok rc1, s1) ->
  rc1 !! n = Some (jump_table_condition sh (addr_of block_of n)).
Proof.
  unfold reach_node. intros -> Hrun.
  unfold bindM, add_jump_table_cond, retM in Hrun. injection Hrun as <- _.
  apply lookup_insert_eq.
Qed.

(** The entry of the head. *)
Lemma reach_node_head g hd idoms ec cases simp rc s rc1 s1 :
  switch_head_of block_of cases hd = None ->
  reach_node block_of arch_bits g hd idoms ec cases simp rc hd s = (Ok rc1, s1) ->
  exists v, rc1 !! hd = Some v
            /\ (if simp then simplify_condition claripy_true = Ok v
                else v = claripy_true).
Proof.
  unfold reach_node. intros -> Hrun.
  rewrite decide_True in Hrun by reflexivity.
  unfold bindM in Hrun. destruct simp; simpl in Hrun.
  - unfold liftM in Hrun. destruct (simplify_condition claripy_true) as [v|e];
      simpl in Hrun; [|discriminate].
    injection Hrun as <- _. exists v. split; [apply lookup_insert_eq|reflexivity].
  - injection Hrun as <- _. exists claripy_true.
    split; [apply lookup_insert_eq|reflexivity].
Qed.

(** The entry of a node that post-dominates the head. *)
Lemma reach_node_postdominator g hd i ec cases simp rc n s rc1 s1 :
  switch_head_of block_of cases n = None -> n <> hd ->
  dominates i n hd = true ->
  reach_node block_of arch_bits g hd (Some i) ec cases simp rc n s = (Ok rc1, s1) ->
  rc1 !! n = Some claripy_true.
Proof.
  unfold reach_node, _strictly_postdominates. intros -> Hn Hdom Hrun.
  rewrite decide_False in Hrun by exact Hn. rewrite Hdom in Hrun.
  injection Hrun as <- _. apply lookup_insert_eq.
Qed.

(** The entry of any other node. *)
Lemma reach_node_from_predecessors g hd idoms ec cases simp rc n s rc1 s1 :
  switch_head_of block_of cases n = None -> n <> hd ->
  match idoms with Some i => dominates i n hd | None => false end = false ->
  reach_node block_of arch_bits g hd idoms ec cases simp rc n s = (Ok rc1, s1) ->
  match condition_from_predecessors g ec rc n with
  | Some c =>
      exists v, rc1 !! n = Some v
                /\ (if simp then simplify_condition c = Ok v else v = c)
  | None => rc1 = rc
  end.
Proof.
  unfold reach_node, _strictly_postdominates. intros -> Hn Hdom Hrun.
  rewrite decide_False in Hrun by exact Hn. rewrite Hdom in Hrun.
  destruct (condition_from_predecessors g ec rc n) as [c|].
  - unfold bindM in Hrun. destruct simp; simpl in Hrun.
    + unfold liftM in Hrun. destruct (simplify_condition c) as [v|e];
        simpl in Hrun; [|discriminate].
      injection Hrun as <- _. exists v. split; [apply lookup_insert_eq|reflexivity].
    + injection Hrun as <- _. exists c. split; [apply lookup_insert_eq|reflexivity].
  - injection Hrun as <- _. reflexivity.
Qed.

(** The formula of a node reads the entries of its predecessors only. *)
Lemma condition_from_predecessors_ext g ec rc rc' n :
  (forall p, p ∈ predecessors g n -> rc !! p = rc' !! p) ->
  condition_from_predecessors g ec rc n = condition_from_predecessors g ec rc' n.
Proof.
  unfold condition_from_predecessors. generalize (@None AST).
  induction (predecessors g n) as [|p l IH]; intros acc Hagree; simpl.
  - reflexivity.
  - rewrite (Hagree p) by apply list_elem_of_here.
    apply IH. intros q Hq. apply Hagree, list_elem_of_further, Hq.
Qed.

Lemma condition_from_predecessors_some g ec rc n :
  predecessors g n <> [] -> is_Some (condition_from_predecessors g ec rc n).
Proof.
  unfold condition_from_predecessors.
  destruct (predecessors g n) as [|p l]; [congruence|intros _]. simpl.
  match goal with |- is_Some (foldl ?f (Some ?a) l) => generalize a end.
  induction l as [|q l IH]; intros a; simpl; [eexists; reflexivity|apply IH].
Qed.

(** The meaning of the formula: the disjunction, over the predecessors, of
    the conjunction of the predecessor's condition and the edge's. *)
Lemma condition_from_predecessors_eval `{!ClaripySound} g ec rc n c ρ :
  condition_from_predecessors g ec rc n = Some c ->
  eval ρ c
  = existsb (fun p => eval ρ (default claripy_true (rc !! p))
                      && eval ρ (default claripy_true (ec !! (p, n))))
            (predecessors g n).
Proof.
  unfold condition_from_predecessors.
  assert (Hgen : forall l acc c,
    foldl (fun reaching_condition pred =>
             let pred_condition := default claripy_true (rc !! pred) in
             let edge_condition := default claripy_true (ec !! (pred, n)) in
             match reaching_condition with
             | None => Some (claripy_And [pred_condition; edge_condition])
             | Some r =>
                 Some (claripy_Or
                         [claripy_And [pred_condition; edge_condition]; r])
             end) acc l = Some c ->
    eval ρ c
    = existsb (fun p => eval ρ (default claripy_true (rc !! p))
                        && eval ρ (default claripy_true (ec !! (p, n)))) l
      || match acc with Some a => eval ρ a | None => false end).
  { induction l as [|p l IH]; intros acc c' Hc; simpl in Hc.
    - subst acc. simpl. reflexivity.
    - rewrite (IH _ _ Hc). simpl. destruct acc as [a|].
      + rewrite eval_claripy_Or. simpl. rewrite eval_claripy_And. simpl.
        rewrite !andb_true_r, !orb_false_r.
        destruct (existsb _ l), (eval ρ a), (eval ρ _), (eval ρ _); reflexivity.
      + rewrite eval_claripy_And. simpl. rewrite !andb_true_r, !orb_false_r.
        destruct (existsb _ l), (eval ρ _), (eval ρ _); reflexivity. }
  intros Hc. rewrite (Hgen _ _ _ Hc). apply orb_false_r.
Qed.

(** What a successful call of [recover_reaching_conditions] went through. *)
Lemma recover_reaching_conditions_inv region g ws cases simp s s' :
  recover_reaching_conditions block_of arch_bits region g ws cases simp s
  = (Ok tt, s') ->
  exists ec s1 _g hd rc s2,
    recover_edge_conditions block_of region g s = (Ok ec, s1)
    /\ working_graph block_of region g ws cases = Ok (_g, hd)
    /\ reach_nodes block_of arch_bits _g hd (inverted_idoms _g).2 ec (cases_given cases) simp
         (quasi_topological_sort_nodes _g) ∅ s1 = (Ok rc, s2)
    /\ reaching_conditions s' = rc
    /\ guarding_conditions s'
       = guarding_conditions_of _g (inverted_idoms _g).1 ec
           (quasi_topological_sort_nodes _g)
    /\ jump_table_conds s' = jump_table_conds s2.
Proof.
  unfold recover_reaching_conditions, bindM. intros Hrun.
  destruct (recover_edge_conditions block_of region g s) as [[ec|e] s1] eqn:Eec;
    [|discriminate].
  unfold liftM in Hrun.
  destruct (working_graph block_of region g ws cases) as [[_g hd]|e] eqn:Ewg;
    [|discriminate].
  simpl in Hrun.
  destruct (reach_nodes block_of arch_bits _g hd _ ec _ simp _ ∅ s1) as [[rc|e] s2] eqn:Ern;
    [|discriminate].
  unfold set_conditions in Hrun. injection Hrun as <-.
  exists ec, s1, _g, hd, rc, s2. repeat split; assumption.
Qed.
End ReachFacts.

(** ** Jump-table entries *)

(** The state with one field kept: a relation for [respects]. *)
Definition keeps {A} (field : ProcState -> A) (a : A) (s s' : ProcState) : Prop :=
  s = s' /\ field s = a.

Lemma edge_conditions_keep_jump_table `{Claripy} `{Python} `{Ailment}
    (block_of : node -> SNode) region g s :
  jump_table_conds (snd (recover_edge_conditions block_of region g s))
  = jump_table_conds s.
Proof.
  assert (Hr : respects (keeps jump_table_conds (jump_table_conds s))
                 (recover_edge_conditions block_of region g)).
  { apply respects_recover_edge_conditions.
    - intros n c s1 s2 [-> E]. repeat split; assumption.
    - intros r t s1 s2 [-> E]. repeat split; assumption.
    - intros s1 s2 [-> E]. repeat split; assumption. }
  destruct (Hr s s (conj eq_refl eq_refl)) as [_ [_ E]]. exact E.
Qed.

Section JumpTables.
Context `{Claripy} `{Sympy} `{Python} `{Ailment} `{GraphUtils}.
Variable block_of : node -> SNode.
Variable arch_bits : N.

(** Every condition recorded for a table is the equality of that table's
    variable with the address of one of its entries. *)
Definition table_conditions_ok (m : gmap Z Z) (jt : gmap Z (list AST)) : Prop :=
  forall hd conds c, jt !! hd = Some conds -> c ∈ conds ->
    exists a, m !! a = Some hd /\ c = jump_table_condition arch_bits hd a.

Lemma reach_node_tables m g hd idoms ec simp rc n s r s1 :
  reach_node block_of arch_bits g hd idoms ec (Some m) simp rc n s = (r, s1) ->
  table_conditions_ok m (jump_table_conds s) ->
  table_conditions_ok m (jump_table_conds s1).
Proof.
  unfold reach_node. intros Hrun Hok.
  destruct (switch_head_of block_of (Some m) n) as [sh|] eqn:Esh.
  - unfold bindM, add_jump_table_cond, retM in Hrun. injection Hrun as _ <-.
    simpl. intros h conds c Hlook Hc.
    destruct (decide (sh = h)) as [->|Hne].
    + rewrite lookup_insert_eq in Hlook. injection Hlook as <-.
      apply set_add_elem in Hc as [->|Hc].
      * exists (addr_of block_of n). split; [exact Esh|reflexivity].
      * destruct (jump_table_conds s !! h) as [old|] eqn:Eold; simpl in Hc.
        -- eapply Hok; eassumption.
        -- inversion Hc.
    + rewrite lookup_insert_ne in Hlook by exact Hne. eapply Hok; eassumption.
  - assert (Hs : s1 = s); [|subst s1; exact Hok].
    destruct (decide (n = hd)).
    + unfold bindM, liftM, retM in Hrun.
      destruct simp; [destruct (simplify_condition claripy_true)|];
        simpl in Hrun; congruence.
    + destruct (match idoms with
                | Some i => _strictly_postdominates i n hd
                | None => false
                end); [unfold retM in Hrun; congruence|].
      destruct (condition_from_predecessors g ec rc n) as [c|];
        [|unfold retM in Hrun; congruence].
      unfold bindM, liftM, retM in Hrun.
      destruct simp; [destruct (simplify_condition c)|];
        simpl in Hrun; congruence.
Qed.

Lemma reach_nodes_tables m g hd idoms ec simp l rc s r s1 :
  reach_nodes block_of arch_bits g hd idoms ec (Some m) simp l rc s = (r, s1) ->
  table_conditions_ok m (jump_table_conds s) ->
  table_conditions_ok m (jump_table_conds s1).
Proof.
  revert rc s. induction l as [|n l IH]; intros rc s Hrun Hok; simpl in Hrun.
  - unfold retM in Hrun. injection Hrun as _ <-. exact Hok.
  - unfold bindM in Hrun.
    destruct (reach_node block_of arch_bits g hd idoms ec (Some m) simp rc n s)
      as [[rc1|e] s2] eqn:E.
    + eapply IH; [exact Hrun|]. eapply reach_node_tables; eassumption.
    + injection Hrun as _ <-. eapply reach_node_tables; eassumption.
Qed.

(** Two equalities of one variable with constants that differ in the
    variable's width cannot hold together. *)
Lemma jump_table_conditions_exclusive `{!ClaripySound} (hd a1 a2 : Z) (ρ : Env) :
  (a1 mod 2 ^ Z.of_N arch_bits <> a2 mod 2 ^ Z.of_N arch_bits)%Z ->
  eval ρ (claripy_And [jump_table_condition arch_bits hd a1;
                       jump_table_condition arch_bits hd a2]) = false.
Proof.
  intros Hne. rewrite eval_claripy_And. simpl.
  unfold jump_table_condition, create_jump_target_var, claripy_BVV.
  rewrite !eval_claripy_eq_bits. simpl. rewrite !Z.mod_mod by lia.
  destruct (Z.eqb_spec (env_bv ρ ("jump_table_" +:+ py_hex hd)
                          mod 2 ^ Z.of_N arch_bits)
                       (a1 mod 2 ^ Z.of_N arch_bits)) as [E1|]; [|reflexivity].
  destruct (Z.eqb_spec (env_bv ρ ("jump_table_" +:+ py_hex hd)
                          mod 2 ^ Z.of_N arch_bits)
                       (a2 mod 2 ^ Z.of_N arch_bits)) as [E2|]; [|reflexivity].
  congruence.
Qed.
End JumpTables.

(** C4. After a call with a (non-empty) case map on a processor whose
    jump-table sets are empty, every visited node that is a jump-table entry
    has as its condition the equality of the table's dispatch variable
    [jump_table_<head>] with the entry's address; every condition recorded
    in a table's set is such an equality for an entry of that table; and two
    of them for addresses that differ (in the width of the architecture)
    are false together in every environment. *)
Theorem jump_table_entries_are_exclusive_equalities
    `{Claripy} `{!ClaripySound} `{Sympy} `{Python} `{Ailment} `{GraphUtils}
    (block_of : node -> SNode) (arch_bits : N) (region : Region)
    (g : option DiGraph) (ws simp : bool) (m : gmap Z Z)
    (s s' : ProcState) (_g : DiGraph) (hd : node) :
  m <> ∅ ->
  jump_table_conds s = ∅ ->
  working_graph block_of region g ws (Some m) = Ok (_g, hd) ->
  recover_reaching_conditions block_of arch_bits region g ws (Some m) simp s
  = (Ok tt, s') ->
  (forall n table, n ∈ quasi_topological_sort_nodes _g ->
      m !! addr_of block_of n = Some table ->
      reaching_conditions s' !! n
      = Some (jump_table_condition arch_bits table (addr_of block_of n)))
  /\ (forall table conds c, jump_table_conds s' !! table = Some conds ->
      c ∈ conds ->
      exists a, m !! a = Some table
                /\ c = jump_table_condition arch_bits table a)
  /\ (forall table a1 a2 ρ,
      (a1 mod 2 ^ Z.of_N arch_bits <> a2 mod 2 ^ Z.of_N arch_bits)%Z ->
      eval ρ (claripy_And [jump_table_condition arch_bits table a1;
                           jump_table_condition arch_bits table a2]) = false).
Proof.
  intros Hm Hempty Hwg Hrun.
  apply recover_reaching_conditions_inv in Hrun
    as (ec & s1 & _g' & hd' & rc & s2 & Hec & Hwg' & Hloop & Hrc & _ & Hjt).
  rewrite Hwg in Hwg'. injection Hwg' as <- <-.
  assert (Hcases : cases_given (Some m) = Some m).
  { unfold cases_given. rewrite decide_False by exact Hm. reflexivity. }
  rewrite Hcases in Hloop.
  split; [|split].
  - intros n table Hn Hentry. rewrite Hrc.
    eapply reach_nodes_fixed; [|exact Hloop|left; exact Hn].
    intros rc0 s0 rc1 s3 Hstep.
    eapply reach_node_entry; [|exact Hstep].
    unfold switch_head_of. simpl. exact Hentry.
  - rewrite Hjt. eapply reach_nodes_tables; [exact Hloop|].
    pose proof (edge_conditions_keep_jump_table block_of region g s) as Hkeep.
    rewrite Hec in Hkeep. simpl in Hkeep. rewrite Hkeep, Hempty.
    intros table conds c Hlook. rewrite lookup_empty in Hlook. discriminate.
  - intros table a1 a2 ρ Hne.
    exact (jump_table_conditions_exclusive arch_bits table a1 a2 ρ Hne).
Qed.

Lemma jump_table_entries_are_exclusive_equalities_witness :
  let s' := snd (Examples.solve Examples.switch_blocks Examples.switch_region
                   (Some Examples.switch_cases) true initial_state) in
  reaching_conditions s' !! 1%nat
  = Some (Node "__eq__" [BVS "jump_table_10" 64; BVV 0x20 64])
  /\ reaching_conditions s' !! 2%nat
     = Some (Node "__eq__" [BVS "jump_table_10" 64; BVV 0x30 64])
  /\ forall ρ,
       eval ρ (Node "And" [Node "__eq__" [BVS "jump_table_10" 64; BVV 0x20 64];
                           Node "__eq__" [BVS "jump_table_10" 64; BVV 0x30 64]])
       = false.
Proof.
  intros s'.
  assert (Hrun : Examples.solve Examples.switch_blocks Examples.switch_region
                   (Some Examples.switch_cases) true initial_state = (Ok tt, s')).
  { subst s'.
    destruct (Examples.solve _ _ _ _ _) as [r s1] eqn:E. simpl.
    assert (Hr : fst (Examples.solve Examples.switch_blocks
                        Examples.switch_region (Some Examples.switch_cases)
                        true initial_state) = Ok tt)
      by (vm_compute; reflexivity).
    rewrite E in Hr. simpl in Hr. subst r. reflexivity. }
  assert (Hne : Examples.switch_cases <> ∅).
  { intros E. apply (f_equal (fun m => m !! 0x20%Z)) in E. vm_compute in E.
    discriminate. }
  destruct (@jump_table_entries_are_exclusive_equalities
              Reference.claripy Reference.claripy_sound Reference.sympy
              Reference.python Reference.ailment Reference.graph_utils
              Examples.switch_blocks 64 Examples.switch_region None false true
              Examples.switch_cases initial_state s' Examples.switch 0%nat
              Hne eq_refl ltac:(vm_compute; reflexivity) Hrun)
    as (Hentries & _ & Hexcl).
  split; [|split].
  - exact (Hentries 1%nat 0x10%Z ltac:(vm_compute; repeat constructor)
             ltac:(vm_compute; reflexivity)).
  - exact (Hentries 2%nat 0x10%Z ltac:(vm_compute; repeat constructor)
             ltac:(vm_compute; reflexivity)).
  - intros ρ. exact (Hexcl 0x10%Z 0x20%Z 0x30%Z ρ ltac:(vm_compute; discriminate)).
Defined.

(** ** The head and the nodes that post-dominate it *)

(** [simplify_condition] on the constant true: the constant is a leaf, it
    becomes one sympy symbol, and comes back when the minimization returns
    that symbol. *)
Lemma simplify_condition_true `{Claripy} `{Sympy} `{Python} :
  recursion_limit <> 0%nat ->
  simplify_logic (SSymbol (py_str (ast_hash claripy_true)))
  = SSymbol (py_str (ast_hash claripy_true)) ->
  simplify_condition claripy_true = Ok claripy_true.
Proof.
  intros Hlimit Hsym.
  unfold simplify_condition, simplify_condition_with, simplify_condition_calls.
  simpl. destruct recursion_limit as [|fuel]; [contradiction|].
  simpl. rewrite Hsym. simpl. rewrite lookup_insert_eq. reflexivity.
Qed.

(** C2 (as amended). After a successful call, a head that is not a
    jump-table entry has the constant true as its condition, and so has
    every visited node that is not a jump-table entry and post-dominates the
    head, whatever the branch conditions are. With simplification on, the
    head's constant goes through [simplify_condition], which returns it when
    the minimization returns a lone symbol as it is. *)
Theorem head_and_postdominators_are_true
    `{Claripy} `{Sympy} `{Python} `{Ailment} `{GraphUtils}
    (block_of : node -> SNode) (arch_bits : N) (region : Region)
    (g : option DiGraph) (ws simp : bool) (cases : option (gmap Z Z))
    (s s' : ProcState) (_g : DiGraph) (hd : node) :
  working_graph block_of region g ws cases = Ok (_g, hd) ->
  recover_reaching_conditions block_of arch_bits region g ws cases simp s
  = (Ok tt, s') ->
  (simp = true ->
   recursion_limit <> 0%nat
   /\ simplify_logic (SSymbol (py_str (ast_hash claripy_true)))
      = SSymbol (py_str (ast_hash claripy_true))) ->
  (hd ∈ quasi_topological_sort_nodes _g ->
   switch_head_of block_of (cases_given cases) hd = None ->
   reaching_conditions s' !! hd = Some claripy_true)
  /\ (forall n i, n ∈ quasi_topological_sort_nodes _g ->
      switch_head_of block_of (cases_given cases) n = None ->
      (inverted_idoms _g).2 = Some i -> dominates i n hd = true ->
      reaching_conditions s' !! n = Some claripy_true).
Proof.
  intros Hwg Hrun Horacle.
  apply recover_reaching_conditions_inv in Hrun
    as (ec & s1 & _g' & hd' & rc & s2 & Hec & Hwg' & Hloop & Hrc & _ & _).
  rewrite Hwg in Hwg'. injection Hwg' as <- <-.
  assert (Hhead : forall rc0 s0 rc1 s3,
    switch_head_of block_of (cases_given cases) hd = None ->
    reach_node block_of arch_bits _g hd (inverted_idoms _g).2 ec
      (cases_given cases) simp rc0 hd s0 = (Ok rc1, s3) ->
    rc1 !! hd = Some claripy_true).
  { intros rc0 s0 rc1 s3 Hnot Hstep.
    destruct (reach_node_head _ _ _ _ _ _ _ _ _ _ _ _ Hnot Hstep) as (v & Hv & Hsimp).
    rewrite Hv. f_equal. destruct simp; [|exact Hsimp].
    destruct (Horacle eq_refl) as [Hlimit Hsym].
    rewrite (simplify_condition_true Hlimit Hsym) in Hsimp. congruence. }
  split.
  - intros Hin Hnot. rewrite Hrc.
    eapply reach_nodes_fixed; [|exact Hloop|left; exact Hin].
    intros rc0 s0 rc1 s3. apply Hhead, Hnot.
  - intros n i Hin Hnot Hidoms Hdom. rewrite Hrc.
    eapply reach_nodes_fixed; [|exact Hloop|left; exact Hin].
    intros rc0 s0 rc1 s3 Hstep.
    destruct (decide (n = hd)) as [->|Hn]; [eapply Hhead; eassumption|].
    rewrite Hidoms in Hstep.
    eapply reach_node_postdominator; eassumption.
Qed.

(** On the diamond, the join node post-dominates the head and its
    condition is the constant true, under a branch condition that is not. *)
Lemma head_and_postdominators_are_true_witness :
  let s' := snd (Examples.solve Examples.diamond_blocks Examples.diamond_region
                   None true initial_state) in
  reaching_conditions s' !! 0%nat = Some (BoolV true)
  /\ reaching_conditions s' !! 3%nat = Some (BoolV true).
Proof.
  intros s'.
  assert (Hrun : Examples.solve Examples.diamond_blocks Examples.diamond_region
                   None true initial_state = (Ok tt, s')).
  { subst s'.
    destruct (Examples.solve _ _ _ _ _) as [r s1] eqn:E. simpl.
    assert (Hr : fst (Examples.solve Examples.diamond_blocks
                        Examples.diamond_region None true initial_state) = Ok tt)
      by (vm_compute; reflexivity).
    rewrite E in Hr. simpl in Hr. subst r. reflexivity. }
  assert (Hwg : @working_graph Reference.graph_utils Examples.diamond_blocks
                  Examples.diamond_region None false None
                = Ok (Examples.diamond, 0%nat))
    by (vm_compute; reflexivity).
  assert (Horacle : true = true ->
            @recursion_limit Reference.python <> 0%nat
            /\ @simplify_logic Reference.sympy
                 (SSymbol (@py_str Reference.python
                             (@ast_hash Reference.claripy claripy_true)))
               = SSymbol (@py_str Reference.python
                            (@ast_hash Reference.claripy claripy_true))).
  { intros _. split; [vm_compute; discriminate|reflexivity]. }
  assert (Hsorted : forall n, (n < 4)%nat ->
            n ∈ @quasi_topological_sort_nodes Reference.graph_utils
                  Examples.diamond).
  { intros n Hn. change (n ∈ [0; 1; 2; 3]%nat).
    do 4 (destruct n as [|n]; [repeat constructor|]). lia. }
  assert (Hidoms : (@inverted_idoms Reference.graph_utils Examples.diamond).2
                   = Some (Reference.reverse_graph Examples.diamond, 3%nat))
    by (vm_compute; reflexivity).
  assert (Hdom : @dominates Reference.graph_utils
                   (Reference.reverse_graph Examples.diamond, 3%nat) 3%nat 0%nat
                 = true)
    by (vm_compute; reflexivity).
  pose proof (@head_and_postdominators_are_true
                Reference.claripy Reference.sympy Reference.python
                Reference.ailment Reference.graph_utils
                Examples.diamond_blocks 64 Examples.diamond_region None false
                true None initial_state s' Examples.diamond 0%nat
                Hwg Hrun Horacle) as [Hhead Hpost].
  split.
  - apply Hhead; [apply Hsorted; lia|reflexivity].
  - eapply Hpost; [apply Hsorted; lia|reflexivity|exact Hidoms|exact Hdom].
Defined.

(** C2 (as stated, refuted). On the diamond whose join node at 0x40 is an
    entry of a jump table, the join node post-dominates the head and is
    given the equality with the table's variable, not the constant true;
    and when the head at 0x10 is an entry, so is the head. *)
Lemma jump_table_entry_overrides_true :
  let cases_join : gmap Z Z := {[ 0x40%Z := 0x8%Z ]} in
  let cases_head : gmap Z Z := {[ 0x10%Z := 0x8%Z ]} in
  let run_join := Examples.solve Examples.diamond_blocks Examples.diamond_region
                    (Some cases_join) true initial_state in
  let run_head := Examples.solve Examples.diamond_blocks Examples.diamond_region
                    (Some cases_head) true initial_state in
  fst run_join = Ok tt
  /\ @working_graph Reference.graph_utils
       Examples.diamond_blocks Examples.diamond_region None false
       (Some cases_join) = Ok (Examples.diamond, 0%nat)
  /\ Reference.dominates_ (Reference.reverse_graph Examples.diamond, 3%nat)
       3%nat 0%nat = true
  /\ reaching_conditions (snd run_join) !! 3%nat
     = Some (Node "__eq__" [BVS "jump_table_8" 64; BVV 0x40 64])
  /\ fst run_head = Ok tt
  /\ reaching_conditions (snd run_head) !! 0%nat
     = Some (Node "__eq__" [BVS "jump_table_8" 64; BVV 0x10 64]).
Proof.
  cbv zeta. repeat split; vm_compute; reflexivity.
Qed.

(** ** The condition of a node from its predecessors *)

(** C1. Take a node that is visited once, after its predecessors, and is
    neither the head, nor a jump-table entry, nor a post-dominator of the
    head. The formula the loop builds for it is, in meaning, the disjunction
    over its predecessors of the conjunction of the predecessor's reaching
    condition (as it stands in the result) and the predicate of the edge
    from it; the node's reaching condition is [simplify_condition] of this
    formula when [simplify_conditions] is set and the formula itself when
    it is not. *)
Theorem reaching_condition_is_disjunction_over_predecessors
    `{Claripy} `{!ClaripySound} `{Sympy} `{Python} `{Ailment} `{GraphUtils}
    (block_of : node -> SNode) (arch_bits : N) (region : Region)
    (g : option DiGraph) (ws simp : bool) (cases : option (gmap Z Z))
    (s s1 s' : ProcState) (ec : gmap (node * node) AST)
    (_g : DiGraph) (hd n : node) (before after : list node) :
  recover_edge_conditions block_of region g s = (Ok ec, s1) ->
  working_graph block_of region g ws cases = Ok (_g, hd) ->
  recover_reaching_conditions block_of arch_bits region g ws cases simp s
  = (Ok tt, s') ->
  quasi_topological_sort_nodes _g = before ++ n :: after ->
  n ∉ after ->
  (forall p, p ∈ predecessors _g n -> p ∉ n :: after) ->
  predecessors _g n <> [] ->
  n <> hd ->
  switch_head_of block_of (cases_given cases) n = None ->
  match (inverted_idoms _g).2 with
  | Some i => dominates i n hd
  | None => false
  end = false ->
  exists formula,
    condition_from_predecessors _g ec (reaching_conditions s') n = Some formula
    /\ (forall ρ,
          eval ρ formula
          = existsb (fun p =>
                       eval ρ (default claripy_true (reaching_conditions s' !! p))
                       && eval ρ (default claripy_true (ec !! (p, n))))
                    (predecessors _g n))
    /\ (if simp
        then exists v, simplify_condition formula = Ok v
                       /\ reaching_conditions s' !! n = Some v
        else reaching_conditions s' !! n = Some formula).
Proof.
  intros Hec Hwg Hrun Hsorted Hafter Hpreds Hnonempty Hhd Hentry Hpostdom.
  apply recover_reaching_conditions_inv in Hrun
    as (ec' & s1' & _g' & hd' & rc & s2 & Hec' & Hwg' & Hloop & Hrc & _ & _).
  rewrite Hec in Hec'. injection Hec' as <- <-.
  rewrite Hwg in Hwg'. injection Hwg' as <- <-.
  rewrite Hsorted, reach_nodes_app in Hloop. unfold bindM in Hloop.
  destruct (reach_nodes block_of arch_bits _g hd _ ec _ simp before ∅ s1)
    as [[rcb|e] sb]; [|discriminate].
  simpl in Hloop. unfold bindM in Hloop.
  destruct (reach_node block_of arch_bits _g hd _ ec _ simp rcb n sb)
    as [[rcn|e] sn] eqn:Estep; [|discriminate].
  pose proof (reach_node_from_predecessors _ _ _ _ _ _ _ _ _ _ _ _ _
                Hentry Hhd Hpostdom Estep) as Hnode.
  assert (Hagree : forall p, p ∈ predecessors _g n -> rc !! p = rcb !! p).
  { intros p Hp. specialize (Hpreds p Hp).
    apply not_elem_of_cons in Hpreds as [Hpn Hpa].
    rewrite (reach_nodes_other _ _ _ _ _ _ _ _ _ _ _ _ _ p Hloop Hpa).
    eapply reach_node_other; eassumption. }
  assert (Hn : rc !! n = rcn !! n)
    by (eapply reach_nodes_other; eassumption).
  rewrite Hrc.
  rewrite (condition_from_predecessors_ext _ _ _ rcb n Hagree).
  destruct (condition_from_predecessors_some _g ec rcb n Hnonempty)
    as [formula Hformula].
  rewrite Hformula in Hnode. exists formula. split; [exact Hformula|split].
  - intros ρ.
    rewrite (condition_from_predecessors_eval _ _ _ _ _ ρ Hformula).
    clear -Hagree. induction (predecessors _g n) as [|p l IH]; [reflexivity|].
    simpl. rewrite (Hagree p) by apply list_elem_of_here. f_equal.
    apply IH. intros q Hq. apply Hagree, list_elem_of_further, Hq.
  - destruct Hnode as (v & Hv & Hsimp). rewrite Hn, Hv.
    destruct simp; [exists v; split; [exact Hsimp|reflexivity]|congruence].
Qed.

(** With two exits, the node at 0x40 has two predecessors and does not
    post-dominate the head. *)
Lemma reaching_condition_is_disjunction_over_predecessors_witness :
  let s' := snd (Examples.solve Examples.two_exits_blocks
                   Examples.two_exits_region None false initial_state) in
  reaching_conditions s' !! 3%nat
  = Some (Node "Or"
            [Node "And"
               [Node "And" [BoolV true; Node "Not" [Examples.branch_term]];
                BoolV true];
             Node "And"
               [Node "And" [BoolV true; Examples.branch_term];
                Examples.second_term]]).
Proof.
  intros s'.
  assert (Hrun : Examples.solve Examples.two_exits_blocks
                   Examples.two_exits_region None false initial_state
                 = (Ok tt, s')).
  { subst s'.
    destruct (Examples.solve _ _ _ _ _) as [r s1] eqn:E. simpl.
    assert (Hr : fst (Examples.solve Examples.two_exits_blocks
                        Examples.two_exits_region None false initial_state)
                 = Ok tt)
      by (vm_compute; reflexivity).
    rewrite E in Hr. simpl in Hr. subst r. reflexivity. }
  pose (run_ec := @recover_edge_conditions Reference.claripy Reference.python
                   Reference.ailment Examples.two_exits_blocks
                   Examples.two_exits_region None initial_state).
  pose (ec := match fst run_ec with Ok e => e | Raise _ => ∅ end).
  assert (Hec : run_ec = (Ok ec, snd run_ec)).
  { assert (Hok : is_Ok (fst run_ec) = true) by (vm_compute; reflexivity).
    subst ec. clear Hrun. clearbody run_ec.
    destruct run_ec as [[e|x] s1]; [reflexivity|discriminate Hok]. }
  assert (Hwg : @working_graph Reference.graph_utils Examples.two_exits_blocks
                  Examples.two_exits_region None false None
                = Ok (Examples.two_exits, 0%nat))
    by (vm_compute; reflexivity).
  destruct (@reaching_condition_is_disjunction_over_predecessors
              Reference.claripy Reference.claripy_sound Reference.sympy
              Reference.python Reference.ailment Reference.graph_utils
              Examples.two_exits_blocks 64 Examples.two_exits_region None
              false false None initial_state (snd run_ec) s' ec
              Examples.two_exits
              0%nat 3%nat [0; 1; 2]%nat [4]%nat)
    as (formula & Hformula & _ & Hstored).
  - exact Hec.
  - exact Hwg.
  - exact Hrun.
  - vm_compute. reflexivity.
  - intros Hin. apply list_elem_of_singleton in Hin. discriminate.
  - intros p Hp.
    change (p ∈ [1; 2]%nat) in Hp.
    intros Hin. apply elem_of_cons in Hin as [->|Hin].
    + apply elem_of_cons in Hp as [Hp|Hp]; [discriminate|].
      apply list_elem_of_singleton in Hp. discriminate.
    + apply list_elem_of_singleton in Hin. subst p.
      apply elem_of_cons in Hp as [Hp|Hp]; [discriminate|].
      apply list_elem_of_singleton in Hp. discriminate.
  - vm_compute. discriminate.
  - discriminate.
  - reflexivity.
  - vm_compute. reflexivity.
  - refine (eq_trans Hstored _). rewrite <- Hformula.
    vm_compute. reflexivity.
Defined.

(** ** Determinism *)

Section SameCounter.
Context `{Claripy} `{Sympy} `{Python} `{Ailment} `{GraphUtils}.
Variable block_of : node -> SNode.
Variable arch_bits : N.

Lemma same_counter_add_jump_table_cond hd c :
  respects same_counter (add_jump_table_cond hd c).
Proof. intros s s' E. split; [reflexivity|exact E]. Qed.

Lemma same_counter_reach_node g hd idoms ec cases simp rc n :
  respects same_counter
    (reach_node block_of arch_bits g hd idoms ec cases simp rc n).
Proof.
  unfold reach_node. destruct (switch_head_of block_of cases n).
  - apply respects_bind; [apply same_counter_add_jump_table_cond|].
    intros; apply respects_ret.
  - destruct (decide (n = hd)).
    + apply respects_bind; [|intros; apply respects_ret].
      destruct simp; [apply respects_lift|apply respects_ret].
    + destruct (match idoms with
                | Some i => _strictly_postdominates i n hd
                | None => false
                end); [apply respects_ret|].
      destruct (condition_from_predecessors g ec rc n); [|apply respects_ret].
      apply respects_bind; [|intros; apply respects_ret].
      destruct simp; [apply respects_lift|apply respects_ret].
Qed.

Lemma same_counter_reach_nodes g hd idoms ec cases simp l rc :
  respects same_counter
    (reach_nodes block_of arch_bits g hd idoms ec cases simp l rc).
Proof.
  revert rc. induction l as [|n l IH]; intros rc; simpl.
  - apply respects_ret.
  - apply respects_bind; [apply same_counter_reach_node|intros; apply IH].
Qed.

Lemma same_counter_recover_edge_conditions region g :
  respects same_counter (recover_edge_conditions block_of region g).
Proof.
  apply respects_recover_edge_conditions.
  - apply same_counter_mapping.
  - apply same_counter_annotation.
  - apply same_counter_next.
Qed.

Lemma same_counter_recover_reaching_conditions region g ws cases simp :
  respects same_counter
    (recover_reaching_conditions block_of arch_bits region g ws cases simp).
Proof.
  unfold recover_reaching_conditions.
  apply respects_bind; [apply same_counter_recover_edge_conditions|intros ec].
  apply respects_bind; [apply respects_lift|intros gh].
  apply respects_bind; [apply same_counter_reach_nodes|intros rc].
  intros s s' E. split; [reflexivity|exact E].
Qed.
End SameCounter.

(** C10 (as amended). The result of [recover_reaching_conditions] depends on
    the processor only through its exception counter: two calls on the same
    region that start with the same [EXC_COUNTER], whatever their
    ConditionMapping and other tables hold, return or raise alike and, when
    they return, leave the same reaching and guarding conditions. *)
Theorem reaching_conditions_determined_by_counter
    `{Claripy} `{Sympy} `{Python} `{Ailment} `{GraphUtils}
    (block_of : node -> SNode) (arch_bits : N) (region : Region)
    (g : option DiGraph) (ws simp : bool) (cases : option (gmap Z Z))
    (s1 s2 : ProcState) :
  EXC_COUNTER s1 = EXC_COUNTER s2 ->
  let run := recover_reaching_conditions block_of arch_bits region g ws cases simp in
  fst (run s1) = fst (run s2)
  /\ (fst (run s1) = Ok tt ->
      reaching_conditions (snd (run s1)) = reaching_conditions (snd (run s2))
      /\ guarding_conditions (snd (run s1)) = guarding_conditions (snd (run s2))).
Proof.
  intros Hcounter run.
  destruct (same_counter_recover_reaching_conditions block_of arch_bits region
              g ws cases simp s1 s2 Hcounter) as [Hfst _].
  fold run in Hfst. split; [exact Hfst|]. intros Hok.
  assert (Hrun1 : run s1 = (Ok tt, snd (run s1)))
    by (destruct (run s1) as [r t]; simpl in *; congruence).
  assert (Hrun2 : run s2 = (Ok tt, snd (run s2)))
    by (rewrite Hok in Hfst; destruct (run s2) as [r t]; simpl in *; congruence).
  apply recover_reaching_conditions_inv in Hrun1
    as (ec1 & t1 & g1 & hd1 & rc1 & u1 & Hec1 & Hwg1 & Hloop1 & Hrc1 & Hgc1 & _).
  apply recover_reaching_conditions_inv in Hrun2
    as (ec2 & t2 & g2 & hd2 & rc2 & u2 & Hec2 & Hwg2 & Hloop2 & Hrc2 & Hgc2 & _).
  rewrite Hwg1 in Hwg2. injection Hwg2 as <- <-.
  destruct (same_counter_recover_edge_conditions block_of region g s1 s2 Hcounter)
    as [Hec Ht].
  rewrite Hec1, Hec2 in Hec, Ht. simpl in Hec, Ht. injection Hec as <-.
  destruct (same_counter_reach_nodes block_of arch_bits g1 hd1
              (inverted_idoms g1).2 ec1 (cases_given cases) simp
              (quasi_topological_sort_nodes g1) ∅ t1 t2 Ht) as [Hrc _].
  rewrite Hloop1, Hloop2 in Hrc. simpl in Hrc. injection Hrc as <-.
  split; congruence.
Qed.

(** A processor that has treated the diamond, and kept its tables, gives
    the region with the exception edge the conditions a new processor
    gives it. *)
Lemma reaching_conditions_determined_by_counter_witness :
  let used := snd (Examples.solve Examples.diamond_blocks
                     Examples.diamond_region None true initial_state) in
  let run := Examples.solve Examples.landing_blocks Examples.landing_region
               None true in
  _condition_mapping used <> ∅
  /\ reaching_conditions (snd (run initial_state))
     = reaching_conditions (snd (run used)).
Proof.
  intros used run. split.
  - intros E.
    apply (f_equal (fun m : gmap string Expr =>
                      match m !! "ailexpr_reg_16<32>-1-14" with
                      | Some _ => true
                      | None => false
                      end)) in E.
    vm_compute in E. discriminate.
  - assert (Hcounter : EXC_COUNTER initial_state = EXC_COUNTER used)
      by (vm_compute; reflexivity).
    assert (Hok : fst (run initial_state) = Ok tt) by (vm_compute; reflexivity).
    exact (proj1 (proj2 (@reaching_conditions_determined_by_counter
                           Reference.claripy Reference.sympy Reference.python
                           Reference.ailment Reference.graph_utils
                           Examples.landing_blocks 64 Examples.landing_region
                           None false true None initial_state used Hcounter)
                    Hok)).
Defined.

Lemma clear_empties_mapping (s : ProcState) : _condition_mapping (clear s) = ∅.
Proof. reflexivity. Qed.

(** C10 (as stated, refuted). The region with an exception edge, solved
    twice by one processor, [clear()] in between so that the second call
    starts from an empty ConditionMapping: the exception counter goes on
    from the first call, and the node behind the exception edge gets
    another condition. *)
Lemma second_call_differs_on_exception_edge :
  let run := Examples.solve Examples.landing_blocks Examples.landing_region
               None true in
  let first := run initial_state in
  let second := run (clear (snd first)) in
  fst first = Ok tt /\ fst second = Ok tt
  /\ _condition_mapping (clear (snd first)) = ∅
  /\ reaching_conditions (snd first) !! 2%nat
     = Some (Node "And"
               [BoolV true;
                Node "__eq__" [BVS "ailexpr_reg_1001<64>-4195305-30" 64;
                               BVV 1001 64]])
  /\ reaching_conditions (snd second) !! 2%nat
     = Some (Node "And"
               [BoolV true;
                Node "__eq__" [BVS "ailexpr_reg_1002<64>-4195306-30" 64;
                               BVV 1002 64]])
  /\ reaching_conditions (snd first) <> reaching_conditions (snd second).
Proof.
  cbv zeta.
  split; [vm_compute; reflexivity|]. split; [vm_compute; reflexivity|].
  split; [apply clear_empties_mapping|].
  split; [vm_compute; reflexivity|]. split; [vm_compute; reflexivity|].
  intros E.
  apply (f_equal (fun m : gmap node AST => m !! 2%nat)) in E.
  vm_compute in E. discriminate.
Qed.

(** ** Code locations: equality and order *)

(** [__eq__] is an equivalence on code locations: every location equals
    itself, the answer is the same in either order, and two locations that
    equal a third equal each other. It holds exactly when the class, the
    block address, the statement index, the SimProcedure, the context, the
    block index and the instruction address agree: [info] and the call
    string take no part. *)
Theorem code_location_eq_is_equivalence (a b c : CodeLocations.CodeLocation) :
  CodeLocations.eq a a = true
  /\ CodeLocations.eq b a = CodeLocations.eq a b
  /\ (CodeLocations.eq a b = true -> CodeLocations.eq b c = true ->
      CodeLocations.eq a c = true)
  /\ (CodeLocations.eq a b = true <->
      CodeLocations.location_class a = CodeLocations.location_class b
      /\ CodeLocations.block_addr a = CodeLocations.block_addr b
      /\ CodeLocations.stmt_idx a = CodeLocations.stmt_idx b
      /\ CodeLocations.sim_procedure a = CodeLocations.sim_procedure b
      /\ CodeLocations.context a = CodeLocations.context b
      /\ CodeLocations.block_idx a = CodeLocations.block_idx b
      /\ CodeLocations.ins_addr a = CodeLocations.ins_addr b).
Proof.
  assert (Hspec : forall x y,
    CodeLocations.eq x y = true <->
    CodeLocations.location_class x = CodeLocations.location_class y
    /\ CodeLocations.block_addr x = CodeLocations.block_addr y
    /\ CodeLocations.stmt_idx x = CodeLocations.stmt_idx y
    /\ CodeLocations.sim_procedure x = CodeLocations.sim_procedure y
    /\ CodeLocations.context x = CodeLocations.context y
    /\ CodeLocations.block_idx x = CodeLocations.block_idx y
    /\ CodeLocations.ins_addr x = CodeLocations.ins_addr y).
  { intros x y. unfold CodeLocations.eq.
    rewrite !andb_true_iff, !bool_decide_eq_true. tauto. }
  split; [|split; [|split]].
  - apply Hspec. repeat split.
  - apply eq_true_iff_eq. rewrite !Hspec.
    split; intros (?&?&?&?&?&?&?); repeat split; congruence.
  - rewrite !Hspec. intros (?&?&?&?&?&?&?) (?&?&?&?&?&?&?).
    repeat split; congruence.
  - apply Hspec.
Qed.

Lemma code_location_eq_is_equivalence_witness :
  CodeLocations.eq (CodeLocations.new (Some 0x400000%Z) (Some 3%Z) None
                      (Some 0x400004%Z) None None [("kind", "call")])
                   (CodeLocations.new (Some 0x400000%Z) (Some 3%Z) None
                      (Some 0x400004%Z) None None [])
  = true.
Proof.
  exact (proj2 (proj2 (proj2 (proj2
    (code_location_eq_is_equivalence
       (CodeLocations.new (Some 0x400000%Z) (Some 3%Z) None
          (Some 0x400004%Z) None None [("kind", "call")])
       (CodeLocations.new (Some 0x400000%Z) (Some 3%Z) None
          (Some 0x400004%Z) None None [])
       (CodeLocations.new (Some 0x400000%Z) (Some 3%Z) None
          (Some 0x400004%Z) None None [])))))
    (conj eq_refl (conj eq_refl (conj eq_refl (conj eq_refl
       (conj eq_refl (conj eq_refl eq_refl))))))).
Defined.

(** The keyword arguments of the constructor are stored and take no part in
    [__eq__]; and an [ExternalCodeLocation] equals any other, whatever their
    call strings, while it equals no plain [CodeLocation]. *)
Theorem code_location_eq_ignores_info_and_call_string
    (block_addr stmt_idx : option Z) (sim_procedure : option nat)
    (ins_addr : option Z) (context : option (list Z)) (block_idx : option Z)
    (kwargs kwargs' : list (string * string))
    (call_string call_string' : option (list Z))
    (other : CodeLocations.CodeLocation) :
  CodeLocations.eq
    (CodeLocations.new block_addr stmt_idx sim_procedure ins_addr context
       block_idx kwargs)
    (CodeLocations.new block_addr stmt_idx sim_procedure ins_addr context
       block_idx kwargs') = true
  /\ CodeLocations.eq (CodeLocations.new_external call_string)
       (CodeLocations.new_external call_string') = true
  /\ CodeLocations.eq (CodeLocations.new_external call_string)
       (CodeLocations.new block_addr stmt_idx sim_procedure ins_addr context
          block_idx kwargs) = false.
Proof.
  unfold CodeLocations.eq. simpl.
  rewrite !bool_decide_eq_true_2 by reflexivity. repeat split.
Qed.

(** [__lt__] reads the block address, the statement index and the
    instruction address only. *)
Definition lt_fields (ba sa ia bb sb ib : option Z) : bool :=
  if negb (bool_decide (ba = bb)) then CodeLocations.none_first ba bb
  else if negb (bool_decide (sa = sb)) then CodeLocations.none_first sa sb
  else
    match ia, ib with
    | Some x, Some y => if negb (x =? y)%Z then (x <? y)%Z else false
    | _, _ => false
    end.

Ltac order_cases :=
  repeat case_bool_decide; simplify_eq/=;
  repeat match goal with
         | x : option Z |- _ => destruct x
         end;
  simplify_eq/=;
  repeat match goal with
         | H : context [(?x =? ?y)%Z] |- _ => destruct (Z.eqb_spec x y)
         | |- context [(?x =? ?y)%Z] => destruct (Z.eqb_spec x y)
         end;
  simplify_eq/=;
  repeat match goal with
         | H : (_ <? _)%Z = true |- _ => apply Z.ltb_lt in H
         | H : (_ <? _)%Z = false |- _ => apply Z.ltb_ge in H
         | |- (_ <? _)%Z = true => apply Z.ltb_lt
         | |- (_ <? _)%Z = false => apply Z.ltb_ge
         end;
  try congruence; try lia.

Lemma lt_fields_transitive ba sa ia bb sb ib bc sc ic :
  lt_fields ba sa ia bb sb ib = true -> lt_fields bb sb ib bc sc ic = true ->
  lt_fields ba sa ia bc sc ic = true.
Proof. unfold lt_fields, CodeLocations.none_first. intros Hab Hbc. order_cases. Qed.

Lemma lt_fields_asymmetric ba sa ia bb sb ib :
  lt_fields ba sa ia bb sb ib = true -> lt_fields bb sb ib ba sa ia = false.
Proof. unfold lt_fields, CodeLocations.none_first. intros Hab. order_cases. Qed.

Lemma lt_fields_differ ba sa ia bb sb ib :
  lt_fields ba sa ia bb sb ib = true -> ba <> bb \/ sa <> sb \/ ia <> ib.
Proof.
  unfold lt_fields, CodeLocations.none_first. intros Hab.
  destruct (decide (ba = bb)) as [->|]; [|left; assumption].
  destruct (decide (sa = sb)) as [->|]; [|right; left; assumption].
  right; right. intros ->. order_cases.
Qed.

(** [__lt__] is a strict partial order: it is transitive, and a location
    below another is not above it, not below itself and not equal to it. *)
Theorem code_location_lt_is_strict_order (a b c : CodeLocations.CodeLocation) :
  CodeLocations.lt a b = true -> CodeLocations.lt b c = true ->
  CodeLocations.lt a c = true
  /\ CodeLocations.lt b a = false
  /\ CodeLocations.lt a a = false
  /\ CodeLocations.eq a b = false.
Proof.
  intros Hab Hbc.
  change (lt_fields (CodeLocations.block_addr a) (CodeLocations.stmt_idx a)
            (CodeLocations.ins_addr a) (CodeLocations.block_addr b)
            (CodeLocations.stmt_idx b) (CodeLocations.ins_addr b) = true) in Hab.
  change (lt_fields (CodeLocations.block_addr b) (CodeLocations.stmt_idx b)
            (CodeLocations.ins_addr b) (CodeLocations.block_addr c)
            (CodeLocations.stmt_idx c) (CodeLocations.ins_addr c) = true) in Hbc.
  split; [exact (lt_fields_transitive _ _ _ _ _ _ _ _ _ Hab Hbc)|].
  split; [exact (lt_fields_asymmetric _ _ _ _ _ _ Hab)|].
  split.
  - destruct (CodeLocations.lt a a) eqn:Haa; [|reflexivity].
    pose proof (lt_fields_asymmetric _ _ _ _ _ _ Haa) as Hcontra.
    change (CodeLocations.lt a a = false) in Hcontra. congruence.
  - unfold CodeLocations.eq.
    destruct (lt_fields_differ _ _ _ _ _ _ Hab) as [Hd|[Hd|Hd]];
      rewrite (bool_decide_eq_false_2 _ Hd); rewrite ?andb_false_r; reflexivity.
Qed.

Lemma code_location_lt_is_strict_order_witness :
  CodeLocations.lt (CodeLocations.new None None (Some 1%nat) None None None [])
                   (CodeLocations.new (Some 0x401000%Z) (Some 2%Z) None None None
                      None []) = true.
Proof.
  exact (proj1 (code_location_lt_is_strict_order
    (CodeLocations.new None None (Some 1%nat) None None None [])
    (CodeLocations.new (Some 0x401000%Z) None None None None None [])
    (CodeLocations.new (Some 0x401000%Z) (Some 2%Z) None None None None [])
    eq_refl eq_refl)).
Defined.

(** ** Last statements *)

(** Of a [SequenceNode] only the last node is looked at: its last statement
    is that of its last node, and so is its failure; without nodes it
    raises [EmptyBlockNotice]. *)
Theorem sequence_node_reads_last_node_only (addr : Z) (nodes : list SNode)
    (x : SNode) :
  get_last_statement (SequenceNode addr (nodes ++ [x])) = get_last_statement x
  /\ get_last_statement (SequenceNode addr []) = Raise EmptyBlockNotice
  /\ get_last_statement (SequenceNode addr (nodes ++ [AilBlock addr []]))
     = Raise EmptyBlockNotice.
Proof.
  assert (Hlast : forall y,
    get_last_statement (SequenceNode addr (nodes ++ [y])) = get_last_statement y).
  { intros y. simpl. induction nodes as [|n l IH]; [reflexivity|].
    simpl. destruct (l ++ [y]) eqn:E; [destruct l; discriminate|exact IH]. }
  split; [apply Hlast|]. split; [reflexivity|]. rewrite Hlast. reflexivity.
Qed.

(** A [MultiNode] is read from its end, skipping the nodes that are empty:
    its last statement is that of its last node unless that node raises
    [EmptyBlockNotice], in which case it is that of the nodes before. *)
Theorem multi_node_skips_empty_nodes (addr : Z) (nodes : list SNode) (x : SNode) :
  get_last_statement (MultiNode addr (nodes ++ [x]))
  = match get_last_statement x with
    | Raise EmptyBlockNotice => get_last_statement (MultiNode addr nodes)
    | other => other
    end
  /\ get_last_statement (MultiNode addr []) = Raise EmptyBlockNotice.
Proof.
  split; [|reflexivity]. simpl.
  induction nodes as [|n l IH]; simpl.
  - destruct (get_last_statement x) as [r|[]]; reflexivity.
  - rewrite IH. destruct (get_last_statement x) as [r|[]]; reflexivity.
Qed.

(** ** Edge predicates and the state *)

Section TransitionEdges.
Variable R : ProcState -> ProcState -> Prop.
Hypothesis R_mapping : forall n c, respects R (set_mapping n c).
Hypothesis R_annotation : forall r t, respects R (set_annotation r t).
Context `{Claripy} `{Python} `{Ailment}.

(** An edge that is not an exception edge leaves the counter alone: the
    predicate respects any relation the two tables respect. *)
Lemma respects_extract_predicate_transition src dst_addr ty :
  ty <> "exception" -> respects R (_extract_predicate src dst_addr ty).
Proof.
  intros Hty. unfold _extract_predicate.
  destruct (ty =? "exception") eqn:E; [apply String.eqb_eq in E; contradiction|].
  assert (Hconv : forall e nb mb ia,
             respects R (claripy_ast_from_ail_condition e nb mb ia))
    by (intros; apply respects_conv; assumption).
  assert (Hgen :
    respects R
      (bindM (liftM (locate_terminator src)) (fun last_stmt =>
         match last_stmt with
         | None => retM claripy_true
         | Some (Jump target ins_addr) =>
             match target with
             | Const _ _ _ => retM claripy_true
             | _ =>
                 bindM (claripy_ast_from_ail_condition target false false ins_addr)
                   (fun target_ast =>
                      retM (claripy_eq target_ast
                              (claripy_BVV dst_addr (size_of target_ast))))
             end
         | Some (ConditionalJump condition true_target _ ins_addr) =>
             bindM (claripy_ast_from_ail_condition condition false true ins_addr)
               (fun bool_var =>
                  match true_target with
                  | Some (Const _ value _) =>
                      if (const_value_Z value =? dst_addr)%Z then retM bool_var
                      else retM (claripy_Not bool_var)
                  | _ => retM (claripy_Not bool_var)
                  end)
         | Some (OtherStmt _) => retM claripy_true
         end))).
  { apply respects_bind; [apply respects_lift|intros [[target ia|c tt ft ia|k]|]];
      try apply respects_ret.
    - destruct target; try apply respects_ret;
        (apply respects_bind; [apply Hconv|intros; apply respects_ret]).
    - apply respects_bind; [apply Hconv|intros].
      destruct tt as [[]|]; try apply respects_ret.
      destruct (const_value_Z value =? dst_addr)%Z; apply respects_ret. }
  destruct src; try exact Hgen.
  destruct (target =? dst_addr)%Z; apply respects_ret.
Qed.
End TransitionEdges.

Section EdgeState.
Context `{Claripy} `{Python} `{Ailment}.

(** The name given to the register of the exception edge numbered [c]. *)
Definition exception_register (c : Z) : Expr :=
  Register (Some (0x400000 + c)%Z) None c 64.

Definition exception_symbol (c dst_addr : Z) : AST :=
  BVS ("ailexpr_" +:+ expr_repr (exception_register c) +:+ "-"
       +:+ py_str (0x400000 + c) +:+ "-" +:+ py_hex dst_addr) 64.

(** What the predicate of an exception edge returns and leaves. *)
Lemma exception_edge_run (src : SNode) (dst_addr : Z) (s : ProcState) :
  fst (_extract_predicate src dst_addr "exception" s)
  = Ok (claripy_eq (exception_symbol (EXC_COUNTER s + 1) dst_addr)
          (claripy_BVV (EXC_COUNTER s + 1) 64))
  /\ EXC_COUNTER (snd (_extract_predicate src dst_addr "exception" s))
     = (EXC_COUNTER s + 1)%Z
  /\ _condition_mapping (snd (_extract_predicate src dst_addr "exception" s))
       !! ("ailexpr_" +:+ expr_repr (exception_register (EXC_COUNTER s + 1))
           +:+ "-" +:+ py_str (0x400000 + (EXC_COUNTER s + 1)) +:+ "-"
           +:+ py_hex dst_addr)
     = Some (exception_register (EXC_COUNTER s + 1)).
Proof.
  unfold _extract_predicate. simpl.
  unfold bindM, next_exc_counter. simpl.
  unfold finish_op, bindM, set_annotation, retM. simpl.
  rewrite andb_false_r. simpl. rewrite andb_false_r. simpl.
  repeat split. apply lookup_insert_eq.
Qed.

(** The predicate of an exception edge does not look at the source block
    and does not raise: it advances the exception counter by one and is the
    equality of a register symbol numbered by the new counter with the
    counter itself; the register is recorded under the symbol's name. *)
Theorem exception_edge_predicate (src : SNode) (dst_addr : Z) (s : ProcState) :
  let c := (EXC_COUNTER s + 1)%Z in
  let run := _extract_predicate src dst_addr "exception" s in
  fst run = Ok (claripy_eq (exception_symbol c dst_addr) (claripy_BVV c 64))
  /\ EXC_COUNTER (snd run) = c
  /\ _condition_mapping (snd run)
       !! ("ailexpr_" +:+ expr_repr (exception_register c) +:+ "-"
           +:+ py_str (0x400000 + c) +:+ "-" +:+ py_hex dst_addr)
     = Some (exception_register c).
Proof.
  intros c run. subst c run.
  destruct (exception_edge_run src dst_addr s) as (Hresult & Hcounter & Hname).
  split; [exact Hresult|]. split; [exact Hcounter|exact Hname].
Qed.

(** Whatever the edge, the predicate leaves the jump-table sets and the
    reaching and guarding conditions as they are, and every name recorded
    in the ConditionMapping stays recorded. *)
Lemma extract_predicate_keeps {A} (field : ProcState -> A) src dst_addr ty s :
  (forall n c t, field (snd (set_mapping n c t)) = field t) ->
  (forall r tg t, field (snd (set_annotation r tg t)) = field t) ->
  (forall t, field (snd (next_exc_counter t)) = field t) ->
  field (snd (_extract_predicate src dst_addr ty s)) = field s.
Proof.
  intros Hm Ha Hc.
  assert (Hr : respects (keeps field (field s)) (_extract_predicate src dst_addr ty)).
  { apply respects_extract_predicate.
    - intros n c s1 s2 [-> E]. repeat split. rewrite Hm. exact E.
    - intros r t s1 s2 [-> E]. repeat split. rewrite Ha. exact E.
    - intros s1 s2 [-> E]. repeat split. rewrite Hc. exact E. }
  destruct (Hr s s (conj eq_refl eq_refl)) as [_ [_ E]]. exact E.
Qed.
End EdgeState.

(** The exception edges among the edges [recover_edge_conditions] treats. *)
Definition exception_edges_from (g : DiGraph) (src : node) (dsts : list node)
    : nat :=
  length (filter (fun dst => edge_type_of g src dst = "exception") dsts).

Definition exception_edges (g : DiGraph) : nat :=
  sum_list (map (fun src => exception_edges_from g src (successors g src))
                (g_nodes g)).

Section EdgeConditionsState.
Context `{Claripy} `{Python} `{Ailment}.
Variable block_of : node -> SNode.

Lemma recover_edge_condition_counter g src dst s :
  EXC_COUNTER (snd (recover_edge_condition block_of g src dst s))
  = (EXC_COUNTER s
     + if decide (edge_type_of g src dst = "exception") then 1 else 0)%Z.
Proof.
  assert (Hin : EXC_COUNTER
                  (snd (_extract_predicate (block_of src)
                          (node_addr (block_of dst)) (edge_type_of g src dst) s))
                = (EXC_COUNTER s
                   + if decide (edge_type_of g src dst = "exception")
                     then 1 else 0)%Z).
  { destruct (decide (edge_type_of g src dst = "exception")) as [E|E].
    - rewrite E.
      exact (proj1 (proj2 (exception_edge_run (block_of src)
                             (node_addr (block_of dst)) s))).
    - rewrite Z.add_0_r.
      assert (Hr : respects (keeps EXC_COUNTER (EXC_COUNTER s))
                     (_extract_predicate (block_of src)
                        (node_addr (block_of dst)) (edge_type_of g src dst))).
      { apply respects_extract_predicate_transition; [| |exact E].
        - intros n c s1 s2 [-> Hk]. repeat split; assumption.
        - intros r t s1 s2 [-> Hk]. repeat split; assumption. }
      destruct (Hr s s (conj eq_refl eq_refl)) as [_ [_ Hk]]. exact Hk. }
  unfold recover_edge_condition.
  destruct (_extract_predicate _ _ _ s) as [[a|[]] s1]; exact Hin.
Qed.

Lemma edges_from_counter g src dsts ec s ec' s' :
  edges_from block_of g src dsts ec s = (Ok ec', s') ->
  EXC_COUNTER s' = (EXC_COUNTER s + Z.of_nat (exception_edges_from g src dsts))%Z.
Proof.
  revert ec s. induction dsts as [|d l IH]; intros ec s Hrun; simpl in Hrun.
  - injection Hrun as _ <-. unfold exception_edges_from. simpl. lia.
  - unfold bindM in Hrun.
    pose proof (recover_edge_condition_counter g src d s) as Hstep.
    destruct (recover_edge_condition block_of g src d s) as [[p|e] s1];
      [|discriminate].
    simpl in Hstep. rewrite (IH _ _ Hrun), Hstep.
    unfold exception_edges_from. rewrite filter_cons.
    destruct (decide (edge_type_of g src d = "exception")); simpl; lia.
Qed.

Lemma edges_of_counter g srcs ec s ec' s' :
  edges_of block_of g srcs ec s = (Ok ec', s') ->
  EXC_COUNTER s'
  = (EXC_COUNTER s
     + Z.of_nat (sum_list (map (fun src =>
                                  exception_edges_from g src (successors g src))
                               srcs)))%Z.
Proof.
  revert ec s. induction srcs as [|x l IH]; intros ec s Hrun; simpl in Hrun.
  - injection Hrun as _ <-. simpl. lia.
  - unfold bindM in Hrun.
    destruct (edges_from block_of g x (successors g x) ec s) as [[ec1|e] s1] eqn:E;
      [|discriminate].
    rewrite (IH _ _ Hrun), (edges_from_counter _ _ _ _ _ _ _ E). simpl. lia.
Qed.
End EdgeConditionsState.

(** When [recover_edge_conditions] returns, the exception counter has
    advanced by the number of exception edges of the graph, one for each. *)
Theorem edge_conditions_count_exception_edges `{Claripy} `{Python} `{Ailment}
    (block_of : node -> SNode) (region : Region) (g : option DiGraph)
    (s s' : ProcState) (ec : gmap (node * node) AST) :
  recover_edge_conditions block_of region g s = (Ok ec, s') ->
  EXC_COUNTER s'
  = (EXC_COUNTER s + Z.of_nat (exception_edges (graph_or g region)))%Z.
Proof. intros Hrun. exact (edges_of_counter block_of _ _ _ _ _ _ Hrun). Qed.

Lemma edge_conditions_count_exception_edges_witness :
  EXC_COUNTER
    (snd (@recover_edge_conditions Reference.claripy Reference.python
            Reference.ailment Examples.landing_blocks Examples.landing_region
            None initial_state))
  = 1001%Z.
Proof.
  pose (run := @recover_edge_conditions Reference.claripy Reference.python
                 Reference.ailment Examples.landing_blocks
                 Examples.landing_region None initial_state).
  assert (Hok : is_Ok (fst run) = true) by (vm_compute; reflexivity).
  assert (Hrun : run = (Ok (match fst run with Ok e => e | Raise _ => ∅ end),
                        snd run)).
  { clearbody run. destruct run as [[e|x] t]; [reflexivity|discriminate Hok]. }
  exact (@edge_conditions_count_exception_edges Reference.claripy
           Reference.python Reference.ailment Examples.landing_blocks
           Examples.landing_region None initial_state (snd run) _ Hrun).
Defined.

(** Recovering the edge conditions never raises [EmptyBlockNotice], leaves
    the jump-table sets and the reaching and guarding conditions of the
    processor as they are, and removes no name from the ConditionMapping. *)
Theorem edge_conditions_only_add `{Claripy} `{Python} `{Ailment}
    (block_of : node -> SNode) (region : Region) (g : option DiGraph)
    (gr : DiGraph) (src dst : node) (s : ProcState) :
  let s' := snd (recover_edge_conditions block_of region g s) in
  fst (recover_edge_condition block_of gr src dst s) <> Raise EmptyBlockNotice
  /\ jump_table_conds s' = jump_table_conds s
  /\ reaching_conditions s' = reaching_conditions s
  /\ guarding_conditions s' = guarding_conditions s
  /\ forall name, is_Some (_condition_mapping s !! name) ->
                  is_Some (_condition_mapping s' !! name).
Proof.
  intros s'. split.
  { unfold recover_edge_condition.
    destruct (_extract_predicate _ _ _ s) as [[a|[]] s1]; simpl; discriminate. }
  assert (Hkeep : forall {A} (field : ProcState -> A),
    (forall n c t, field (snd (set_mapping n c t)) = field t) ->
    (forall r tg t, field (snd (set_annotation r tg t)) = field t) ->
    (forall t, field (snd (next_exc_counter t)) = field t) ->
    field s' = field s).
  { intros A field Hm Ha Hc.
    assert (Hr : respects (keeps field (field s))
                   (recover_edge_conditions block_of region g)).
    { apply respects_recover_edge_conditions.
      - intros n c s1 s2 [-> E]. repeat split. rewrite Hm. exact E.
      - intros r t s1 s2 [-> E]. repeat split. rewrite Ha. exact E.
      - intros s1 s2 [-> E]. repeat split. rewrite Hc. exact E. }
    destruct (Hr s s (conj eq_refl eq_refl)) as [_ [_ E]]. exact E. }
  split; [apply Hkeep; reflexivity|].
  split; [apply Hkeep; reflexivity|].
  split; [apply Hkeep; reflexivity|].
  intros name Hname.
  assert (Hr : respects (fun s1 s2 => s1 = s2
                                      /\ is_Some (_condition_mapping s1 !! name))
                 (recover_edge_conditions block_of region g)).
  { apply respects_recover_edge_conditions.
    - intros n c s1 s2 [-> E]. repeat split. simpl.
      apply lookup_insert_is_Some'. right. exact E.
    - intros r t s1 s2 [-> E]. repeat split. exact E.
    - intros s1 s2 [-> E]. repeat split. exact E. }
  destruct (Hr s s (conj eq_refl Hname)) as [_ [_ E]]. exact E.
Qed.

(** The symbol of a [Convert] is named after the two widths and the hash of
    the operand's translation only: the index of the expression, its
    signedness, [must_bool] and the state do not enter the result. *)
Theorem convert_symbol_ignores_signedness `{Claripy} `{Python} `{Ailment}
    (idx idx' : option Z) (from_bits to_bits : N) (is_signed is_signed' : bool)
    (operand : Expr) (nobool must_bool must_bool' : bool) (ins_addr : Z)
    (s s' : ProcState) :
  fst (claripy_ast_from_ail_condition
         (Convert idx from_bits to_bits is_signed operand)
         nobool must_bool ins_addr s)
  = fst (claripy_ast_from_ail_condition
           (Convert idx' from_bits to_bits is_signed' operand)
           nobool must_bool' ins_addr s').
Proof.
  cbn [claripy_ast_from_ail_condition]. unfold bindM.
  pose proof (conv_state_independent operand false false ins_addr s s') as Hop.
  destruct (claripy_ast_from_ail_condition operand false false ins_addr s)
    as [[v|e] s1],
    (claripy_ast_from_ail_condition operand false false ins_addr s')
    as [[v'|e'] s1']; simpl in Hop; try discriminate.
  - injection Hop as <-. unfold convert_var.
    destruct ((to_bits =? 1)%N && negb nobool); reflexivity.
  - exact Hop.
Qed.

(** A shift whose amount is wider than the shifted operand, and is no
    constant, fails the assertion of [_op_with_unified_size]: the
    translation raises [AssertionError] and has changed nothing. *)
Theorem shift_by_wider_amount_raises `{Claripy} `{Python} `{Ailment}
    (idx : option Z) (opname verbose_op name : string) (operand0 operand1 : Expr)
    (rest : list Expr) (bits : N) (tags : Tags) (nobool must_bool : bool)
    (ins_addr : Z) (s : ProcState) :
  lookup_lambda opname verbose_op = Shift name ->
  (forall i v b, operand1 <> Const i v b) ->
  (expr_bits operand0 < expr_bits operand1)%N ->
  claripy_ast_from_ail_condition
    (Op idx opname verbose_op (operand0 :: operand1 :: rest) bits tags)
    nobool must_bool ins_addr s
  = (Raise AssertionError, s).
Proof.
  intros Hlambda Hconst Hbits. cbn [claripy_ast_from_ail_condition].
  rewrite Hlambda.
  assert (Hne : (expr_bits operand1 =? expr_bits operand0)%N = false)
    by (apply N.eqb_neq; lia).
  assert (Hlt : (expr_bits operand1 <? expr_bits operand0)%N = false)
    by (apply N.ltb_ge; lia).
  destruct operand1; try (exfalso; eapply Hconst; reflexivity);
    rewrite Hne, Hlt; reflexivity.
Qed.

Lemma shift_by_wider_amount_raises_witness :
  @claripy_ast_from_ail_condition Reference.claripy Reference.python
    Reference.ailment
    (Op None "Shl" "Shl"
        [Register (Some 1%Z) None 16 8; Register (Some 2%Z) None 24 32] 8 [])
    false false 0x10 initial_state
  = (Raise AssertionError, initial_state).
Proof.
  apply (@shift_by_wider_amount_raises Reference.claripy Reference.python
           Reference.ailment None "Shl" "Shl" "__lshift__").
  - reflexivity.
  - intros i v b. discriminate.
  - simpl. lia.
Defined.

(** ** More on the simplification passes *)

(** The terms [_extract_terms] yields are below the boolean structure: none
    of them is a conjunction, a disjunction or a negation. *)
Theorem extracted_terms_are_atoms `{Claripy} `{Sympy} `{Python} (cond : AST) :
  Forall (fun t => op t <> "And" /\ op t <> "Or" /\ op t <> "Not")
         (_extract_terms cond).
Proof.
  induction cond as [b|n|v w|n w|o l IH] using AST_ind'; simpl;
    try (repeat constructor; simpl; discriminate).
  destruct (o =? "And") eqn:Ea; simpl.
  - clear Ea. induction IH as [|x r Hx _ IHr]; simpl; [constructor|].
    apply Forall_app; split; assumption.
  - destruct (o =? "Or") eqn:Eo; simpl.
    + clear Ea Eo. induction IH as [|x r Hx _ IHr]; simpl; [constructor|].
      apply Forall_app; split; assumption.
    + destruct (o =? "Not") eqn:En.
      * destruct IH as [|x r Hx _]; [constructor|exact Hx].
      * apply String.eqb_neq in Ea, Eo, En. repeat constructor; simpl; assumption.
Qed.

(** A term in which every negation has one argument, as claripy builds
    them. *)
Fixpoint well_formed (a : AST) : bool :=
  match a with
  | Node o l =>
      (if o =? "Not" then (length l =? 1)%nat else true)
      && forallb well_formed l
  | _ => true
  end.

Lemma forallb_through_map {A} (f : A -> bool) (g : A -> A) (l : list A) :
  map f (map g l) = map f l -> forallb f (map g l) = forallb f l.
Proof.
  induction l as [|x r IH]; simpl; intros E; [reflexivity|].
  injection E as Ex Er. rewrite Ex, (IH Er). reflexivity.
Qed.

Lemma existsb_through_map {A} (f : A -> bool) (g : A -> A) (l : list A) :
  map f (map g l) = map f l -> existsb f (map g l) = existsb f l.
Proof.
  induction l as [|x r IH]; simpl; intros E; [reflexivity|].
  injection E as Ex Er. rewrite Ex, (IH Er). reflexivity.
Qed.

(** Replacing a term by the constant it evaluates to, and its recorded
    negation by the opposite constant, does not change the value of the
    condition in that environment. *)
Theorem replace_term_keeps_value `{Claripy} `{!ClaripySound}
    (cond term : AST) (neg : option AST) (ρ : Env) :
  well_formed cond = true ->
  (forall n, neg = Some n -> eval ρ n = negb (eval ρ term)) ->
  eval ρ (_replace_term_in_ast cond term (BoolV (eval ρ term)) neg
            (BoolV (negb (eval ρ term))))
  = eval ρ cond.
Proof.
  intros Hwf Hneg.
  assert (Hleaf : forall a,
    eval ρ (if decide (a = term) then BoolV (eval ρ term)
            else if decide (Some a = neg) then BoolV (negb (eval ρ term))
            else a) = eval ρ a).
  { intros a. destruct (decide (a = term)) as [->|_]; [reflexivity|].
    destruct (decide (Some a = neg)) as [E|_]; [|reflexivity].
    simpl. symmetry. apply Hneg. symmetry. exact E. }
  induction cond as [b|n|v w|n w|o l IH] using AST_ind';
    try (cbn [_replace_term_in_ast]; apply Hleaf).
  cbn [_replace_term_in_ast].
  simpl in Hwf. apply andb_true_iff in Hwf as [Harity Hwfl].
  assert (Hmap : map (eval ρ)
                     (map (fun a => _replace_term_in_ast a term
                                      (BoolV (eval ρ term)) neg
                                      (BoolV (negb (eval ρ term)))) l)
                 = map (eval ρ) l).
  { clear Harity. induction IH as [|x r Hx _ IHr]; [reflexivity|].
    simpl in Hwfl. apply andb_true_iff in Hwfl as [Hwx Hwr].
    simpl. rewrite (Hx Hwx), (IHr Hwr). reflexivity. }
  destruct (o =? "And") eqn:Ea.
  - apply String.eqb_eq in Ea. subst o. rewrite eval_claripy_And. simpl.
    apply forallb_through_map, Hmap.
  - destruct (o =? "Or") eqn:Eo.
    + apply String.eqb_eq in Eo. subst o. rewrite eval_claripy_Or. simpl.
      apply existsb_through_map, Hmap.
    + destruct (o =? "Not") eqn:En.
      * apply String.eqb_eq in En. subst o. simpl in Harity.
        destruct l as [|x [|y r]]; try discriminate.
        simpl. rewrite eval_claripy_Not.
        apply Forall_cons_1 in IH as [Hx _]. simpl in Hwfl.
        apply andb_true_iff in Hwfl as [Hwx _]. rewrite (Hx Hwx). reflexivity.
      * apply Hleaf.
Qed.

Lemma replace_term_keeps_value_witness :
  let cond := Node "Or" [BoolS "A"; Node "And" [BoolS "A"; Node "Not" [BoolS "B"]]] in
  let ρ := Reference.bool_env {[ "B" ]} in
  eval ρ (@_replace_term_in_ast Reference.claripy cond (BoolS "B") (BoolV true)
            None (BoolV false))
  = eval ρ cond.
Proof.
  intros cond ρ.
  exact (@replace_term_keeps_value Reference.claripy Reference.claripy_sound
           cond (BoolS "B") None ρ eq_refl
           (fun n (E : None = Some n) =>
              match E in (_ = o) return
                    match o with Some _ => _ | None => True end with
              | eq_refl => I
              end)).
Defined.

(** The four constraint lists [_remove_redundant_terms] puts to the solver
    for one term. *)
Definition redundancy_queries `{Claripy} (cond term : AST) (neg : option AST)
    : list (list AST) :=
  let with_true := _replace_term_in_ast cond term claripy_true neg claripy_false in
  let with_false := _replace_term_in_ast cond term claripy_false neg claripy_true in
  [[cond; claripy_Not with_true]; [claripy_Not cond; with_true];
   [cond; claripy_Not with_false]; [claripy_Not cond; with_false]].

(** When the solver's "unsatisfiable" is right on the four queries, a term
    that is reported redundant can be replaced by true as well as by false
    (and its negation by the opposite) without changing the value of the
    condition in any environment. *)
Theorem reported_term_is_irrelevant `{Claripy} `{!ClaripySound}
    (cond term : AST) (neg : option AST) :
  (forall l, l ∈ redundancy_queries cond term neg ->
             solver_satisfiable l = false ->
             forall ρ, forallb (eval ρ) l = false) ->
  term_is_redundant cond term neg = true ->
  forall ρ,
    eval ρ (_replace_term_in_ast cond term claripy_true neg claripy_false)
    = eval ρ cond
    /\ eval ρ (_replace_term_in_ast cond term claripy_false neg claripy_true)
       = eval ρ cond.
Proof.
  intros Hsound Hred ρ. unfold term_is_redundant in Hred.
  unfold redundancy_queries in Hsound. cbv zeta in Hsound.
  set (wt := _replace_term_in_ast cond term claripy_true neg claripy_false) in *.
  set (wf := _replace_term_in_ast cond term claripy_false neg claripy_true) in *.
  destruct (solver_satisfiable [cond; claripy_Not wt]) eqn:Q1; [discriminate|].
  destruct (solver_satisfiable [claripy_Not cond; wt]) eqn:Q2; [discriminate|].
  simpl in Hred.
  destruct (solver_satisfiable [cond; claripy_Not wf]) eqn:Q3; [discriminate|].
  destruct (solver_satisfiable [claripy_Not cond; wf]) eqn:Q4; [discriminate|].
  pose proof (Hsound _ ltac:(apply list_elem_of_here) Q1 ρ) as S1.
  pose proof (Hsound _ ltac:(do 1 apply list_elem_of_further;
                             apply list_elem_of_here) Q2 ρ) as S2.
  pose proof (Hsound _ ltac:(do 2 apply list_elem_of_further;
                             apply list_elem_of_here) Q3 ρ) as S3.
  pose proof (Hsound _ ltac:(do 3 apply list_elem_of_further;
                             apply list_elem_of_here) Q4 ρ) as S4.
  simpl in S1, S2, S3, S4. rewrite !eval_claripy_Not in *.
  destruct (eval ρ cond), (eval ρ wt), (eval ρ wf); simpl in *;
    try discriminate; split; reflexivity.
Qed.

(** [A ∨ (A ∧ ¬B)]: the term [B] makes no difference. *)
Lemma reported_term_is_irrelevant_witness :
  let cond := Node "Or" [BoolS "A"; Node "And" [BoolS "A"; Node "Not" [BoolS "B"]]] in
  let ρ := Reference.bool_env {[ "A"; "B" ]} in
  eval ρ (@_replace_term_in_ast Reference.claripy cond (BoolS "B")
            claripy_true None claripy_false)
  = eval ρ cond.
Proof.
  intros cond ρ.
  refine (proj1 (@reported_term_is_irrelevant Reference.claripy
                   Reference.claripy_sound cond (BoolS "B") None _ _ ρ)).
  - intros l Hl _ ρ'.
    repeat (apply elem_of_cons in Hl as [->|Hl]);
      [| | | |inversion Hl];
      destruct ρ' as [eb ev ea et]; vm_compute;
      destruct (eb "A"), (eb "B"); reflexivity.
  - vm_compute. reflexivity.
Defined.

(** A term that is no conjunction, disjunction, negation or unifiable
    comparison becomes one sympy symbol; when the minimization returns that
    symbol as it is, [simplify_condition] returns the term itself. *)
Theorem simplify_condition_fixes_atoms `{Claripy} `{Sympy} `{Python} (cond : AST) :
  str_in (op cond) ("And" :: "Or" :: "Not" :: _UNIFIABLE_COMPARISONS) = false ->
  recursion_limit <> 0%nat ->
  simplify_logic (SSymbol (py_str (ast_hash cond)))
  = SSymbol (py_str (ast_hash cond)) ->
  simplify_condition cond = Ok cond.
Proof.
  intros Hop Hlimit Hsym.
  unfold simplify_condition, simplify_condition_with, simplify_condition_calls.
  destruct ((8 <? depth cond)%nat || (8 <? size (variables cond))%nat);
    [reflexivity|].
  destruct recursion_limit as [|fuel]; [contradiction|].
  cbn [claripy_ast_to_sympy_expr].
  simpl in Hop. apply orb_false_iff in Hop as [Ha Hop].
  apply orb_false_iff in Hop as [Ho Hop]. apply orb_false_iff in Hop as [Hn Hu].
  rewrite Ha, Ho, Hn.
  unfold str_in. simpl in Hu |- *. rewrite Hu.
  simpl. rewrite Hsym. simpl. rewrite lookup_insert_eq. reflexivity.
Qed.

Lemma simplify_condition_fixes_atoms_witness :
  @simplify_condition Reference.claripy Reference.sympy Reference.python
    (Node "__eq__" [BVS "x" 32; BVV 7 32])
  = Ok (Node "__eq__" [BVS "x" 32; BVV 7 32]).
Proof.
  apply (@simplify_condition_fixes_atoms Reference.claripy Reference.sympy
           Reference.python).
  - reflexivity.
  - vm_compute. discriminate.
  - reflexivity.
Defined.

(** ** Short-circuit un-reversion: what the rewriting keeps *)

(** On [not_a ∨ (p ∧ q) ∨ rest] the pass always returns, and where each
    solver answer "unsatisfiable" for [not_a == p] and [not_a == q] is right
    (the two sides then have opposite values in every environment), its
    result has the value of its input in every environment: whichever
    conjunct it takes for the copy of [a], the rewriting is sound. *)
Theorem revert_short_circuit_keeps_value `{Claripy} `{!ClaripySound}
    (not_a p q : AST) (rest : list AST) :
  (solver_satisfiable [claripy_eq not_a p] = false ->
   forall ρ, eval ρ not_a = negb (eval ρ p)) ->
  (solver_satisfiable [claripy_eq not_a q] = false ->
   forall ρ, eval ρ not_a = negb (eval ρ q)) ->
  exists result,
    _revert_short_circuit_conditions
      (Node "Or" (not_a :: Node "And" [p; q] :: rest)) = Ok result
    /\ forall ρ,
         eval ρ result
         = eval ρ (Node "Or" (not_a :: Node "And" [p; q] :: rest)).
Proof.
  intros Hp Hq.
  assert (Hrewrite : forall x y,
    (forall ρ, eval ρ not_a = negb (eval ρ x)) ->
    (forall ρ, eval ρ p && (eval ρ q && true) = eval ρ x && eval ρ y) ->
    exists result,
      (if (length (not_a :: Node "And" [p; q] :: rest) <=? 2)%nat
       then Ok (claripy_Not (claripy_And [claripy_Not not_a; claripy_Not y]))
       else Ok (claripy_Or
                  (claripy_Not (claripy_And [claripy_Not not_a; claripy_Not y])
                   :: rest))) = Ok result
      /\ forall ρ,
           eval ρ result
           = eval ρ (Node "Or" (not_a :: Node "And" [p; q] :: rest))).
  { intros x y Hopposite Hand.
    destruct rest as [|z rest']; eexists; (split; [reflexivity|]); intros ρ.
    - rewrite eval_claripy_Not, eval_claripy_And. simpl.
      rewrite !eval_claripy_Not, (Hopposite ρ), (Hand ρ).
      destruct (eval ρ x), (eval ρ y); reflexivity.
    - rewrite eval_claripy_Or. simpl.
      rewrite eval_claripy_Not, eval_claripy_And. simpl.
      rewrite !eval_claripy_Not, (Hopposite ρ), (Hand ρ).
      destruct (eval ρ x), (eval ρ y); reflexivity. }
  set (cond := Node "Or" (not_a :: Node "And" [p; q] :: rest)) in *.
  set (rewritten := fun y : AST =>
    if (length (not_a :: Node "And" [p; q] :: rest) <=? 2)%nat
    then Ok (claripy_Not (claripy_And [claripy_Not not_a; claripy_Not y]))
    else Ok (claripy_Or
               (claripy_Not (claripy_And [claripy_Not not_a; claripy_Not y])
                :: rest))) in *.
  assert (Hpass : _revert_short_circuit_conditions cond =
    if decide (variables not_a = variables p) then
      if negb (solver_satisfiable [claripy_eq not_a p])
      then rewritten q else Ok cond
    else if decide (variables not_a = variables q) then
      if negb (solver_satisfiable [claripy_eq not_a q])
      then rewritten p else Ok cond
    else Ok cond) by reflexivity.
  rewrite Hpass. clear Hpass.
  destruct (decide (variables not_a = variables p)).
  - destruct (solver_satisfiable [claripy_eq not_a p]) eqn:Es; simpl negb;
      cbv iota.
    + eexists. split; reflexivity.
    + apply (Hrewrite p q (Hp eq_refl)). intros ρ.
      rewrite andb_true_r. reflexivity.
  - destruct (decide (variables not_a = variables q)).
    + destruct (solver_satisfiable [claripy_eq not_a q]) eqn:Es; simpl negb;
        cbv iota.
      * eexists. split; reflexivity.
      * apply (Hrewrite q p (Hq eq_refl)). intros ρ.
        rewrite andb_true_r. apply andb_comm.
    + eexists. split; reflexivity.
Qed.

Lemma revert_short_circuit_keeps_value_witness :
  exists result,
    @_revert_short_circuit_conditions Reference.claripy
      (Node "Or" [Node "Not" [BoolS "A"];
                  Node "And" [BoolS "A"; Node "Not" [BoolS "B"]];
                  BoolS "C"]) = Ok result
    /\ forall ρ,
         eval ρ result
         = eval ρ (Node "Or" [Node "Not" [BoolS "A"];
                              Node "And" [BoolS "A"; Node "Not" [BoolS "B"]];
                              BoolS "C"]).
Proof.
  apply (@revert_short_circuit_keeps_value Reference.claripy
           Reference.claripy_sound).
  - intros _ ρ. reflexivity.
  - intros Hunsat. vm_compute in Hunsat. discriminate.
Defined.

(** The pass reads the first two arguments of the conjunction only: once
    the solver finds [not_a == a'] unsatisfiable, whatever further conjuncts
    follow [not_b] are dropped from the result, which is the one for the
    conjunction [a' ∧ not_b]. *)
Theorem revert_short_circuit_drops_further_conjuncts `{Claripy}
    (not_a a' not_b : AST) (more rest : list AST) :
  variables not_a = variables a' ->
  solver_satisfiable [claripy_eq not_a a'] = false ->
  _revert_short_circuit_conditions
    (Node "Or" (not_a :: Node "And" (a' :: not_b :: more) :: rest))
  = _revert_short_circuit_conditions
      (Node "Or" (not_a :: Node "And" [a'; not_b] :: rest)).
Proof.
  intros Hvars Hunsat. unfold _revert_short_circuit_conditions. simpl.
  rewrite !decide_True by exact Hvars. rewrite Hunsat. reflexivity.
Qed.

Lemma revert_short_circuit_drops_further_conjuncts_witness :
  @_revert_short_circuit_conditions Reference.claripy
    (Node "Or" [Node "Not" [BoolS "A"];
                Node "And" [BoolS "A"; Node "Not" [BoolS "B"]; BoolS "C"]])
  = @_revert_short_circuit_conditions Reference.claripy
      (Node "Or" [Node "Not" [BoolS "A"];
                  Node "And" [BoolS "A"; Node "Not" [BoolS "B"]]]).
Proof.
  apply (@revert_short_circuit_drops_further_conjuncts Reference.claripy).
  - vm_compute. reflexivity.
  - vm_compute. reflexivity.
Defined.

(** ** Folding of negations *)

(** De Morgan's case: on [¬(¬a ∧ ¬b)] the pass returns [a ∨ b], which has
    the value of its input in every environment. *)
Theorem fold_double_negations_de_morgan `{Claripy} `{Sympy} `{Python}
    `{!ClaripySound} (a b : AST) :
  _fold_double_negations
    (Node "Not" [Node "And" [Node "Not" [a]; Node "Not" [b]]])
  = Ok (Some (claripy_Or [a; b]))
  /\ forall ρ,
       eval ρ (claripy_Or [a; b])
       = eval ρ (Node "Not" [Node "And" [Node "Not" [a]; Node "Not" [b]]]).
Proof.
  split; [reflexivity|]. intros ρ. rewrite eval_claripy_Or. simpl.
  destruct (eval ρ a), (eval ρ b); reflexivity.
Qed.

Lemma fold_double_negations_de_morgan_witness :
  @_fold_double_negations Reference.claripy Reference.sympy Reference.python
    (Node "Not" [Node "And" [Node "Not" [BoolS "A"]; Node "Not" [BoolS "B"]]])
  = Ok (Some (Node "Or" [BoolS "A"; BoolS "B"])).
Proof.
  exact (proj1 (@fold_double_negations_de_morgan Reference.claripy
                  Reference.sympy Reference.python Reference.claripy_sound
                  (BoolS "A") (BoolS "B"))).
Defined.

(** The pass rewrites negations only: any other term, and a negation of
    anything but a negation, a two-argument conjunction or a two-argument
    disjunction, is left alone (the answer is [None]). *)
Theorem fold_double_negations_leaves_others `{Claripy} `{Sympy} `{Python}
    (cond : AST) :
  (op cond <> "Not"
   \/ exists c0 more, args cond = c0 :: more
        /\ op c0 <> "Not"
        /\ (op c0 = "And" \/ op c0 = "Or" -> length (args c0) <> 2%nat)) ->
  _fold_double_negations cond = Ok None.
Proof.
  intros [Hop | (c0 & more & Hargs & Hnot & Hlen)];
    unfold _fold_double_negations.
  - destruct (op cond =? "Not")%string eqn:E;
      [apply String.eqb_eq in E; contradiction | reflexivity].
  - destruct (op cond =? "Not")%string; [|reflexivity]. simpl.
    rewrite Hargs.
    destruct (op c0 =? "Not")%string eqn:En;
      [apply String.eqb_eq in En; contradiction|].
    destruct (op c0 =? "And")%string eqn:Ea.
    + apply String.eqb_eq in Ea.
      destruct (length (args c0) =? 2)%nat eqn:El;
        [apply Nat.eqb_eq in El; destruct (Hlen (or_introl Ea) El)|].
      simpl. rewrite Ea. reflexivity.
    + simpl. destruct (op c0 =? "Or")%string eqn:Eo; [|reflexivity].
      apply String.eqb_eq in Eo.
      destruct (length (args c0) =? 2)%nat eqn:El;
        [apply Nat.eqb_eq in El; destruct (Hlen (or_intror Eo) El)|].
      reflexivity.
Qed.

Lemma fold_double_negations_leaves_others_witness :
  @_fold_double_negations Reference.claripy Reference.sympy Reference.python
    (Node "Not" [Node "And" [BoolS "a"; BoolS "b"; BoolS "c"]])
  = Ok None.
Proof.
  apply (@fold_double_negations_leaves_others Reference.claripy
           Reference.sympy Reference.python).
  right. exists (Node "And" [BoolS "a"; BoolS "b"; BoolS "c"]), [].
  split; [reflexivity|]. split; [discriminate|].
  intros _. simpl. lia.
Defined.

(** * The removal of edges between switch cases *)

#[local] Set Warnings "-clear-no-such-hyp".

Lemma sum_list_filter_mono {A} (P Q : A -> Prop)
    `{!forall x, Decision (P x)} `{!forall x, Decision (Q x)}
    (f f' : A -> nat) (l : list A) :
  (forall x, x ∈ l -> P x -> Q x /\ f x <= f' x) ->
  sum_list (map f (filter P l)) <= sum_list (map f' (filter Q l)).
Proof.
  induction l as [|a l IH]; intros Hall; [reflexivity|].
  assert (IH' := IH (fun x Hx => Hall x (list_elem_of_further _ _ _ Hx))).
  rewrite !filter_cons.
  destruct (decide (P a)) as [Hp|Hp].
  - destruct (Hall a (list_elem_of_here _ _) Hp) as [Hq Hle].
    rewrite decide_True by exact Hq. simpl. lia.
  - destruct (decide (Q a)); simpl; lia.
Qed.

Lemma sum_list_map_filter_ext {A} (P : A -> Prop)
    `{!forall x, Decision (P x)} (f f' : A -> nat) (l : list A) :
  (forall x, P x -> f x = f' x) ->
  sum_list (map f (filter P l)) = sum_list (map f' (filter P l)).
Proof.
  intros Hext. apply Nat.le_antisymm; apply sum_list_filter_mono;
    intros x _ Hp; (split; [exact Hp|]); rewrite (Hext x Hp); reflexivity.
Qed.

Section CrossingFacts.
Variable g : DiGraph.
Variable starting_nodes : list node.

Lemma successors_edge (src succ : node) :
  succ ∈ successors g src <-> exists t, (src, succ, t) ∈ g_edges g.
Proof.
  unfold successors. rewrite list_elem_of_omap. split.
  - intros ([[s d] t] & Hin & Heq). destruct (decide (s = src)); [|discriminate].
    injection Heq as <-. subst s. exists t. exact Hin.
  - intros [t Hin]. exists (src, succ, t). split; [exact Hin|].
    rewrite decide_True by reflexivity. reflexivity.
Qed.

Lemma successors_all_nodes (src succ : node) :
  succ ∈ successors g src -> succ ∈ all_nodes g starting_nodes.
Proof.
  intros Hs. apply successors_edge in Hs as [t Hin]. unfold all_nodes.
  apply elem_of_union_r, elem_of_list_to_set, list_elem_of_fmap.
  exists (src, succ, t). split; [reflexivity | exact Hin].
Qed.

(** What one pass over the successors leaves in the queue. *)
Lemma visit_successors_queue src traversed queue edges_to_remove :
  (visit_successors g starting_nodes src traversed queue edges_to_remove).1
  = queue ++ filter (fun succ => (succ ∉ traversed) /\ (succ ∉ starting_nodes))
                    (successors g src).
Proof.
  unfold visit_successors. generalize (successors g src) as l.
  intros l. revert queue edges_to_remove.
  induction l as [|a l IH]; intros queue etr; simpl.
  - rewrite app_nil_r. reflexivity.
  - rewrite filter_cons. destruct (decide (a ∈ traversed)) as [Ht|Ht].
    + rewrite IH. rewrite decide_False by (intros [? _]; contradiction).
      reflexivity.
    + destruct (decide (a ∈ starting_nodes)) as [Hs|Hs].
      * rewrite IH. rewrite decide_False by (intros [_ ?]; contradiction).
        reflexivity.
      * rewrite IH. rewrite decide_True by (split; assumption).
        rewrite <- app_assoc. reflexivity.
Qed.

(** The edges one pass marks: edges of the graph out of [src], each into a
    starting node or into a node that has successors. *)
Lemma visit_successors_edges src traversed queue edges_to_remove (e : node * node) :
  e ∈ (visit_successors g starting_nodes src traversed queue edges_to_remove).2 ->
  e ∈ edges_to_remove
  \/ (e.1 = src /\ e.2 ∈ successors g src
      /\ (e.2 ∈ starting_nodes \/ 0 < out_degree g e.2)).
Proof.
  unfold visit_successors.
  assert (Hgen : forall (l q : list node) (etr : gset (node * node)),
    (forall x, x ∈ l -> x ∈ successors g src) ->
    e ∈ (foldl (fun '(queue, edges_to_remove) succ =>
                  if decide (succ ∈ traversed) then
                    (queue,
                     if (0 <? out_degree g succ)%nat
                     then {[ (src, succ) ]} ∪ edges_to_remove
                     else edges_to_remove)
                  else if decide (succ ∈ starting_nodes) then
                    (queue, {[ (src, succ) ]} ∪ edges_to_remove)
                  else (queue ++ [succ], edges_to_remove))
               (q, etr) l).2 ->
    e ∈ etr
    \/ (e.1 = src /\ e.2 ∈ successors g src
        /\ (e.2 ∈ starting_nodes \/ 0 < out_degree g e.2))).
  { induction l as [|a l IH]; intros q etr Hl; simpl.
    - intros He. left. exact He.
    - assert (Ha : a ∈ successors g src) by (apply Hl, list_elem_of_here).
      assert (Hl' : forall x, x ∈ l -> x ∈ successors g src)
        by (intros x Hx; apply Hl, list_elem_of_further, Hx).
      destruct (decide (a ∈ traversed)).
      + destruct (0 <? out_degree g a)%nat eqn:Ed.
        * intros He. destruct (IH _ _ Hl' He) as [Hin|Hnew]; [|right; exact Hnew].
          apply elem_of_union in Hin as [Hin|Hin]; [|left; exact Hin].
          apply elem_of_singleton in Hin. subst e. right. simpl.
          apply Nat.ltb_lt in Ed. auto.
        * apply IH, Hl'.
      + destruct (decide (a ∈ starting_nodes)).
        * intros He. destruct (IH _ _ Hl' He) as [Hin|Hnew]; [|right; exact Hnew].
          apply elem_of_union in Hin as [Hin|Hin]; [|left; exact Hin].
          apply elem_of_singleton in Hin. subst e. right. simpl. auto.
        * apply IH, Hl'. }
  apply Hgen. auto.
Qed.

Lemma traverse_edges steps queue traversed edges_to_remove traversed' edges'
    (e : node * node) :
  traverse g starting_nodes steps queue traversed edges_to_remove
  = Some (traversed', edges') ->
  e ∈ edges' ->
  e ∈ edges_to_remove
  \/ (e.2 ∈ successors g e.1
      /\ (e.2 ∈ starting_nodes \/ 0 < out_degree g e.2)).
Proof.
  revert queue traversed edges_to_remove.
  induction steps as [|steps IH]; intros queue traversed etr;
    destruct queue as [|src queue]; simpl; try discriminate.
  - intros [= <- <-]. auto.
  - intros [= <- <-]. auto.
  - destruct (visit_successors g starting_nodes src ({[src]} ∪ traversed) queue etr)
      as [queue' etr'] eqn:Ev.
    intros Hrun He. destruct (IH _ _ _ Hrun He) as [Hin|Hnew]; [|right; exact Hnew].
    assert (Hin' : e ∈ (visit_successors g starting_nodes src
                          ({[src]} ∪ traversed) queue etr).2)
      by (rewrite Ev; exact Hin).
    apply visit_successors_edges in Hin' as [Hold|(H1 & H2 & H3)];
      [left; exact Hold|].
    right. rewrite H1. auto.
Qed.

Lemma traverse_all_edges starts traversed edges_to_remove traversed' edges'
    (e : node * node) :
  traverse_all g starting_nodes starts traversed edges_to_remove
  = Some (traversed', edges') ->
  e ∈ edges' ->
  e ∈ edges_to_remove
  \/ (e.2 ∈ successors g e.1
      /\ (e.2 ∈ starting_nodes \/ 0 < out_degree g e.2)).
Proof.
  revert traversed edges_to_remove.
  induction starts as [|st starts IH]; intros traversed etr; simpl.
  - intros [= <- <-]. auto.
  - destruct (traverse g starting_nodes _ [st] traversed etr)
      as [[traversed1 etr1]|] eqn:Et; [|discriminate].
    intros Hrun He. destruct (IH _ _ Hrun He) as [Hin|Hnew]; [|right; exact Hnew].
    exact (traverse_edges _ _ _ _ _ _ _ Et Hin).
Qed.

(** *** The weight that bounds the loop *)

Lemma weight_in_mono k (U' U : gset node) (v : node) :
  U' ⊆ U -> weight_in g k U' v <= weight_in g k U v.
Proof.
  revert U' U v. induction k as [|k IH]; intros U' U v Hsub; simpl;
    [reflexivity|].
  apply le_n_S, sum_list_filter_mono. intros x _ Hx. split.
  - set_solver.
  - apply IH. set_solver.
Qed.

Lemma weight_in_fuel k1 k2 (U : gset node) (v : node) :
  v ∈ U -> size U <= k1 -> size U <= k2 ->
  weight_in g k1 U v = weight_in g k2 U v.
Proof.
  revert k2 U v. induction k1 as [|k1 IH]; intros k2 U v Hv H1 H2.
  - assert (size U = 0) as Hz by lia. apply size_empty_inv in Hz.
    exfalso. set_solver.
  - destruct k2 as [|k2].
    + assert (size U = 0) as Hz by lia. apply size_empty_inv in Hz.
      exfalso. set_solver.
    + simpl. f_equal. apply sum_list_map_filter_ext. intros x Hx.
      assert (Hsize : size (U ∖ {[v]}) = size U - 1).
      { rewrite size_difference by set_solver. rewrite size_singleton.
        reflexivity. }
      apply IH; [exact Hx | lia | lia].
Qed.

Lemma weight_in_le k (U' U : gset node) (u : node) :
  u ∈ U' -> U' ⊆ U -> size U <= k ->
  weight_in g (size U') U' u <= weight_in g k U u.
Proof.
  intros Hu Hsub Hk.
  assert (size U' <= size U) by (apply subseteq_size, Hsub).
  rewrite (weight_in_fuel (size U') k U' u Hu) by lia.
  apply weight_in_mono, Hsub.
Qed.

Lemma size_remove (U : gset node) (v : node) :
  v ∈ U -> size U = S (size (U ∖ {[v]})).
Proof.
  intros Hv. rewrite size_difference by set_solver. rewrite size_singleton.
  assert (size U <> 0); [|lia].
  intros Hz. apply size_empty_inv in Hz. set_solver.
Qed.

Lemma weight_mono (U' U : gset node) (v : node) :
  U' ⊆ U -> weight g U' v <= weight g U v.
Proof.
  intros Hsub. unfold weight.
  destruct (decide (v ∈ U')) as [Hv'|Hv']; destruct (decide (v ∈ U)) as [Hv|Hv].
  - apply weight_in_le; [exact Hv' | exact Hsub | reflexivity].
  - exfalso. set_solver.
  - rewrite (size_remove U v Hv). simpl.
    apply le_n_S, sum_list_filter_mono. intros x _ Hx. split; [set_solver|].
    apply weight_in_le; [exact Hx | set_solver | reflexivity].
  - apply le_n_S, sum_list_filter_mono. intros x _ Hx. split; [set_solver|].
    apply weight_in_le; [exact Hx | exact Hsub | reflexivity].
Qed.

Lemma weight_positive (U : gset node) (v : node) : 0 < weight g U v.
Proof.
  unfold weight. destruct (decide (v ∈ U)); [|lia].
  destruct (size U); simpl; lia.
Qed.

(** Popping [src] pays for the entries its successors add to the queue. *)
Lemma weight_pop (U : gset node) (src : node) :
  S (sum_list (map (weight g (U ∖ {[src]}))
                   (filter (fun u => u ∈ U ∖ {[src]}) (successors g src))))
  <= weight g U src.
Proof.
  unfold weight at 2. destruct (decide (src ∈ U)) as [Hs|Hs].
  - rewrite (size_remove U src Hs). simpl. apply le_n_S.
    apply sum_list_filter_mono. intros x _ Hx. split; [exact Hx|].
    unfold weight. rewrite decide_True by exact Hx. reflexivity.
  - assert (HU : U ∖ {[src]} = U) by set_solver. rewrite HU.
    apply le_n_S, sum_list_filter_mono. intros x _ Hx. split; [exact Hx|].
    unfold weight. rewrite decide_True by exact Hx. reflexivity.
Qed.

Lemma steps_for_app queue1 queue2 traversed :
  steps_for g starting_nodes (queue1 ++ queue2) traversed
  = steps_for g starting_nodes queue1 traversed
    + steps_for g starting_nodes queue2 traversed.
Proof.
  unfold steps_for. rewrite map_app. induction (map _ queue1); simpl; lia.
Qed.

Lemma steps_for_mono queue (traversed traversed' : gset node) :
  traversed ⊆ traversed' ->
  steps_for g starting_nodes queue traversed'
  <= steps_for g starting_nodes queue traversed.
Proof.
  intros Hsub. unfold steps_for. induction queue as [|a queue IH]; simpl;
    [reflexivity|].
  assert (weight g (all_nodes g starting_nodes ∖ traversed') a
          <= weight g (all_nodes g starting_nodes ∖ traversed) a)
    by (apply weight_mono; set_solver).
  lia.
Qed.

(** The [while queue] loop ends within the steps that the weight of its
    queue allows. *)
Lemma traverse_terminates steps queue traversed edges_to_remove :
  steps_for g starting_nodes queue traversed <= steps ->
  is_Some (traverse g starting_nodes steps queue traversed edges_to_remove).
Proof.
  revert queue traversed edges_to_remove.
  induction steps as [|steps IH]; intros queue traversed etr Hsteps;
    destruct queue as [|src queue]; simpl; try (eexists; reflexivity).
  - exfalso. unfold steps_for in Hsteps. simpl in Hsteps.
    pose proof (weight_positive (all_nodes g starting_nodes ∖ traversed) src).
    lia.
  - destruct (visit_successors g starting_nodes src ({[src]} ∪ traversed) queue etr)
      as [queue' etr'] eqn:Ev.
    apply IH.
    assert (Hq : queue' =
      queue ++ filter (fun succ => (succ ∉ {[src]} ∪ traversed)
                                   /\ (succ ∉ starting_nodes))
                      (successors g src)).
    { rewrite <- visit_successors_queue with (edges_to_remove := etr).
      rewrite Ev. reflexivity. }
    rewrite Hq, steps_for_app.
    assert (H1 : steps_for g starting_nodes queue ({[src]} ∪ traversed)
                 <= steps_for g starting_nodes queue traversed)
      by (apply steps_for_mono; set_solver).
    set (U := all_nodes g starting_nodes ∖ traversed).
    assert (HU : all_nodes g starting_nodes ∖ ({[src]} ∪ traversed)
                 = U ∖ {[src]}) by (unfold U; set_solver).
    assert (H2 : steps_for g starting_nodes
                   (filter (fun succ => (succ ∉ {[src]} ∪ traversed)
                                        /\ (succ ∉ starting_nodes))
                           (successors g src))
                   ({[src]} ∪ traversed)
                 <= sum_list (map (weight g (U ∖ {[src]}))
                                  (filter (fun u => u ∈ U ∖ {[src]})
                                          (successors g src)))).
    { unfold steps_for. rewrite HU. apply sum_list_filter_mono.
      intros x Hx [Hnt _]. split; [|reflexivity].
      pose proof (successors_all_nodes src x Hx). unfold U. set_solver. }
    pose proof (weight_pop U src) as H3.
    unfold steps_for in Hsteps. simpl in Hsteps. fold U in Hsteps.
    unfold steps_for in H1 |- *. unfold steps_for in H2. subst U. lia.
Qed.

Lemma traverse_all_terminates starts traversed edges_to_remove :
  is_Some (traverse_all g starting_nodes starts traversed edges_to_remove).
Proof.
  revert traversed edges_to_remove.
  induction starts as [|st starts IH]; intros traversed etr; simpl.
  - eexists. reflexivity.
  - destruct (traverse_terminates (steps_for g starting_nodes [st] traversed)
                [st] traversed etr (Nat.le_refl _)) as [[t' e'] Ht].
    rewrite Ht. apply IH.
Qed.
End CrossingFacts.

(** The breadth-first loops of [_remove_crossing_edges_between_cases] end on
    every graph, cyclic ones included, although a node may enter the queue
    several times before it is first taken out: the traversal returns its
    sets of traversed nodes and of edges to remove within the steps the
    model allows it. *)
Theorem crossing_edge_traversal_terminates (g : DiGraph)
    (starting_nodes : list node) :
  exists traversed_nodes edges_to_remove,
    traverse_all g starting_nodes starting_nodes ∅ ∅
    = Some (traversed_nodes, edges_to_remove).
Proof.
  destruct (traverse_all_terminates g starting_nodes starting_nodes ∅ ∅)
    as [[t e] Hrun].
  exists t, e. exact Hrun.
Qed.

Lemma omap_filter_sublist {A B} (f : A -> option B) (P : A -> Prop)
    `{forall x, Decision (P x)} (l : list A) :
  sublist (omap f (filter P l)) (omap f l).
Proof.
  induction l as [|a l IH]; [constructor|].
  rewrite filter_cons. destruct (decide (P a)); simpl.
  - destruct (f a); [apply sublist_skip, IH|exact IH].
  - destruct (f a); [apply sublist_cons, IH|exact IH].
Qed.

Lemma successors_source_filter (g : DiGraph) (u v : node) :
  omap (fun '(s, d, _) => if decide (s = u) then Some d else None)
       (filter (fun e : node * node * option string => e.1.1 = v) (g_edges g))
  = if decide (v = u) then successors g u else [].
Proof.
  unfold successors. generalize (g_edges g) as l.
  induction l as [|[[s d] t] l IH].
  { destruct (decide (v = u)); reflexivity. }
  rewrite filter_cons. cbn [fst].
  destruct (decide (s = v)) as [->|Hsv]; cbn [omap list_omap]; rewrite IH.
  - destruct (decide (v = u)); reflexivity.
  - destruct (decide (v = u)) as [<-|_]; [|reflexivity].
    destruct (decide (s = v)); [contradiction|reflexivity].
Qed.

Lemma successors_copy_graph (g : DiGraph) (u : node) :
  NoDup (g_nodes g) ->
  successors (copy_graph g) u
  = if decide (u ∈ g_nodes g) then successors g u else [].
Proof.
  unfold successors at 1, copy_graph. simpl.
  induction (g_nodes g) as [|v l IH]; intros Hnd.
  { destruct (decide (u ∈ [])) as [Hin|_]; [inversion Hin|reflexivity]. }
  apply NoDup_cons in Hnd as [Hv Hnd]. simpl. rewrite omap_app.
  rewrite successors_source_filter, (IH Hnd).
  destruct (decide (v = u)) as [->|Hvu].
  - rewrite (decide_False (P := u ∈ l)) by exact Hv.
    rewrite (decide_True (P := u ∈ u :: l)) by apply list_elem_of_here.
    apply app_nil_r.
  - simpl. destruct (decide (u ∈ l)) as [Hin|Hnin].
    + rewrite decide_True by (apply list_elem_of_further, Hin). reflexivity.
    + rewrite decide_False; [reflexivity|].
      intros Hin. apply elem_of_cons in Hin as [->|Hin]; contradiction.
Qed.

Lemma copy_graph_edges (g : DiGraph) (e : node * node * option string) :
  e ∈ g_edges (copy_graph g) <-> e ∈ g_edges g /\ e.1.1 ∈ g_nodes g.
Proof.
  unfold copy_graph. simpl. rewrite list_elem_of_In, in_flat_map. split.
  - intros (u & Hu & He). apply list_elem_of_In, list_elem_of_filter in He.
    destruct He as [-> He]. split; [exact He|apply list_elem_of_In, Hu].
  - intros [He Hu]. exists e.1.1. split; [apply list_elem_of_In, Hu|].
    apply list_elem_of_In, list_elem_of_filter. split; [reflexivity|exact He].
Qed.

(** [_remove_crossing_edges_between_cases] returns a graph on the same
    nodes whose edges are edges of the input; the successors of a node come
    in the order they had (the graph keeping every node once), while the
    copy the code makes lists the edges source by source; an edge it removes
    leads to a case entry or to a node that has successors, so an edge into
    a node without successors that is no case entry stays. *)
Theorem crossing_edges_removal_keeps_terminal_edges `{GraphUtils}
    (block_of : node -> SNode) (g : DiGraph)
    (case_entry_to_switch_head : gmap Z Z) :
  let g' :=
    _remove_crossing_edges_between_cases block_of g case_entry_to_switch_head in
  let starting_nodes :=
    set_order
      (filter (fun n => is_Some (case_entry_to_switch_head
                                   !! addr_of block_of n))
              (g_nodes g)) in
  g_nodes g' = g_nodes g
  /\ (forall e, e ∈ g_edges g' -> e ∈ g_edges g)
  /\ (NoDup (g_nodes g) ->
      forall u, sublist (successors g' u) (successors g u))
  /\ forall src dst t,
       (src, dst, t) ∈ g_edges g -> src ∈ g_nodes g ->
       (src, dst, t) ∉ g_edges g' ->
       dst ∈ starting_nodes \/ 0 < out_degree g dst.
Proof.
  intros g' starting_nodes. subst g'.
  unfold _remove_crossing_edges_between_cases. fold starting_nodes.
  assert (Hsame : g_nodes g = g_nodes g
    /\ (forall e, e ∈ g_edges g -> e ∈ g_edges g)
    /\ (NoDup (g_nodes g) ->
        forall u, sublist (successors g u) (successors g u))
    /\ forall src dst t,
         (src, dst, t) ∈ g_edges g -> src ∈ g_nodes g ->
         (src, dst, t) ∉ g_edges g ->
         dst ∈ starting_nodes \/ 0 < out_degree g dst).
  { split; [reflexivity|]. split; [intros e He; exact He|].
    split; [intros _ u; reflexivity|]. intros ? ? ? ? ? Hn. contradiction. }
  destruct starting_nodes as [|st starts] eqn:Es; [exact Hsame|].
  rewrite <- Es in *.
  destruct (traverse_all g starting_nodes starting_nodes ∅ ∅)
    as [[traversed etr]|] eqn:Et; [|exact Hsame].
  destruct (decide (etr = ∅)); [exact Hsame|]. clear Hsame.
  split; [reflexivity|]. split; [|split].
  - intros e He. simpl in He. apply list_elem_of_filter in He as [_ He].
    apply (copy_graph_edges g e) in He. apply He.
  - intros Hnd u. unfold successors at 1, remove_edges_from. simpl.
    etransitivity; [apply omap_filter_sublist|].
    change (sublist (successors (copy_graph g) u) (successors g u)).
    rewrite (successors_copy_graph g u Hnd).
    destruct (decide (u ∈ g_nodes g)); [reflexivity|apply sublist_nil_l].
  - intros src dst t Hin Hsrc Hnot. simpl in Hnot.
    assert (Hrem : (src, dst) ∈ elements etr).
    { destruct (decide ((src, dst) ∈ elements etr)) as [?|Hne]; [assumption|].
      exfalso. apply Hnot. apply list_elem_of_filter. split; [exact Hne|].
      apply (copy_graph_edges g (src, dst, t)). split; [exact Hin|exact Hsrc]. }
    apply elem_of_elements in Hrem.
    destruct (traverse_all_edges _ _ _ _ _ _ _ (src, dst) Et Hrem) as [He|[_ Hd]].
    + set_solver.
    + exact Hd.
Qed.

(** A graph whose edges were added in another order than its nodes: node 1
    and node 2 are case entries, so the edge from 1 to 2 is removed; in the
    graph returned the predecessors of node 3 come in the order of the
    nodes. *)
Definition crossing_cases : DiGraph :=
  {| g_nodes := [0; 1; 2; 3]%nat;
     g_edges := [(0, 1, None); (2, 3, None); (1, 3, None); (1, 2, None)]%nat |}.

Lemma crossing_edges_removal_copies_the_graph :
  let g' :=
    @_remove_crossing_edges_between_cases Reference.graph_utils
      Examples.diamond_blocks crossing_cases
      {[ 0x20%Z := 0x10%Z; 0x30%Z := 0x10%Z ]} in
  g_edges g' = [(0, 1, None); (1, 3, None); (2, 3, None)]%nat
  /\ predecessors crossing_cases 3%nat = [2; 1]%nat
  /\ predecessors g' 3%nat = [1; 2]%nat.
Proof.
  cbv zeta. split; [|split]; vm_compute; reflexivity.
Qed.

(** Where no node of the graph is a case entry the graph is returned as it
    is. *)
Theorem crossing_edges_removal_without_entries `{GraphUtils}
    (block_of : node -> SNode) (g : DiGraph)
    (case_entry_to_switch_head : gmap Z Z) :
  set_order [] = [] ->
  (forall n, n ∈ g_nodes g ->
     case_entry_to_switch_head !! addr_of block_of n = None) ->
  _remove_crossing_edges_between_cases block_of g case_entry_to_switch_head = g.
Proof.
  intros Hempty Hnone. unfold _remove_crossing_edges_between_cases.
  assert (Hfilter :
    filter (fun n => is_Some (case_entry_to_switch_head !! addr_of block_of n))
           (g_nodes g) = []).
  { induction (g_nodes g) as [|a l IH]; [reflexivity|].
    rewrite filter_cons.
    rewrite decide_False.
    - apply IH. intros n Hn. apply Hnone, list_elem_of_further, Hn.
    - rewrite (Hnone a (list_elem_of_here _ _)). intros [? ?]. discriminate. }
  rewrite Hfilter, Hempty. reflexivity.
Qed.

Lemma crossing_edges_removal_without_entries_witness :
  @_remove_crossing_edges_between_cases Reference.graph_utils
    Examples.diamond_blocks Examples.diamond {[ 0x99%Z := 0x10%Z ]}
  = Examples.diamond.
Proof.
  apply (@crossing_edges_removal_without_entries Reference.graph_utils).
  - reflexivity.
  - intros n Hn. change (n ∈ [0; 1; 2; 3]%nat) in Hn.
    repeat (apply elem_of_cons in Hn as [->|Hn]); try (vm_compute; reflexivity).
    inversion Hn.
Defined.

(** * The conditions a call leaves behind *)

Section ConditionKeys.
Context `{Claripy} `{Sympy} `{Python} `{Ailment} `{GraphUtils}.
Variable block_of : node -> SNode.
Variable arch_bits : N.

Lemma guarding_conditions_of_keys g inverted_graph ec sorted_nodes (n : node) :
  is_Some (guarding_conditions_of g inverted_graph ec sorted_nodes !! n) ->
  n ∈ sorted_nodes /\ length (predecessors g n) = 2%nat.
Proof.
  unfold guarding_conditions_of.
  assert (Hgen : forall (l : list node) (acc : gmap node AST),
    is_Some (foldl (fun guarding the_node =>
                      match guarding_condition_of g inverted_graph ec the_node with
                      | Some cond => <[the_node := cond]> guarding
                      | None => guarding
                      end) acc l !! n) ->
    is_Some (acc !! n) \/ (n ∈ l /\ length (predecessors g n) = 2%nat)).
  { induction l as [|a l IH]; intros acc Hsome; simpl in Hsome.
    - left. exact Hsome.
    - destruct (IH _ Hsome) as [Hacc|[Hin Hlen]].
      + destruct (guarding_condition_of g inverted_graph ec a) as [c|] eqn:Eg.
        * destruct (decide (a = n)) as [->|Hne].
          -- right. split; [apply list_elem_of_here|].
             unfold guarding_condition_of in Eg.
             destruct (length (predecessors g n) =? 2)%nat eqn:El;
               [apply Nat.eqb_eq, El | discriminate].
          -- rewrite lookup_insert_ne in Hacc by exact Hne. left. exact Hacc.
        * left. exact Hacc.
      + right. split; [apply list_elem_of_further, Hin | exact Hlen]. }
  intros Hsome. destruct (Hgen _ _ Hsome) as [Hempty|Hok]; [|exact Hok].
  rewrite lookup_empty in Hempty. destruct Hempty as [? ?]. discriminate.
Qed.

(** A node that writes no entry of its own leaves its entry as it was. *)
Lemma reach_nodes_untouched g hd idoms ec cases simp (n : node) :
  (forall rc s rc1 s1,
      reach_node block_of arch_bits g hd idoms ec cases simp rc n s = (Ok rc1, s1) ->
      rc1 !! n = rc !! n) ->
  forall l rc s rc' s',
    reach_nodes block_of arch_bits g hd idoms ec cases simp l rc s = (Ok rc', s') ->
    rc' !! n = rc !! n.
Proof.
  intros Hsame l. induction l as [|m l IH]; intros rc s rc' s' Hrun;
    simpl in Hrun.
  - injection Hrun as <- _. reflexivity.
  - unfold bindM in Hrun.
    destruct (reach_node block_of arch_bits g hd idoms ec cases simp rc m s)
      as [[rc1|e] s1] eqn:E; [|discriminate].
    rewrite (IH _ _ _ _ Hrun).
    destruct (decide (n = m)) as [->|Hnm].
    + eapply Hsame; eassumption.
    + eapply reach_node_other; eassumption.
Qed.

(** The recovery of the edge conditions writes the condition mapping, the
    annotations and the exception counter only. *)
Lemma edge_conditions_keep {A} (field : ProcState -> A) region g s :
  (forall n c t, field (snd (set_mapping n c t)) = field t) ->
  (forall r tg t, field (snd (set_annotation r tg t)) = field t) ->
  (forall t, field (snd (next_exc_counter t)) = field t) ->
  field (snd (recover_edge_conditions block_of region g s)) = field s.
Proof.
  intros Hm Ha Hc.
  assert (Hr : respects (keeps field (field s))
                 (recover_edge_conditions block_of region g)).
  { apply respects_recover_edge_conditions.
    - intros n c s1 s2 [-> E]. repeat split. rewrite Hm. exact E.
    - intros r t s1 s2 [-> E]. repeat split. rewrite Ha. exact E.
    - intros s1 s2 [-> E]. repeat split. rewrite Hc. exact E. }
  destruct (Hr s s (conj eq_refl eq_refl)) as [_ [_ E]]. exact E.
Qed.
End ConditionKeys.

(** A successful call, from whatever state, leaves reaching conditions for
    nodes of the topological order only, and guarding conditions only for
    those of them that have exactly two predecessors in the working graph:
    what an earlier call stored for other nodes is gone. *)
Theorem conditions_only_for_sorted_nodes
    `{Claripy} `{Sympy} `{Python} `{Ailment} `{GraphUtils}
    (block_of : node -> SNode) (arch_bits : N) (region : Region)
    (g : option DiGraph) (ws simp : bool) (cases : option (gmap Z Z))
    (s s' : ProcState) (_g : DiGraph) (hd : node) :
  working_graph block_of region g ws cases = Ok (_g, hd) ->
  recover_reaching_conditions block_of arch_bits region g ws cases simp s
  = (Ok tt, s') ->
  forall n,
    (is_Some (reaching_conditions s' !! n) ->
     n ∈ quasi_topological_sort_nodes _g)
    /\ (is_Some (guarding_conditions s' !! n) ->
        n ∈ quasi_topological_sort_nodes _g
        /\ length (predecessors _g n) = 2%nat).
Proof.
  intros Hwg Hrun n.
  apply recover_reaching_conditions_inv in Hrun
    as (ec & s1 & _g' & hd' & rc & s2 & Hec & Hwg' & Hloop & Hrc & Hgc & _).
  rewrite Hwg in Hwg'. injection Hwg' as <- <-. split.
  - intros Hsome.
    destruct (decide (n ∈ quasi_topological_sort_nodes _g)) as [Hin|Hout];
      [exact Hin|].
    rewrite Hrc, (reach_nodes_other _ _ _ _ _ _ _ _ _ _ _ _ _ n Hloop Hout),
      lookup_empty in Hsome.
    destruct Hsome as [? ?]. discriminate.
  - rewrite Hgc. apply guarding_conditions_of_keys.
Qed.

Lemma conditions_only_for_sorted_nodes_witness :
  let s' := snd (Examples.solve Examples.diamond_blocks Examples.diamond_region
                   None true initial_state) in
  (is_Some (reaching_conditions s' !! 3%nat) -> 3%nat ∈ [0; 1; 2; 3]%nat)
  /\ (is_Some (guarding_conditions s' !! 3%nat) ->
      3%nat ∈ [0; 1; 2; 3]%nat
      /\ length (predecessors Examples.diamond 3%nat) = 2%nat).
Proof.
  intros s'.
  assert (Hrun : Examples.solve Examples.diamond_blocks Examples.diamond_region
                   None true initial_state = (Ok tt, s')).
  { subst s'.
    destruct (Examples.solve _ _ _ _ _) as [r s1] eqn:E. simpl.
    assert (Hr : fst (Examples.solve Examples.diamond_blocks
                        Examples.diamond_region None true initial_state) = Ok tt)
      by (vm_compute; reflexivity).
    rewrite E in Hr. simpl in Hr. subst r. reflexivity. }
  assert (Hwg : @working_graph Reference.graph_utils Examples.diamond_blocks
                  Examples.diamond_region None false None
                = Ok (Examples.diamond, 0%nat))
    by (vm_compute; reflexivity).
  exact (@conditions_only_for_sorted_nodes
           Reference.claripy Reference.sympy Reference.python
           Reference.ailment Reference.graph_utils
           Examples.diamond_blocks 64 Examples.diamond_region None false
           true None initial_state s' Examples.diamond 0%nat Hwg Hrun 3%nat).
Defined.

(** A node of the order that is not the head, is no jump-table entry, does
    not post-dominate the head and has no predecessor in the working graph
    (it was never linked, or the edges into it were removed as crossing
    between cases) is given no reaching condition at all. *)
Theorem node_without_predecessors_has_no_condition
    `{Claripy} `{Sympy} `{Python} `{Ailment} `{GraphUtils}
    (block_of : node -> SNode) (arch_bits : N) (region : Region)
    (g : option DiGraph) (ws simp : bool) (cases : option (gmap Z Z))
    (s s' : ProcState) (_g : DiGraph) (hd n : node) :
  working_graph block_of region g ws cases = Ok (_g, hd) ->
  recover_reaching_conditions block_of arch_bits region g ws cases simp s
  = (Ok tt, s') ->
  n <> hd ->
  switch_head_of block_of (cases_given cases) n = None ->
  match (inverted_idoms _g).2 with
  | Some i => dominates i n hd
  | None => false
  end = false ->
  predecessors _g n = [] ->
  reaching_conditions s' !! n = None.
Proof.
  intros Hwg Hrun Hhd Hentry Hdom Hpreds.
  apply recover_reaching_conditions_inv in Hrun
    as (ec & s1 & _g' & hd' & rc & s2 & Hec & Hwg' & Hloop & Hrc & _ & _).
  rewrite Hwg in Hwg'. injection Hwg' as <- <-.
  rewrite Hrc.
  assert (Hsame : forall rc0 s0 rc1 s3,
    reach_node block_of arch_bits _g hd (inverted_idoms _g).2 ec
      (cases_given cases) simp rc0 n s0 = (Ok rc1, s3) ->
    rc1 !! n = rc0 !! n).
  { intros rc0 s0 rc1 s3 Hstep.
    pose proof (reach_node_from_predecessors block_of arch_bits
                  _ _ _ _ _ _ _ _ _ _ _ Hentry Hhd Hdom Hstep) as Hfrom.
    unfold condition_from_predecessors in Hfrom.
    rewrite Hpreds in Hfrom. simpl in Hfrom. rewrite Hfrom. reflexivity. }
  rewrite (reach_nodes_untouched block_of arch_bits _ _ _ _ _ _ n Hsame
             _ _ _ _ _ Hloop).
  apply lookup_empty.
Qed.

(** A call and a return block, and a block nothing leads to. *)
Definition orphan : DiGraph :=
  {| g_nodes := [0; 1; 2]%nat; g_edges := [(0, 1, None)]%nat |}.

Definition orphan_region : Region :=
  {| head := 0%nat; graph := orphan; graph_with_successors := None |}.

Lemma node_without_predecessors_has_no_condition_witness :
  reaching_conditions
    (snd (Examples.solve Examples.landing_blocks orphan_region None true
            initial_state)) !! 2%nat = None.
Proof.
  set (s' := snd (Examples.solve Examples.landing_blocks orphan_region None true
                    initial_state)).
  assert (Hrun : Examples.solve Examples.landing_blocks orphan_region
                   None true initial_state = (Ok tt, s')).
  { subst s'.
    destruct (Examples.solve _ _ _ _ _) as [r s1] eqn:E. simpl.
    assert (Hr : fst (Examples.solve Examples.landing_blocks
                        orphan_region None true initial_state) = Ok tt)
      by (vm_compute; reflexivity).
    rewrite E in Hr. simpl in Hr. subst r. reflexivity. }
  assert (Hwg : @working_graph Reference.graph_utils Examples.landing_blocks
                  orphan_region None false None
                = Ok (orphan, 0%nat))
    by (vm_compute; reflexivity).
  apply (@node_without_predecessors_has_no_condition
           Reference.claripy Reference.sympy Reference.python
           Reference.ailment Reference.graph_utils
           Examples.landing_blocks 64 orphan_region None false
           true None initial_state s' orphan 0%nat 2%nat Hwg Hrun).
  - discriminate.
  - reflexivity.
  - vm_compute. reflexivity.
  - reflexivity.
Defined.

(** Given a graph of its own that has nodes but none without a predecessor
    (every node lies on or behind a cycle), the call recovers the edge
    conditions and then fails with [StopIteration] in the search for the
    head: the state is the one the edge conditions left, and the reaching
    and guarding conditions of the processor are not replaced. *)
Theorem graph_without_entry_raises_stop_iteration
    `{Claripy} `{Sympy} `{Python} `{Ailment} `{GraphUtils}
    (block_of : node -> SNode) (arch_bits : N) (region : Region)
    (g : DiGraph) (ws simp : bool) (cases : option (gmap Z Z))
    (s s1 : ProcState) (ec : gmap (node * node) AST) :
  g_nodes g <> [] ->
  (forall n, n ∈ g_nodes g -> in_degree g n <> 0%nat) ->
  recover_edge_conditions block_of region (Some g) s = (Ok ec, s1) ->
  recover_reaching_conditions block_of arch_bits region (Some g) ws cases
    simp s
  = (Raise StopIteration, s1)
  /\ reaching_conditions s1 = reaching_conditions s
  /\ guarding_conditions s1 = guarding_conditions s.
Proof.
  intros Hnodes Hdeg Hec. split.
  - unfold recover_reaching_conditions, bindM. rewrite Hec.
    assert (Hgiven : graph_given (Some g) = Some g).
    { unfold graph_given. destruct (g_nodes g); [contradiction|reflexivity]. }
    unfold liftM, working_graph, select_graph. rewrite Hgiven.
    assert (Hfind : find (fun n => (in_degree g n =? 0)%nat) (g_nodes g) = None).
    { clear Hnodes Hec Hgiven.
      induction (g_nodes g) as [|x r IH]; [reflexivity|]. simpl.
      destruct (in_degree g x =? 0)%nat eqn:Ed.
      - apply Nat.eqb_eq in Ed.
        destruct (Hdeg x (list_elem_of_here _ _) Ed).
      - apply IH. intros n Hn. apply Hdeg, list_elem_of_further, Hn. }
    rewrite Hfind. reflexivity.
  - assert (Hs1 : s1 = snd (recover_edge_conditions block_of region (Some g) s))
      by (rewrite Hec; reflexivity).
    rewrite Hs1. split; apply edge_conditions_keep; reflexivity.
Qed.

(** Two blocks that jump to each other. *)
Definition two_cycle : DiGraph :=
  {| g_nodes := [1; 2]%nat; g_edges := [(1, 2, None); (2, 1, None)]%nat |}.

Lemma graph_without_entry_raises_stop_iteration_witness :
  let run :=
    @recover_edge_conditions Reference.claripy Reference.python
      Reference.ailment Examples.diamond_blocks Examples.diamond_region
      (Some two_cycle) initial_state in
  @recover_reaching_conditions Reference.claripy Reference.sympy
    Reference.python Reference.ailment Reference.graph_utils
    Examples.diamond_blocks 64 Examples.diamond_region (Some two_cycle)
    false None true initial_state
  = (Raise StopIteration, snd run)
  /\ reaching_conditions (snd run) = reaching_conditions initial_state
  /\ guarding_conditions (snd run) = guarding_conditions initial_state.
Proof.
  intros run.
  assert (Hec : exists ec, run = (Ok ec, snd run)).
  { subst run.
    destruct (recover_edge_conditions _ _ _ _) as [r s1] eqn:E.
    assert (Hr : is_Ok
              (fst (@recover_edge_conditions Reference.claripy Reference.python
                      Reference.ailment Examples.diamond_blocks
                      Examples.diamond_region (Some two_cycle) initial_state))
              = true)
      by (vm_compute; reflexivity).
    rewrite E in Hr. simpl in Hr. destruct r as [ec|e]; [|discriminate].
    exists ec. reflexivity. }
  destruct Hec as [ec Hec].
  apply (@graph_without_entry_raises_stop_iteration
           Reference.claripy Reference.sympy Reference.python
           Reference.ailment Reference.graph_utils
           Examples.diamond_blocks 64 Examples.diamond_region two_cycle
           false true None initial_state (snd run) ec).
  - discriminate.
  - intros n Hn. change (n ∈ [1; 2]%nat) in Hn.
    repeat (apply elem_of_cons in Hn as [->|Hn]); try (vm_compute; discriminate).
    inversion Hn.
  - exact Hec.
Defined.

(** * The translation to sympy and back *)

Section SympyExpr_induction.
Variable P : SympyExpr -> Prop.
Hypothesis HSymbol : forall n, P (SSymbol n).
Hypothesis HAnd : forall l, Forall P l -> P (SAnd l).
Hypothesis HOr : forall l, Forall P l -> P (SOr l).
Hypothesis HNot : forall e, P e -> P (SNot e).
Hypothesis HTrue : P STrue.
Hypothesis HFalse : P SFalse.
Hypothesis HOther : forall t, P (SOther t).

Fixpoint SympyExpr_ind' (e : SympyExpr) : P e :=
  let all :=
    fix go (l : list SympyExpr) : Forall P l :=
      match l with
      | [] => Forall_nil_2 P
      | x :: r => Forall_cons_2 P x r (SympyExpr_ind' x) (go r)
      end in
  match e with
  | SSymbol n => HSymbol n
  | SAnd l => HAnd l (all l)
  | SOr l => HOr l (all l)
  | SNot e => HNot e (SympyExpr_ind' e)
  | STrue => HTrue
  | SFalse => HFalse
  | SOther t => HOther t
  end.
End SympyExpr_induction.

(** The value of a sympy expression when each symbol stands for the term
    the memo gives it (a symbol the memo does not know counts as false, as
    does an expression of another kind). *)
Fixpoint sympy_value (ρ : Env) (memo : gmap string AST) (e : SympyExpr) : bool :=
  match e with
  | SSymbol name =>
      match memo !! name with Some a => eval ρ a | None => false end
  | SAnd l => forallb (sympy_value ρ memo) l
  | SOr l => existsb (sympy_value ρ memo) l
  | SNot e => negb (sympy_value ρ memo e)
  | STrue => true
  | SFalse => false
  | SOther _ => false
  end.

(** A condition whose boolean structure the translation follows to the
    end: negations have one argument and no leaf of the structure is one of
    the comparisons the translation turns round. *)
Fixpoint plain (a : AST) : bool :=
  match a with
  | Node o l =>
      if (o =? "And") || (o =? "Or") then forallb plain l
      else if o =? "Not" then
        match l with [x] => plain x | _ => false end
      else negb (str_in o _UNIFIABLE_COMPARISONS)
  | _ => true
  end.

Lemma forallb_maps {A B} (f : A -> bool) (f' : B -> bool) l l' :
  map f l = map f' l' -> forallb f l = forallb f' l'.
Proof.
  revert l'. induction l as [|x r IH]; intros [|y r'] E; try discriminate;
    [reflexivity|].
  simpl in *. injection E as -> Er. rewrite (IH _ Er). reflexivity.
Qed.

Lemma existsb_maps {A B} (f : A -> bool) (f' : B -> bool) l l' :
  map f l = map f' l' -> existsb f l = existsb f' l'.
Proof.
  revert l'. induction l as [|x r IH]; intros [|y r'] E; try discriminate;
    [reflexivity|].
  simpl in *. injection E as -> Er. rewrite (IH _ Er). reflexivity.
Qed.

Section BackTranslation.
Context `{Claripy} `{!ClaripySound}.

(** The loop over the arguments of a sympy conjunction or disjunction. *)
Definition back_each (memo : gmap string AST)
    : list SympyExpr -> result (list AST) :=
  fix each (l : list SympyExpr) : result (list AST) :=
    match l with
    | [] => Ok []
    | e :: r =>
        match sympy_expr_to_claripy_ast e memo with
        | Raise x => Raise x
        | Ok a => match each r with Raise x => Raise x | Ok l' => Ok (a :: l') end
        end
    end.

Lemma back_each_value ρ memo l :
  Forall (fun e => forall a, sympy_expr_to_claripy_ast e memo = Ok a ->
                             eval ρ a = sympy_value ρ memo e) l ->
  forall l', back_each memo l = Ok l' ->
             map (eval ρ) l' = map (sympy_value ρ memo) l.
Proof.
  induction 1 as [|e r He _ IH]; intros l' Hrun; simpl in Hrun.
  - injection Hrun as <-. reflexivity.
  - destruct (sympy_expr_to_claripy_ast e memo) as [a|x] eqn:Ea; [|discriminate].
    destruct (back_each memo r) as [l0|x] eqn:Er; [|discriminate].
    injection Hrun as <-. simpl. rewrite (He a eq_refl), (IH l0 eq_refl).
    reflexivity.
Qed.

Lemma back_each_errors memo l :
  Forall (fun e => forall x, sympy_expr_to_claripy_ast e memo = Raise x ->
                             x = KeyError \/ x = AngrRuntimeError) l ->
  forall x, back_each memo l = Raise x -> x = KeyError \/ x = AngrRuntimeError.
Proof.
  induction 1 as [|e r He _ IH]; intros x Hrun; simpl in Hrun; [discriminate|].
  destruct (sympy_expr_to_claripy_ast e memo) as [a|y] eqn:Ea.
  - destruct (back_each memo r) as [l0|y] eqn:Er; [discriminate|].
    injection Hrun as <-. apply IH. reflexivity.
  - injection Hrun as <-. apply He. reflexivity.
Qed.

(** The term built from a sympy expression has the value of the
    expression. *)
Lemma sympy_expr_to_claripy_ast_value ρ memo e a :
  sympy_expr_to_claripy_ast e memo = Ok a -> eval ρ a = sympy_value ρ memo e.
Proof.
  revert a. induction e as [n|l IH|l IH|e IH| | |t] using SympyExpr_ind';
    intros a Hrun.
  - simpl in Hrun. simpl. destruct (memo !! n); [|discriminate].
    injection Hrun as <-. reflexivity.
  - change (sympy_expr_to_claripy_ast (SAnd l) memo)
      with (l' ← back_each memo l; Ok (claripy_And l')) in Hrun.
    destruct (back_each memo l) as [l'|x] eqn:El; [|discriminate].
    injection Hrun as <-. rewrite eval_claripy_And. simpl.
    apply forallb_maps, (back_each_value ρ memo l IH l' El).
  - change (sympy_expr_to_claripy_ast (SOr l) memo)
      with (l' ← back_each memo l; Ok (claripy_Or l')) in Hrun.
    destruct (back_each memo l) as [l'|x] eqn:El; [|discriminate].
    injection Hrun as <-. rewrite eval_claripy_Or. simpl.
    apply existsb_maps, (back_each_value ρ memo l IH l' El).
  - simpl in Hrun. destruct (sympy_expr_to_claripy_ast e memo) as [b|x] eqn:Eb;
      [|discriminate].
    injection Hrun as <-. rewrite eval_claripy_Not, (IH b eq_refl). reflexivity.
  - injection Hrun as <-. reflexivity.
  - injection Hrun as <-. reflexivity.
  - discriminate.
Qed.

(** The translation back fails on a symbol the memo does not know, with
    [KeyError], or on an expression of another kind, with
    [AngrRuntimeError], and in no other way. *)
Lemma sympy_expr_to_claripy_ast_errors memo e x :
  sympy_expr_to_claripy_ast e memo = Raise x ->
  x = KeyError \/ x = AngrRuntimeError.
Proof.
  revert x. induction e as [n|l IH|l IH|e IH| | |t] using SympyExpr_ind';
    intros x Hrun.
  - simpl in Hrun. destruct (memo !! n); [discriminate|].
    injection Hrun as <-. left. reflexivity.
  - change (sympy_expr_to_claripy_ast (SAnd l) memo)
      with (l' ← back_each memo l; Ok (claripy_And l')) in Hrun.
    destruct (back_each memo l) as [l'|y] eqn:El; [discriminate|].
    injection Hrun as <-. exact (back_each_errors memo l IH y El).
  - change (sympy_expr_to_claripy_ast (SOr l) memo)
      with (l' ← back_each memo l; Ok (claripy_Or l')) in Hrun.
    destruct (back_each memo l) as [l'|y] eqn:El; [discriminate|].
    injection Hrun as <-. exact (back_each_errors memo l IH y El).
  - simpl in Hrun. destruct (sympy_expr_to_claripy_ast e memo) as [b|y] eqn:Eb;
      [discriminate|].
    injection Hrun as <-. apply IH. reflexivity.
  - discriminate.
  - discriminate.
  - injection Hrun as <-. right. reflexivity.
Qed.
End BackTranslation.

Section ForwardTranslation.
Context `{Claripy} `{Sympy} `{Python} `{!ClaripySound}.

(** What is assumed of sympy's constructors: each builds an expression with
    the value of its operation, whatever the symbols stand for. *)
Hypothesis sympy_And_value : forall ρ memo l,
  sympy_value ρ memo (sympy_And l) = forallb (sympy_value ρ memo) l.
Hypothesis sympy_Or_value : forall ρ memo l,
  sympy_value ρ memo (sympy_Or l) = existsb (sympy_value ρ memo) l.
Hypothesis sympy_Not_value : forall ρ memo e,
  sympy_value ρ memo (sympy_Not e) = negb (sympy_value ρ memo e).

(** The leaves of the condition at hand get distinct symbol names. *)
Variable atoms : list AST.
Hypothesis names_distinct : forall a b,
  a ∈ atoms -> b ∈ atoms ->
  py_str (ast_hash a) = py_str (ast_hash b) -> a = b.

(** Every entry of the memo is a leaf under its own name. *)
Definition memo_ok (memo : gmap string AST) : Prop :=
  forall n a, memo !! n = Some a -> a ∈ atoms /\ n = py_str (ast_hash a).

(** The loop over the arguments of a conjunction or disjunction. *)
Definition forward_each (fuel : nat)
    : list AST -> gmap string AST -> result (list SympyExpr * gmap string AST) :=
  fix each (l : list AST) (memo : gmap string AST) :=
    match l with
    | [] => Ok ([], memo)
    | a :: r =>
        match claripy_ast_to_sympy_expr fuel a memo with
        | Raise e => Raise e
        | Ok (e, memo) =>
            match each r memo with
            | Raise e' => Raise e'
            | Ok (es, memo) => Ok (e :: es, memo)
            end
        end
    end.

Lemma claripy_ast_to_sympy_expr_eq fuel ast memo :
  claripy_ast_to_sympy_expr (S fuel) ast memo
  = if op ast =? "And" then
      '(es, memo) ← forward_each fuel (args ast) memo; Ok (sympy_And es, memo)
    else if op ast =? "Or" then
      '(es, memo) ← forward_each fuel (args ast) memo; Ok (sympy_Or es, memo)
    else if op ast =? "Not" then
      match args ast with
      | [] => Raise IndexError
      | a :: _ =>
          '(e, memo) ← claripy_ast_to_sympy_expr fuel a memo;
          Ok (sympy_Not e, memo)
      end
    else if str_in (op ast) _UNIFIABLE_COMPARISONS then
      match assoc_get (op ast) _INVERSE_OPERATIONS, args ast with
      | None, _ => Raise KeyError
      | Some inverse_op, a0 :: a1 :: _ =>
          '(e, memo) ←
            claripy_ast_to_sympy_expr fuel (claripy_op inverse_op [a0; a1]) memo;
          Ok (sympy_Not e, memo)
      | Some _, _ => Raise IndexError
      end
    else
      let name := py_str (ast_hash ast) in
      Ok (SSymbol name, <[name := ast]> memo).
Proof. reflexivity. Qed.

(** What a successful translation of [ast] from [memo] is to give. *)
Definition translated (ast : AST) (memo : gmap string AST)
    (r : result (SympyExpr * gmap string AST)) : Prop :=
  exists e memo',
    r = Ok (e, memo') /\ memo_ok memo' /\ memo ⊆ memo'
    /\ forall ρ memo'', memo' ⊆ memo'' ->
                        sympy_value ρ memo'' e = eval ρ ast.

Lemma translated_symbol ast memo :
  ast ∈ atoms -> memo_ok memo ->
  translated ast memo
    (Ok (SSymbol (py_str (ast_hash ast)), <[py_str (ast_hash ast) := ast]> memo)).
Proof.
  intros Hatom Hok. eexists _, _. split; [reflexivity|]. split; [|split].
  - intros n a Hn. destruct (decide (n = py_str (ast_hash ast))) as [->|Hne].
    + rewrite lookup_insert_eq in Hn. injection Hn as <-. auto.
    + rewrite lookup_insert_ne in Hn by congruence. apply Hok, Hn.
  - destruct (memo !! py_str (ast_hash ast)) as [a|] eqn:El.
    + destruct (Hok _ _ El) as [Ha Hname].
      assert (a = ast)
        by (apply names_distinct; [assumption|assumption|symmetry; assumption]).
      subst a.
      rewrite insert_id by exact El. reflexivity.
    + apply insert_subseteq, El.
  - intros ρ memo'' Hsub. simpl.
    rewrite (lookup_weaken _ _ _ _ (lookup_insert_eq memo _ ast) Hsub).
    reflexivity.
Qed.

Lemma max_list_le (l : list nat) (x : nat) : x ∈ l -> x <= max_list l.
Proof.
  induction 1 as [x l|x y l _ IH]; simpl; lia.
Qed.

Lemma forward_each_ok fuel l :
  Forall (fun a => forall memo, memo_ok memo ->
            translated a memo (claripy_ast_to_sympy_expr fuel a memo)) l ->
  forall memo, memo_ok memo ->
  exists es memo',
    forward_each fuel l memo = Ok (es, memo') /\ memo_ok memo' /\ memo ⊆ memo'
    /\ forall ρ memo'', memo' ⊆ memo'' ->
         map (sympy_value ρ memo'') es = map (eval ρ) l.
Proof.
  induction 1 as [|a r Ha _ IH]; intros memo Hok.
  - exists [], memo. split; [reflexivity|]. split; [exact Hok|].
    split; [reflexivity|]. intros ρ memo'' _. reflexivity.
  - destruct (Ha memo Hok) as (e & memo1 & He & Hok1 & Hsub1 & Hval1).
    destruct (IH memo1 Hok1) as (es & memo2 & Hes & Hok2 & Hsub2 & Hval2).
    exists (e :: es), memo2. simpl. rewrite He, Hes.
    split; [reflexivity|]. split; [exact Hok2|].
    split; [etransitivity; eassumption|].
    intros ρ memo'' Hsub. simpl.
    rewrite (Hval1 ρ memo'' ltac:(etransitivity; eassumption)),
      (Hval2 ρ memo'' Hsub).
    reflexivity.
Qed.

(** The translation of a plain condition whose leaves are among [atoms]
    succeeds within a recursion limit of its depth, extends the memo by
    leaves only, and gives an expression with the value of the condition. *)
Lemma claripy_ast_to_sympy_expr_ok fuel ast memo :
  depth ast <= fuel -> plain ast = true ->
  (forall a, a ∈ _extract_terms ast -> a ∈ atoms) ->
  memo_ok memo ->
  translated ast memo (claripy_ast_to_sympy_expr fuel ast memo).
Proof.
  revert ast memo. induction fuel as [|fuel IHf]; intros ast memo Hd Hp Hat Hok.
  { destruct ast; simpl in Hd; lia. }
  rewrite claripy_ast_to_sympy_expr_eq.
  assert (Hleaf : op ast <> "And" -> op ast <> "Or" -> op ast <> "Not" ->
                  _extract_terms ast = [ast]).
  { destruct ast as [b|n|v w|n w|o l]; try reflexivity. simpl.
    intros Ha Ho Hn. apply String.eqb_neq in Ha, Ho, Hn.
    rewrite Ha, Ho, Hn. reflexivity. }
  destruct (op ast =? "And") eqn:Ea.
  { destruct ast as [b|n|v w|n w|o l]; try discriminate. simpl in Ea |- *.
    simpl in Hp, Hat. rewrite Ea in Hp, Hat. simpl in Hp, Hat.
    assert (Hall : Forall (fun a => forall memo, memo_ok memo ->
                     translated a memo (claripy_ast_to_sympy_expr fuel a memo)) l).
    { apply Forall_forall. intros a Ha memo0 Hok0. apply IHf.
      - simpl in Hd. pose proof (max_list_le (map depth l) (depth a)
                                   ltac:(apply list_elem_of_fmap; eauto)). lia.
      - rewrite forallb_forall in Hp. apply Hp, list_elem_of_In, Ha.
      - intros x Hx. apply Hat. apply list_elem_of_In, in_flat_map.
        exists a. split; apply list_elem_of_In; assumption.
      - exact Hok0. }
    destruct (forward_each_ok fuel l Hall memo Hok)
      as (es & memo' & Hes & Hok' & Hsub & Hval).
    rewrite Hes. exists (sympy_And es), memo'. split; [reflexivity|].
    split; [exact Hok'|]. split; [exact Hsub|].
    intros ρ memo'' Hsub'. rewrite sympy_And_value.
    apply String.eqb_eq in Ea. subst o. simpl.
    apply forallb_maps, Hval, Hsub'. }
  destruct (op ast =? "Or") eqn:Eo.
  { destruct ast as [b|n|v w|n w|o l]; try discriminate. simpl in Ea, Eo |- *.
    simpl in Hp, Hat. rewrite Ea, Eo in Hp, Hat. simpl in Hp, Hat.
    assert (Hall : Forall (fun a => forall memo, memo_ok memo ->
                     translated a memo (claripy_ast_to_sympy_expr fuel a memo)) l).
    { apply Forall_forall. intros a Ha memo0 Hok0. apply IHf.
      - simpl in Hd. pose proof (max_list_le (map depth l) (depth a)
                                   ltac:(apply list_elem_of_fmap; eauto)). lia.
      - rewrite forallb_forall in Hp. apply Hp, list_elem_of_In, Ha.
      - intros x Hx. apply Hat. apply list_elem_of_In, in_flat_map.
        exists a. split; apply list_elem_of_In; assumption.
      - exact Hok0. }
    destruct (forward_each_ok fuel l Hall memo Hok)
      as (es & memo' & Hes & Hok' & Hsub & Hval).
    rewrite Hes. exists (sympy_Or es), memo'. split; [reflexivity|].
    split; [exact Hok'|]. split; [exact Hsub|].
    intros ρ memo'' Hsub'. rewrite sympy_Or_value.
    apply String.eqb_eq in Eo. subst o. simpl.
    apply existsb_maps, Hval, Hsub'. }
  destruct (op ast =? "Not") eqn:En.
  { destruct ast as [b|n|v w|n w|o l]; try discriminate. simpl in Ea, Eo, En |- *.
    simpl in Hp, Hat. rewrite Ea, Eo, En in Hp, Hat. simpl in Hp, Hat.
    destruct l as [|x [|y r]]; try discriminate.
    assert (Hx : translated x memo (claripy_ast_to_sympy_expr fuel x memo)).
    { apply IHf; [|exact Hp|exact Hat|exact Hok].
      simpl in Hd. lia. }
    destruct Hx as (e & memo' & He & Hok' & Hsub & Hval).
    rewrite He. exists (sympy_Not e), memo'. split; [reflexivity|].
    split; [exact Hok'|]. split; [exact Hsub|].
    intros ρ memo'' Hsub'. rewrite sympy_Not_value, (Hval ρ memo'' Hsub').
    apply String.eqb_eq in En. subst o. reflexivity. }
  apply String.eqb_neq in Ea, Eo, En.
  assert (Hu : str_in (op ast) _UNIFIABLE_COMPARISONS = false).
  { destruct ast as [b|n|v w|n w|o l]; try reflexivity. simpl in *.
    apply String.eqb_neq in Ea, Eo, En. rewrite Ea, Eo, En in Hp. simpl in Hp.
    apply negb_true_iff, Hp. }
  rewrite Hu. cbv zeta. apply translated_symbol; [|exact Hok].
  apply Hat. rewrite (Hleaf Ea Eo En). apply list_elem_of_here.
Qed.
End ForwardTranslation.

(** When sympy's constructors and its minimization keep the value of an
    expression, [simplify_condition] keeps the value of a plain condition
    whose leaves have distinct names: the two translations are inverse to
    each other up to the value. The call can fail in the translation back
    only, on what the minimization returns. *)
Theorem simplify_condition_keeps_value
    `{Claripy} `{Sympy} `{Python} `{!ClaripySound} (cond : AST) :
  plain cond = true ->
  8 <= recursion_limit ->
  (forall a b, a ∈ _extract_terms cond -> b ∈ _extract_terms cond ->
     py_str (ast_hash a) = py_str (ast_hash b) -> a = b) ->
  (forall ρ memo l,
     sympy_value ρ memo (sympy_And l) = forallb (sympy_value ρ memo) l) ->
  (forall ρ memo l,
     sympy_value ρ memo (sympy_Or l) = existsb (sympy_value ρ memo) l) ->
  (forall ρ memo e,
     sympy_value ρ memo (sympy_Not e) = negb (sympy_value ρ memo e)) ->
  (forall ρ memo e,
     sympy_value ρ memo (simplify_logic e) = sympy_value ρ memo e) ->
  match simplify_condition cond with
  | Ok result => forall ρ, eval ρ result = eval ρ cond
  | Raise e => e = KeyError \/ e = AngrRuntimeError
  end.
Proof.
  intros Hplain Hlimit Hnames HAnd HOr HNot Hsimp.
  unfold simplify_condition, simplify_condition_with, simplify_condition_calls.
  destruct ((8 <? depth cond)%nat || (8 <? size (variables cond))%nat) eqn:Eg.
  { simpl. reflexivity. }
  apply orb_false_iff in Eg as [Ed _]. apply Nat.ltb_ge in Ed.
  destruct (claripy_ast_to_sympy_expr_ok HAnd HOr HNot (_extract_terms cond)
              Hnames recursion_limit cond ∅ ltac:(lia) Hplain
              ltac:(auto) ltac:(intros n a Hn; rewrite lookup_empty in Hn;
                                discriminate))
    as (e & memo & He & _ & _ & Hval).
  rewrite He. simpl.
  destruct (sympy_expr_to_claripy_ast (simplify_logic e) memo) as [a|x] eqn:Eb.
  - intros ρ.
    rewrite (sympy_expr_to_claripy_ast_value ρ memo _ a Eb), Hsimp.
    apply Hval. reflexivity.
  - exact (sympy_expr_to_claripy_ast_errors memo _ x Eb).
Qed.

Lemma simplify_condition_keeps_value_witness :
  exists result,
    @simplify_condition Reference.claripy Reference.sympy Reference.python
      (Node "Or" [Node "Not" [BoolS "A"];
                  Node "And" [BoolS "A"; Node "Not" [BoolS "B"]]])
    = Ok result
    /\ forall ρ,
         eval ρ result
         = eval ρ (Node "Or" [Node "Not" [BoolS "A"];
                              Node "And" [BoolS "A"; Node "Not" [BoolS "B"]]]).
Proof.
  assert (Hkeeps := @simplify_condition_keeps_value Reference.claripy
                      Reference.sympy Reference.python Reference.claripy_sound
                      (Node "Or" [Node "Not" [BoolS "A"];
                                  Node "And" [BoolS "A"; Node "Not" [BoolS "B"]]])).
  destruct (@simplify_condition Reference.claripy Reference.sympy
              Reference.python
              (Node "Or" [Node "Not" [BoolS "A"];
                          Node "And" [BoolS "A"; Node "Not" [BoolS "B"]]]))
    as [result|e] eqn:Erun.
  2:{ vm_compute in Erun. discriminate. }
  exists result. split; [reflexivity|].
  apply Hkeeps.
  - reflexivity.
  - change (8 <= 1000). lia.
  - intros a b Ha Hb.
    change (a ∈ [BoolS "A"; BoolS "A"; BoolS "B"]) in Ha.
    change (b ∈ [BoolS "A"; BoolS "A"; BoolS "B"]) in Hb.
    repeat (apply elem_of_cons in Ha as [->|Ha]);
      repeat (apply elem_of_cons in Hb as [->|Hb]);
      try (inversion Ha; fail); try (inversion Hb; fail);
      intros E; try reflexivity; vm_compute in E; discriminate.
  - reflexivity.
  - reflexivity.
  - reflexivity.
  - reflexivity.
Defined.

(** * Trivial cases, opposite edges and common subexpressions *)

(** A claripy that simplifies nothing, knows the constant true only and
    cannot take the truth value of an equation. *)
Definition reference_queries : ClaripyQueries :=
  {| claripy_simplify := fun a => a;
     claripy_is_true := fun a => bool_decide (a = BoolV true);
     ast_eq_truth := fun _ _ => None |}.



(** When [src] is a node of the graph with exactly two successors, among
    them [dst0] and [dst1], and the statement that ends its block (the
    conditional jump before the last statement in a block of a
    head-controlled loop, the last statement otherwise) is a conditional
    jump, [have_opposite_edge_conditions] answers yes at once: no condition
    is translated and the state of the processor is left as it is, whatever
    the targets of the jump and the types of the two edges are. *)
Theorem conditional_jump_short_cut
    `{Claripy} `{Python} `{Ailment} `{ClaripyQueries}
    (block_of : node -> SNode) (g : DiGraph) (src dst0 dst1 : node)
    (condition : Expr) (true_target false_target : option Expr)
    (ins_addr : Z) (s : ProcState) :
  src ∈ g_nodes g ->
  out_degree g src = 2%nat ->
  dst0 ∈ successors g src ->
  dst1 ∈ successors g src ->
  locate_terminator (block_of src)
  = Ok (Some (ConditionalJump condition true_target false_target ins_addr)) ->
  have_opposite_edge_conditions block_of g src dst0 dst1 s = (Ok true, s).
Proof.
  intros Hsrc Hdeg H0' H1' Hlast. unfold have_opposite_edge_conditions, has_edge.
  rewrite (bool_decide_eq_true_2 _ Hsrc), Hdeg,
    (bool_decide_eq_true_2 _ H0'), (bool_decide_eq_true_2 _ H1').
  simpl. unfold bindM, liftM. rewrite Hlast. reflexivity.
Qed.

Lemma conditional_jump_short_cut_witness :
  @have_opposite_edge_conditions Reference.claripy Reference.python
    Reference.ailment reference_queries Examples.diamond_blocks
    Examples.diamond 0%nat 1%nat 2%nat initial_state
  = (Ok true, initial_state)
  /\ @have_opposite_edge_conditions Reference.claripy Reference.python
       Reference.ailment reference_queries Examples.loop_blocks
       Examples.diamond 0%nat 1%nat 2%nat initial_state
     = (Ok true, initial_state).
Proof.
  split.
  - apply (@conditional_jump_short_cut Reference.claripy Reference.python
             Reference.ailment reference_queries Examples.diamond_blocks
             Examples.diamond 0%nat 1%nat 2%nat Examples.branch_condition
             (Some (Const None (VInt 0x20) 64))
             (Some (Const None (VInt 0x30) 64)) 0x14 initial_state).
    + apply list_elem_of_here.
    + reflexivity.
    + apply list_elem_of_here.
    + apply list_elem_of_further, list_elem_of_here.
    + reflexivity.
  - apply (@conditional_jump_short_cut Reference.claripy Reference.python
             Reference.ailment reference_queries Examples.loop_blocks
             Examples.diamond 0%nat 1%nat 2%nat Examples.branch_condition
             (Some (Const None (VInt 0x20) 64))
             (Some (Const None (VInt 0x30) 64)) 0x14 initial_state).
    + apply list_elem_of_here.
    + reflexivity.
    + apply list_elem_of_here.
    + apply list_elem_of_further, list_elem_of_here.
    + reflexivity.
Defined.

(** * Common subexpressions of a disjunction *)

Section CommonFacts.
Context `{Claripy} `{!ClaripySound} `{ClaripyQueries}.

(** What a disjunct contributes to the counters: the arguments of a
    conjunction, anything else itself. *)
Definition subexprs (arg : AST) : list AST :=
  if op arg =? "And" then args arg else [arg].

(** The counters as a function of their keys, and the increment without
    the comparisons of keys that share a hash. *)
Fixpoint cnt (d : list (AST * nat)) (e : AST) : nat :=
  match d with
  | [] => 0
  | (k', c) :: r => if decide (k' = e) then c else cnt r e
  end.

Fixpoint incr (k : AST) (d : list (AST * nat)) : list (AST * nat) :=
  match d with
  | [] => [(k, 1)]
  | (k', c) :: r =>
      if decide (k' = k) then (k', S c) :: r else (k', c) :: incr k r
  end.

Definition incr_all (ks : list AST) (d : list (AST * nat)) : list (AST * nat) :=
  foldl (fun d k => incr k d) d ks.

Definition occurrences (e : AST) (ks : list AST) : nat :=
  length (filter (fun x => x = e) ks).

Definition common_of (d : list (AST * nat)) (n : nat) : list AST :=
  map fst (List.filter (fun '(_, ctr) => (ctr =? n)%nat) d).

Lemma count_expr_incr k d :
  (forall k', k' ∈ d.*1 -> ast_hash k' = ast_hash k -> k' = k) ->
  count_expr k d = Returns (incr k d).
Proof.
  induction d as [|[k' c] r IH]; intros Hhash; [reflexivity|]. simpl.
  destruct (decide (k' = k)) as [E|E]; [reflexivity|].
  destruct (Z.eqb_spec (ast_hash k') (ast_hash k)) as [Eh|_].
  { destruct E. apply Hhash; [apply list_elem_of_here|exact Eh]. }
  rewrite IH; [reflexivity|].
  intros k'' Hin. apply Hhash. apply list_elem_of_further, Hin.
Qed.

Lemma cnt_incr k d e :
  cnt (incr k d) e = cnt d e + (if decide (e = k) then 1 else 0).
Proof.
  induction d as [|[k' c] r IH]; simpl.
  - destruct (decide (k = e)), (decide (e = k)); congruence.
  - destruct (decide (k' = k)) as [->|Hk]; simpl.
    + destruct (decide (k = e)), (decide (e = k)); try congruence; lia.
    + destruct (decide (k' = e)) as [->|He].
      * destruct (decide (e = k)); [congruence|lia].
      * apply IH.
Qed.

Lemma keys_incr k d (e : AST) :
  e ∈ (incr k d).*1 <-> e = k \/ e ∈ d.*1.
Proof.
  induction d as [|[k' c] r IH]; simpl.
  - rewrite list_elem_of_singleton. split; [auto|].
    intros [E|E]; [exact E|inversion E].
  - destruct (decide (k' = k)) as [->|Hk]; simpl.
    + rewrite elem_of_cons. tauto.
    + rewrite !elem_of_cons, IH. tauto.
Qed.

Lemma NoDup_incr k d : NoDup d.*1 -> NoDup (incr k d).*1.
Proof.
  induction d as [|[k' c] r IH]; simpl; intros Hnd.
  - apply NoDup_singleton.
  - destruct (decide (k' = k)) as [->|Hk]; simpl; [exact Hnd|].
    apply NoDup_cons in Hnd as [Hnot Hnd]. apply NoDup_cons. split.
    + rewrite keys_incr. intros [E|E]; [congruence|contradiction].
    + apply IH, Hnd.
Qed.

Lemma cnt_incr_all ks d e :
  cnt (incr_all ks d) e = cnt d e + occurrences e ks.
Proof.
  revert d. induction ks as [|k r IH]; intros d; simpl.
  - unfold occurrences. simpl. lia.
  - unfold incr_all in *. simpl. rewrite IH, cnt_incr. unfold occurrences.
    rewrite filter_cons. destruct (decide (e = k)) as [->|He].
    + rewrite decide_True by reflexivity. simpl. lia.
    + rewrite decide_False by congruence. lia.
Qed.

Lemma keys_incr_all ks d (e : AST) :
  e ∈ (incr_all ks d).*1 <-> e ∈ d.*1 \/ e ∈ ks.
Proof.
  revert d. induction ks as [|k r IH]; intros d; unfold incr_all in *; simpl.
  - split; [auto|]. intros [E|E]; [exact E|inversion E].
  - rewrite IH, keys_incr, elem_of_cons. tauto.
Qed.

Lemma NoDup_incr_all ks d : NoDup d.*1 -> NoDup (incr_all ks d).*1.
Proof.
  revert d. induction ks as [|k r IH]; intros d Hnd; unfold incr_all in *;
    simpl; [exact Hnd|].
  apply IH, NoDup_incr, Hnd.
Qed.

Section Counting.
Variable universe : list AST.
Hypothesis hashes_distinct : forall a b,
  a ∈ universe -> b ∈ universe -> ast_hash a = ast_hash b -> a = b.

Lemma count_exprs_incr ks d :
  (forall e, e ∈ d.*1 -> e ∈ universe) ->
  (forall e, e ∈ ks -> e ∈ universe) ->
  count_exprs ks d = Returns (incr_all ks d).
Proof.
  revert d. induction ks as [|k r IH]; intros d Hd Hks; [reflexivity|].
  simpl. rewrite count_expr_incr.
  - simpl. unfold incr_all. simpl. apply IH.
    + intros e He. apply keys_incr in He as [->|He];
        [apply Hks, list_elem_of_here | apply Hd, He].
    + intros e He. apply Hks, list_elem_of_further, He.
  - intros k' Hk' Eh. apply hashes_distinct;
      [apply Hd, Hk' | apply Hks, list_elem_of_here | exact Eh].
Qed.

Lemma count_args_incr arguments d :
  (forall e, e ∈ d.*1 -> e ∈ universe) ->
  (forall e, e ∈ flat_map subexprs arguments -> e ∈ universe) ->
  count_args arguments d
  = Returns (incr_all (flat_map subexprs arguments) d).
Proof.
  revert d. induction arguments as [|arg r IH]; intros d Hd Hks;
    [reflexivity|].
  simpl.
  assert (Hone : (if op arg =? "And" then count_exprs (args arg) d
                  else count_expr arg d)
                 = Returns (incr_all (subexprs arg) d)).
  { unfold subexprs. destruct (op arg =? "And") eqn:Ea.
    - apply count_exprs_incr; [exact Hd|].
      intros e He. apply Hks. simpl. unfold subexprs at 1. rewrite Ea.
      apply elem_of_app. left. exact He.
    - rewrite count_expr_incr; [reflexivity|].
      intros k' Hk' Eh. apply hashes_distinct; [apply Hd, Hk'| |exact Eh].
      apply Hks. simpl. unfold subexprs at 1. rewrite Ea.
      apply list_elem_of_here. }
  rewrite Hone. simpl. rewrite IH.
  - unfold incr_all. rewrite foldl_app. reflexivity.
  - intros e He. apply keys_incr_all in He as [He|He]; [apply Hd, He|].
    apply Hks. simpl. apply elem_of_app. left. exact He.
  - intros e He. apply Hks. simpl. apply elem_of_app. right. exact He.
Qed.
End Counting.

Lemma cnt_entry d (e : AST) (c : nat) :
  NoDup d.*1 -> (e, c) ∈ d -> cnt d e = c.
Proof.
  induction d as [|[k' c'] r IH]; intros Hnd Hin; [inversion Hin|].
  simpl in *. apply NoDup_cons in Hnd as [Hnot Hnd].
  apply elem_of_cons in Hin as [E|Hin].
  - injection E as -> ->. rewrite decide_True by reflexivity. reflexivity.
  - destruct (decide (k' = e)) as [->|_]; [|apply IH; assumption].
    destruct Hnot. apply list_elem_of_fmap. exists (e, c). split; [reflexivity|exact Hin].
Qed.

Lemma entry_cnt d (e : AST) : e ∈ d.*1 -> (e, cnt d e) ∈ d.
Proof.
  induction d as [|[k' c'] r IH]; intros Hin; [inversion Hin|].
  simpl in *. destruct (decide (k' = e)) as [->|Hne].
  - apply list_elem_of_here.
  - apply elem_of_cons in Hin as [E|Hin]; [congruence|].
    apply list_elem_of_further, IH, Hin.
Qed.

Lemma elem_of_common_of d n (e : AST) :
  NoDup d.*1 -> e ∈ common_of d n <-> e ∈ d.*1 /\ cnt d e = n.
Proof.
  intros Hnd. unfold common_of. split.
  - intros Hin. apply list_elem_of_fmap in Hin as ([e' c] & -> & Hin).
    apply list_elem_of_In, filter_In in Hin as [Hin Hc].
    apply list_elem_of_In in Hin. apply Nat.eqb_eq in Hc. simpl. split.
    + apply list_elem_of_fmap. exists (e', c). split; [reflexivity|exact Hin].
    + rewrite (cnt_entry d e' c Hnd Hin). exact Hc.
  - intros [Hin Hc]. apply list_elem_of_fmap. exists (e, cnt d e).
    split; [reflexivity|].
    apply list_elem_of_In, filter_In. split.
    + apply list_elem_of_In, entry_cnt, Hin.
    + apply Nat.eqb_eq, Hc.
Qed.

Lemma NoDup_common_of d n : NoDup d.*1 -> NoDup (common_of d n).
Proof.
  unfold common_of. induction d as [|[k c] r IH]; simpl; intros Hnd;
    [constructor|].
  apply NoDup_cons in Hnd as [Hnot Hnd].
  destruct (c =? n)%nat; simpl; [|apply IH, Hnd].
  apply NoDup_cons. split; [|apply IH, Hnd].
  intros Hin. apply Hnot. apply list_elem_of_fmap in Hin as ([k' c'] & -> & Hin).
  apply list_elem_of_In, filter_In in Hin as [Hin _].
  apply list_elem_of_fmap. exists (k', c'). split; [reflexivity|].
  apply list_elem_of_In, Hin.
Qed.

(** *** Occurrences in lists without duplicates *)

Lemma occurrences_NoDup (e : AST) l :
  NoDup l -> occurrences e l = if decide (e ∈ l) then 1 else 0.
Proof.
  unfold occurrences. induction 1 as [|x l Hx Hnd IH]; [reflexivity|].
  rewrite filter_cons. destruct (decide (x = e)) as [->|Hne]; simpl.
  - rewrite IH. rewrite decide_False by exact Hx.
    rewrite decide_True by apply list_elem_of_here. reflexivity.
  - rewrite IH. destruct (decide (e ∈ l)) as [Hin|Hout].
    + rewrite decide_True by (apply list_elem_of_further, Hin). reflexivity.
    + rewrite decide_False; [reflexivity|].
      intros Hin. apply elem_of_cons in Hin as [E|Hin]; [congruence|contradiction].
Qed.

Lemma occurrences_app (e : AST) l1 l2 :
  occurrences e (l1 ++ l2) = occurrences e l1 + occurrences e l2.
Proof.
  unfold occurrences. rewrite filter_app, length_app. reflexivity.
Qed.

Lemma occurrences_flat_map (e : AST) (arguments : list AST) :
  Forall (fun arg => NoDup (subexprs arg)) arguments ->
  occurrences e (flat_map subexprs arguments) <= length arguments
  /\ (occurrences e (flat_map subexprs arguments) = length arguments <->
      Forall (fun arg => e ∈ subexprs arg) arguments).
Proof.
  induction 1 as [|arg r Hnd _ IH]; simpl.
  - split; [reflexivity|]. split; [constructor|reflexivity].
  - rewrite occurrences_app, (occurrences_NoDup e _ Hnd).
    destruct IH as [Hle Hiff].
    destruct (decide (e ∈ subexprs arg)) as [Hin|Hout].
    + split; [lia|]. split.
      * intros E. constructor; [exact Hin|]. apply Hiff. lia.
      * intros Hall. apply Forall_cons_1 in Hall as [_ Hall].
        apply Hiff in Hall. lia.
    + split; [lia|]. split; [lia|].
      intros Hall. apply Forall_cons_1 in Hall as [Hin _]. contradiction.
Qed.

(** The common expressions of the arguments are those that every argument
    contributes. *)
Lemma common_exprs_spec (arguments : list AST) :
  (forall a b, a ∈ flat_map subexprs arguments ->
               b ∈ flat_map subexprs arguments ->
               ast_hash a = ast_hash b -> a = b) ->
  Forall (fun arg => NoDup (subexprs arg)) arguments ->
  exists expr_ctrs,
    count_args arguments [] = Returns expr_ctrs
    /\ NoDup (common_of expr_ctrs (length arguments))
    /\ forall e, e ∈ common_of expr_ctrs (length arguments) <->
                 e ∈ flat_map subexprs arguments
                 /\ Forall (fun arg => e ∈ subexprs arg) arguments.
Proof.
  intros Hhash Hnd.
  exists (incr_all (flat_map subexprs arguments) []).
  assert (Hkeys : NoDup (incr_all (flat_map subexprs arguments) []).*1)
    by (apply NoDup_incr_all; constructor).
  split; [|split].
  - apply (count_args_incr (flat_map subexprs arguments) Hhash).
    + intros e He. inversion He.
    + auto.
  - apply NoDup_common_of, Hkeys.
  - intros e. rewrite (elem_of_common_of _ _ _ Hkeys), keys_incr_all, cnt_incr_all.
    simpl. destruct (occurrences_flat_map e arguments Hnd) as [_ Hiff].
    rewrite Hiff. split.
    + intros [[Hin|Hin] Hall]; [inversion Hin|]. auto.
    + intros [Hin Hall]. auto.
Qed.

(** *** What the recursive calls return below a disjunction of
    conjunctions *)

Definition is_leaf (a : AST) : Prop := op a <> "And" /\ op a <> "Or".

Definition common_each : list AST -> Outcome (list (option AST)) :=
  fix each (l : list AST) : Outcome (list (option AST)) :=
    match l with
    | [] => Returns []
    | a :: r =>
        x ← _extract_common_subexpressions a;
        xs ← each r;
        Returns (x :: xs)
    end.

Lemma extract_common_subexpressions_eq o l :
  _extract_common_subexpressions (Node o l)
  = if o =? "And" then
      results ← common_each l;
      if forallb (fun arg => bool_decide (arg = None)) results
      then Returns None
      else Returns (Some (claripy_And
                            (zip_with (fun arg ori_arg => default ori_arg arg)
                                      results l)))
    else if o =? "Or" then
      results ← common_each l;
      common_of_disjunction
        (zip_with (fun arg ori_arg => default ori_arg arg) results l)
    else Returns None.
Proof. reflexivity. Qed.

Lemma extract_leaf a : is_leaf a -> _extract_common_subexpressions a = Returns None.
Proof.
  intros [Ha Ho]. destruct a as [b|n|v w|n w|o l]; try reflexivity.
  rewrite extract_common_subexpressions_eq. simpl in Ha, Ho.
  apply String.eqb_neq in Ha, Ho. rewrite Ha, Ho. reflexivity.
Qed.

Lemma common_each_unchanged l :
  Forall (fun a => _extract_common_subexpressions a = Returns None) l ->
  common_each l = Returns (map (fun _ => None) l).
Proof.
  induction 1 as [|a r Ha _ IH]; [reflexivity|].
  simpl. rewrite Ha. simpl. fold common_each. rewrite IH. reflexivity.
Qed.

Lemma zip_with_unchanged (l : list AST) :
  zip_with (fun (arg : option AST) ori_arg => default ori_arg arg)
           (map (fun _ => None) l) l = l.
Proof. induction l as [|a r IH]; simpl; [|rewrite IH]; reflexivity. Qed.

Lemma extract_conjunction_of_leaves l :
  Forall is_leaf l -> _extract_common_subexpressions (Node "And" l) = Returns None.
Proof.
  intros Hl. rewrite extract_common_subexpressions_eq. simpl.
  rewrite common_each_unchanged.
  - simpl.
    assert (Hnone : forallb (fun arg : option AST => bool_decide (arg = None))
                      (map (fun _ => None) l) = true)
      by (clear; induction l as [|a r IH]; [reflexivity|exact IH]).
    rewrite Hnone. reflexivity.
  - eapply Forall_impl; [exact Hl|]. intros a. apply extract_leaf.
Qed.

Lemma extract_disjunction arguments :
  Forall (fun a => _extract_common_subexpressions a = Returns None) arguments ->
  _extract_common_subexpressions (Node "Or" arguments)
  = common_of_disjunction arguments.
Proof.
  intros Hall. rewrite extract_common_subexpressions_eq. simpl.
  rewrite (common_each_unchanged _ Hall). simpl.
  rewrite zip_with_unchanged. reflexivity.
Qed.

(** *** The value of what is built *)

Definition without (common_exprs l : list AST) : list AST :=
  List.filter (fun subexpr => negb (_expr_inside_collection subexpr common_exprs)) l.

Lemma remaining_args_conjunctions (ls : list (list AST)) common_exprs :
  remaining_args (map (Node "And") ls) common_exprs
  = Returns (map (fun l => claripy_And (without common_exprs l)) ls).
Proof.
  induction ls as [|l r IH]; [reflexivity|].
  simpl. rewrite IH. reflexivity.
Qed.

Lemma forallb_without ρ common_exprs l :
  forallb (eval ρ) common_exprs = true ->
  forallb (eval ρ) (without common_exprs l) = forallb (eval ρ) l.
Proof.
  intros Hc. induction l as [|x r IH]; [reflexivity|]. simpl.
  unfold _expr_inside_collection.
  destruct (decide (x ∈ common_exprs)) as [Hin|Hout].
  - rewrite (bool_decide_eq_true_2 _ Hin). simpl. rewrite IH.
    rewrite forallb_forall in Hc.
    rewrite (Hc x (proj1 (list_elem_of_In _ _) Hin)). reflexivity.
  - rewrite (bool_decide_eq_false_2 _ Hout). simpl. rewrite IH. reflexivity.
Qed.

Lemma forallb_false_of ρ (e : AST) l :
  e ∈ l -> eval ρ e = false -> forallb (eval ρ) l = false.
Proof.
  induction 1 as [e l|e x l _ IH]; intros He; simpl.
  - rewrite He. reflexivity.
  - rewrite (IH He). apply andb_false_r.
Qed.

Lemma eval_disjunction_of_conjunctions ρ (ls : list (list AST)) :
  existsb (eval ρ) (map (Node "And") ls) = existsb (forallb (eval ρ)) ls.
Proof.
  induction ls as [|l r IH]; [reflexivity|]. simpl. rewrite IH. reflexivity.
Qed.

Lemma eval_remaining_conjunctions ρ common_exprs (ls : list (list AST)) :
  existsb (eval ρ) (map (fun l => claripy_And (without common_exprs l)) ls)
  = existsb (fun l => forallb (eval ρ) (without common_exprs l)) ls.
Proof.
  induction ls as [|l r IH]; [reflexivity|]. simpl.
  rewrite eval_claripy_And, IH. reflexivity.
Qed.

(** Factoring out what every conjunction contains keeps the value. *)
Lemma factored_value ρ common_exprs (ls : list (list AST)) :
  (forall e, e ∈ common_exprs -> Forall (fun l => e ∈ l) ls) ->
  forallb (eval ρ) common_exprs
  && existsb (fun l => forallb (eval ρ) (without common_exprs l)) ls
  = existsb (forallb (eval ρ)) ls.
Proof.
  intros Hcommon. destruct (forallb (eval ρ) common_exprs) eqn:Eall; simpl.
  - clear Hcommon. induction ls as [|l r IH]; [reflexivity|]. simpl.
    rewrite (forallb_without ρ _ l Eall), IH. reflexivity.
  - symmetry.
    assert (Hsome : exists e, e ∈ common_exprs /\ eval ρ e = false).
    { clear Hcommon. induction common_exprs as [|x r IH]; [discriminate|].
      simpl in Eall. destruct (eval ρ x) eqn:Ex.
      - destruct (IH Eall) as (e & He & Hv). exists e.
        split; [apply list_elem_of_further, He|exact Hv].
      - exists x. split; [apply list_elem_of_here|exact Ex]. }
    destruct Hsome as (e & He & Hv). pose proof (Hcommon e He) as Hall.
    clear -Hall Hv. induction Hall as [|l r Hl _ IH]; [reflexivity|].
    simpl. rewrite IH, orb_false_r.
    apply (forallb_false_of ρ e l); [exact Hl|exact Hv].
Qed.
End CommonFacts.

(** [(A ∧ B) ∨ (A ∧ C) ⇒ A ∧ (B ∨ C)]: on a disjunction of conjunctions
    whose conjuncts are no conjunctions or disjunctions themselves, none
    repeated within its conjunction and no two sharing a hash, the pass
    returns a term that has the value of the disjunction in every
    environment. *)
Theorem common_subexpressions_of_conjunctions
    `{Claripy} `{!ClaripySound} `{ClaripyQueries} (ls : list (list AST)) :
  Forall (fun l => NoDup l /\ Forall is_leaf l) ls ->
  (forall a b, a ∈ concat ls -> b ∈ concat ls ->
     ast_hash a = ast_hash b -> a = b) ->
  exists r,
    _extract_common_subexpressions (Node "Or" (map (Node "And") ls))
    = Returns (Some r)
    /\ forall ρ, eval ρ r = eval ρ (Node "Or" (map (Node "And") ls)).
Proof.
  intros Hls Hhash.
  assert (Hflat : flat_map subexprs (map (Node "And") ls) = concat ls).
  { clear. induction ls as [|l r IH]; [reflexivity|]. simpl.
    rewrite IH. reflexivity. }
  assert (Hnd : Forall (fun arg => NoDup (subexprs arg)) (map (Node "And") ls)).
  { apply Forall_fmap. eapply Forall_impl; [exact Hls|].
    intros l [Hl _]. exact Hl. }
  rewrite extract_disjunction.
  2:{ apply Forall_fmap. eapply Forall_impl; [exact Hls|].
      intros l [_ Hl]. apply extract_conjunction_of_leaves, Hl. }
  unfold common_of_disjunction.
  destruct (common_exprs_spec (map (Node "And") ls)) as (d & Hd & _ & Hcommon).
  { rewrite Hflat. exact Hhash. }
  { exact Hnd. }
  rewrite Hd. simpl. fold (common_of d (length (map (Node "And") ls))).
  remember (common_of d (length (map (Node "And") ls))) as common_exprs
    eqn:Ec.
  clear Ec. destruct common_exprs as [|c0 cs].
  { eexists. split; [reflexivity|]. intros ρ. rewrite eval_claripy_Or.
    reflexivity. }
  rewrite remaining_args_conjunctions. simpl.
  eexists. split; [reflexivity|]. intros ρ.
  rewrite eval_claripy_And.
  change (c0 :: cs ++ [claripy_Or
                         (map (fun l => claripy_And (without (c0 :: cs) l)) ls)])
    with ((c0 :: cs) ++ [claripy_Or
                           (map (fun l => claripy_And (without (c0 :: cs) l)) ls)]).
  rewrite forallb_app. simpl forallb at 2. rewrite eval_claripy_Or.
  rewrite andb_true_r.
  change (eval ρ (Node "Or" (map (Node "And") ls)))
    with (existsb (eval ρ) (map (Node "And") ls)).
  rewrite eval_disjunction_of_conjunctions, eval_remaining_conjunctions.
  apply factored_value. intros e He.
  apply Hcommon in He as [_ Hall]. rewrite Forall_forall in Hall.
  apply Forall_forall. intros l Hl.
  apply (Hall (Node "And" l)), list_elem_of_fmap. exists l. auto.
Qed.

Lemma common_subexpressions_of_conjunctions_witness :
  let cond :=
    Node "Or" [Node "And" [BoolS "A"; BoolS "B"];
               Node "And" [BoolS "A"; BoolS "C"]] in
  exists r,
    @_extract_common_subexpressions Reference.claripy reference_queries cond
    = Returns (Some r)
    /\ forall ρ, eval ρ r = eval ρ cond.
Proof.
  apply (@common_subexpressions_of_conjunctions Reference.claripy
           Reference.claripy_sound reference_queries
           [[BoolS "A"; BoolS "B"]; [BoolS "A"; BoolS "C"]]).
  - repeat constructor; try discriminate;
      rewrite ?elem_of_cons, ?elem_of_nil; intros Hin;
      repeat (destruct Hin as [Hin|Hin]; try discriminate); exact Hin.
  - intros a b Ha Hb.
    change (a ∈ [BoolS "A"; BoolS "B"; BoolS "A"; BoolS "C"]) in Ha.
    change (b ∈ [BoolS "A"; BoolS "B"; BoolS "A"; BoolS "C"]) in Hb.
    repeat (apply elem_of_cons in Ha as [->|Ha]);
      repeat (apply elem_of_cons in Hb as [->|Hb]);
      try (inversion Ha; fail); try (inversion Hb; fail);
      intros E; try reflexivity; vm_compute in E; discriminate.
Defined.

Lemma only_element (c : list AST) (a : AST) :
  NoDup c -> (forall e, e ∈ c <-> e = a) -> c = [a].
Proof.
  intros Hnd Hiff. destruct c as [|x [|y r]].
  - pose proof (proj2 (Hiff a) eq_refl) as Hin. inversion Hin.
  - f_equal. apply Hiff, list_elem_of_here.
  - exfalso. apply NoDup_cons in Hnd as [Hnot _]. apply Hnot.
    assert (x = a) as -> by apply Hiff, list_elem_of_here.
    assert (y = a) as ->
      by apply Hiff, list_elem_of_further, list_elem_of_here.
    apply list_elem_of_here.
Qed.

(** A disjunct that is itself the common expression is dropped, not taken
    for the empty conjunction: on [a ∨ (a ∧ b ∧ ...)], whose value is that
    of [a], the pass returns a term with the value of the conjunction
    [a ∧ b ∧ ...]. *)
Theorem common_disjunct_is_dropped
    `{Claripy} `{!ClaripySound} `{ClaripyQueries} (a : AST) (l : list AST) :
  is_leaf a -> a ∈ l -> NoDup l -> Forall is_leaf l ->
  (forall x y, x ∈ l -> y ∈ l -> ast_hash x = ast_hash y -> x = y) ->
  exists r,
    _extract_common_subexpressions (Node "Or" [a; Node "And" l])
    = Returns (Some r)
    /\ forall ρ,
         eval ρ r = forallb (eval ρ) l
         /\ eval ρ (Node "Or" [a; Node "And" l]) = eval ρ a.
Proof.
  intros Ha Hin Hnd Hleaves Hhash.
  assert (Hsub : subexprs a = [a]).
  { unfold subexprs. destruct Ha as [Hop _]. apply String.eqb_neq in Hop.
    rewrite Hop. reflexivity. }
  assert (Hflat : flat_map subexprs [a; Node "And" l] = a :: l).
  { simpl. rewrite Hsub, app_nil_r. reflexivity. }
  rewrite extract_disjunction.
  2:{ repeat constructor;
        [apply extract_leaf, Ha | apply extract_conjunction_of_leaves, Hleaves]. }
  unfold common_of_disjunction.
  destruct (common_exprs_spec [a; Node "And" l]) as (d & Hd & Hcnd & Hcommon).
  { rewrite Hflat. intros x y Hx Hy.
    apply Hhash.
    - apply elem_of_cons in Hx as [->|Hx]; assumption.
    - apply elem_of_cons in Hy as [->|Hy]; assumption. }
  { repeat constructor; [rewrite Hsub; apply NoDup_singleton | exact Hnd]. }
  rewrite Hd. simpl. fold (common_of d 2).
  assert (Hone : common_of d 2 = [a]).
  { apply only_element; [exact Hcnd|]. intros e. rewrite Hcommon, Hflat. split.
    - intros [_ Hall]. apply Forall_cons_1 in Hall as [He _].
      rewrite Hsub in He. apply list_elem_of_singleton in He. exact He.
    - intros ->. split; [apply list_elem_of_here|].
      repeat constructor; [rewrite Hsub; apply list_elem_of_here | exact Hin]. }
  rewrite Hone.
  destruct Ha as [Hop Hor]. apply String.eqb_neq in Hop. rewrite Hop.
  simpl. rewrite decide_True by reflexivity. simpl.
  eexists. split; [reflexivity|]. intros ρ. split.
  - rewrite eval_claripy_And. simpl. rewrite eval_claripy_Or. simpl.
    rewrite eval_claripy_And.
    fold (without [a] l). rewrite !andb_true_r, orb_false_r.
    destruct (eval ρ a) eqn:Ea; simpl.
    + apply forallb_without. simpl. rewrite Ea. reflexivity.
    + symmetry. apply (forallb_false_of ρ a l Hin Ea).
  - simpl. rewrite orb_false_r. destruct (eval ρ a) eqn:Ea; [reflexivity|].
    simpl. apply (forallb_false_of ρ a l Hin Ea).
Qed.

(** [A ∨ (A ∧ B)] becomes a term with the value of [A ∧ B]. *)
Lemma common_disjunct_is_dropped_witness :
  exists r,
    @_extract_common_subexpressions Reference.claripy reference_queries
      (Node "Or" [BoolS "A"; Node "And" [BoolS "A"; BoolS "B"]])
    = Returns (Some r)
    /\ forall ρ,
         eval ρ r = forallb (eval ρ) [BoolS "A"; BoolS "B"]
         /\ eval ρ (Node "Or" [BoolS "A"; Node "And" [BoolS "A"; BoolS "B"]])
            = eval ρ (BoolS "A").
Proof.
  apply (@common_disjunct_is_dropped Reference.claripy
           Reference.claripy_sound reference_queries
           (BoolS "A") [BoolS "A"; BoolS "B"]).
  - split; discriminate.
  - apply list_elem_of_here.
  - repeat constructor;
      rewrite ?elem_of_cons, ?elem_of_nil; intros Hin;
      repeat (destruct Hin as [Hin|Hin]; try discriminate); exact Hin.
  - repeat constructor; discriminate.
  - intros a b Ha Hb.
    repeat (apply elem_of_cons in Ha as [->|Ha]);
      repeat (apply elem_of_cons in Hb as [->|Hb]);
      try (inversion Ha; fail); try (inversion Hb; fail);
      intros E; try reflexivity; vm_compute in E; discriminate.
Defined.
